(** * srt-ai: subtitle grouping, translation reconciliation and batch jobs

    A shallow embedding of [src/functions.js]:
    - [groupSegmentsByTokenLength] (the token-bounded grouper),
    - [getTranslation] and [translate] (translation client, count
      verification and bounded retry),
    - [batchTranslations], [checkBatchStatus] and [pendingJobs] (submission
      and polling of batch jobs),
    - [template] (console messages),
    - [mapFileName] and [ffmpegSubtitles] (file names and the choice of the
      embedded subtitle stream),
    - [translatePath] (the existing translations, the cache, the entries
      of the subtitle file and their cleaning, the dispatch of the groups
      and the all-or-nothing write of the translated subtitle file),
    followed by the properties established about them.

    Conventions of the embedding.
    - JavaScript numbers that only ever hold small integers (token counts,
      attempt counters, the budgets read from the environment) are [Z].
    - A JavaScript string is a [string] of code units below 256.
    - A value that is [false], [null] or [undefined] in the source is [None]
      of an [option]; the truthiness test of the source is spelled out.
    - Objects that the source mutates through several references (segments,
      jobs) live in a heap indexed by locations; arrays of such objects are
      lists of locations.
    - The file system, the console, the random generator and the remote
      endpoint are explicit components of the state or explicit oracles.
    - A call suspended at an [await] resumes in the state that the other
      calls have made in the meantime. [attempt], [translate] and
      [runWindow] take the schedule in which no other call runs in between;
      [resume] and [translateUnder] take any.
    - [MAX_TRIES] is a number in [Config]; [Limit] adds the value that is
      unset or does not read as a number. *)

From Stdlib Require Import ZArith Lia Bool Ascii String DecimalString DecimalNat.
From stdpp Require Import base list strings gmap.

Local Open Scope Z_scope.

(** ** JavaScript string helpers *)

Module Js.

(** Code units that [String.prototype.trim] removes (restricted to code
    units below 256): TAB, LF, VT, FF, CR, SPACE and NBSP. *)
Definition isWhiteSpace (c : ascii) : bool :=
  let n := nat_of_ascii c in
  ((9 <=? n)%nat && (n <=? 13)%nat) || (n =? 32)%nat || (n =? 160)%nat.

(** The class [\d] of a regular expression without the unicode flag. *)
Definition isDigit (c : ascii) : bool :=
  let n := nat_of_ascii c in (48 <=? n)%nat && (n <=? 57)%nat.

Fixpoint trimStart (s : string) : string :=
  match s with
  | EmptyString => EmptyString
  | String c r => if isWhiteSpace c then trimStart r else s
  end.

Fixpoint trimEnd (s : string) : string :=
  match s with
  | EmptyString => EmptyString
  | String c r =>
      match trimEnd r with
      | EmptyString => if isWhiteSpace c then EmptyString else String c EmptyString
      | r' => String c r'
      end
  end.

(** [s.trim()] *)
Definition trim (s : string) : string := trimEnd (trimStart s).

(** [s.split(sep)] for a one-character separator: never empty, an empty
    string splits into one empty fragment. *)
Fixpoint split (sep : ascii) (s : string) : list string :=
  match s with
  | EmptyString => [EmptyString]
  | String c r =>
      if Ascii.eqb c sep then EmptyString :: split sep r
      else match split sep r with
           | [] => [String c EmptyString]
           | h :: t => String c h :: t
           end
  end.

(** [l.join(sep)] *)
Definition join (sep : string) (l : list string) : string :=
  String.concat sep l.

Fixpoint dropDigits (s : string) : string :=
  match s with
  | EmptyString => EmptyString
  | String c r => if isDigit c then dropDigits r else s
  end.

(** [s.replace(/^(\d+)\. /, '')]: a leading run of digits followed by a
    dot and a space is removed; the run is taken greedily and no shorter
    run can match, as the character after it would be a digit. *)
Definition stripOrdinal (s : string) : string :=
  match s with
  | EmptyString => EmptyString
  | String c r =>
      if isDigit c then
        match dropDigits r with
        | String "." (String " " rest) => rest
        | _ => s
        end
      else s
  end.

(** Decimal rendering of a non-negative integer inside a template
    literal. *)
Definition decimal (n : nat) : string :=
  NilEmpty.string_of_uint (Nat.to_uint n).

(** [s.slice(0, n)] *)
Fixpoint slice0 (n : nat) (s : string) : string :=
  match n, s with
  | S n', String c r => String c (slice0 n' r)
  | _, _ => EmptyString
  end.

(** [s.padEnd(n, ' ')] *)
Fixpoint padEnd (n : nat) (s : string) : string :=
  match n, s with
  | O, _ => s
  | S n', EmptyString => String " " (padEnd n' EmptyString)
  | S n', String c r => String c (padEnd n' r)
  end.

(** Truthiness of a value that is a string or absent. *)
Definition truthy (v : option string) : bool :=
  match v with
  | Some (String _ _) => true
  | _ => false
  end.

End Js.

(** ** Data model *)

(** A subtitle segment, [{header, content, translatedContent}]; the last
    field is absent until a translation has been assigned. *)
Record Segment := mkSegment {
  header : string;
  content : string;
  translatedContent : option string
}.

(** ** The token-bounded grouper *)

Section Grouper.

(** The grouper reads only [segment.content]; it is written over any
    representation [A] of a segment with a way to read that field. *)
Context {A : Type}.
Variable contentOf : A -> string.

(** [encoder.encode(text).length] of the tokenizer chosen by [AI_MODEL]. *)
Variable numTokens : string -> nat.

(** The three variables of the loop: [groups], [currentGroup] and
    [currentGroupTokenCount]. *)
Record GroupState := mkGroupState {
  groups : list (list A);
  currentGroup : list A;
  currentGroupTokenCount : Z
}.

(** One iteration of [for (const segment of segments)]; [budget] is the
    parameter [length] of the source. *)
Definition groupStep (budget : Z) (st : GroupState) (segment : A) : GroupState :=
  let segmentTokenCount := Z.of_nat (numTokens (contentOf segment)) in
  if currentGroupTokenCount st + segmentTokenCount <=? budget then
    {| groups := groups st;
       currentGroup := currentGroup st ++ [segment];
       currentGroupTokenCount := currentGroupTokenCount st + (segmentTokenCount + 4) |}
  else
    {| groups := groups st ++ [currentGroup st];
       currentGroup := [segment];
       currentGroupTokenCount := segmentTokenCount |}.

Definition groupLoop (budget : Z) (st : GroupState) (segments : list A) : GroupState :=
  fold_left (groupStep budget) segments st.

(** [if (currentGroup.length > 0) groups.push(currentGroup)] *)
Definition flushGroup (st : GroupState) : list (list A) :=
  if (0 <? length (currentGroup st))%nat then groups st ++ [currentGroup st]
  else groups st.

Definition groupSegmentsByTokenLength (segments : list A) (budget : Z) : list (list A) :=
  flushGroup
    (groupLoop budget
       {| groups := []; currentGroup := []; currentGroupTokenCount := 0 |} segments).

(** Token counts of a group and the two ways of charging the 4-token
    ["\nN. "] delimiter: once per segment, or once between neighbours. *)
Definition tokenSum (g : list A) : Z :=
  fold_right (fun s acc => Z.of_nat (numTokens (contentOf s)) + acc) 0 g.

Definition costPerSegment (g : list A) : Z :=
  tokenSum g + 4 * Z.of_nat (length g).

Definition costInterSegment (g : list A) : Z :=
  tokenSum g + 4 * Z.of_nat (Nat.pred (length g)).

(** What the loop maintains about costs, for a budget that is not negative:
    closed groups and the open group hold at most [budget] tokens unless
    they are singletons, the running cost is at least the tokens of the open
    group, and as long as no group has been closed the running cost charges
    the delimiter once per segment. *)
Definition costInvariant (budget : Z) (st : GroupState) : Prop :=
  Forall (fun g => tokenSum g <= budget \/ length g = 1%nat) (groups st)
  /\ (tokenSum (currentGroup st) <= budget \/ length (currentGroup st) = 1%nat)
  /\ tokenSum (currentGroup st) <= currentGroupTokenCount st
  /\ match groups st with
     | [] => currentGroupTokenCount st = costPerSegment (currentGroup st)
             /\ costInterSegment (currentGroup st) <= budget
     | g :: _ => costInterSegment g <= budget
     end.

End Grouper.

Arguments mkGroupState {A}.
Arguments groups {A}.
Arguments currentGroup {A}.
Arguments currentGroupTokenCount {A}.

(** ** Batch jobs, queues and the rest of the process state *)

(** Locations of heap-allocated objects. *)
Definition loc := nat.

(** One request of a batch job, [{content, id, result}]; [result] is absent
    until the job has been downloaded. *)
Record Request := mkRequest {
  reqContent : string;
  reqId : string;
  result : option string
}.

(** A job of the durable store: the fields of the remote batch object that
    the code reads ([id]) plus [requests] and [finished] (absent is falsy). *)
Record Job := mkJob {
  jobId : string;
  requests : list Request;
  finished : bool
}.

(** An entry of the in-memory pending list [toBatch]. The method, the url and
    the fixed sampling parameters of [body] are constants; what varies is the
    correlation id and the user text. [custom_id] is the integer whose
    decimal digits form the id. *)
Record BatchEntry := mkBatchEntry {
  custom_id : Z;
  bodyText : string
}.

(** A line of the error corpus [mostErrored]: a line read back from
    [most-errored.jsonl], or the serialised exchange pushed by [translate]
    (system prompt, user text, assistant text). *)
Inductive ErrorLine :=
| RawLine (line : string)
| Exchange (system user assistant : string).

(** Arguments handed to [template]. *)
Inductive Arg :=
| ArgNum (n : Z)
| ArgStr (s : string).

(** What is printed: [console.log] of a text, or [console.error] /
    [console.warn] of [template(fmt, ...args)]. *)
Inductive ConsoleEvent :=
| Log (text : string)
| Error (fmt : string) (args : list Arg).

(** Requests sent to the remote endpoint. *)
Inductive NetCall :=
| ChatCompletion (text : string)
| BatchRetrieve (id : string)
| FileContent (fileId : string).

(** A translated subtitle file written by [translatePath]: the path of the
    source subtitle, the language alias substituted into it, and the body. *)
Record SubtitleFile := mkSubtitleFile {
  sourcePath : string;
  languageAlias : option string;
  body : string
}.

Record World := mkWorld {
  segments : loc -> Segment;          (* the segment objects *)
  jobObjects : loc -> Job;            (* the job objects *)
  jobs : list loc;                    (* [let jobs] *)
  toBatch : list BatchEntry;          (* [const toBatch] *)
  mostErrored : list ErrorLine;       (* [const mostErrored] *)
  console : list ConsoleEvent;
  network : list NetCall;
  randomDraws : nat;                  (* calls of [Math.random] so far *)
  cacheFile : option (list Job);      (* content of [cache.json] *)
  mostErroredFile : option (list ErrorLine); (* lines of [most-errored.jsonl] *)
  subtitleFiles : list SubtitleFile   (* translated subtitles written *)
}.

(** The environment variables and command-line flags the code reads. *)
Record Config := mkConfig {
  MAX_TOKENS : Z;
  MAX_TRIES : Z;
  batch : bool;
  debug : bool;
  table : bool;
  prompt : string;
  TARGET_LANGUAGE_ALIAS : list string
}.

(** The answer of [openai.chat.completions.create]: the call rejects, or
    yields [choices[0]] with its [finish_reason] and [message.content]. *)
Inductive Completion :=
| ChatRejects (message : string)
| ChatChoice (finish_reason : string) (messageContent : option string).

(** What lies outside the process: the model (its answer may depend on how
    many requests were sent before and on the user text), the random
    generator and the tokenizer. *)
Record Env := mkEnv {
  chat : nat -> string -> Completion;
  random : nat -> Z;
  numTokens : string -> nat
}.

(** Results of effectful functions: a returned value, a thrown exception (a
    rejected promise), or exhaustion of the recursion budget of the model. *)
Inductive Outcome (A : Type) :=
| Ret (a : A)
| Throw (e : string)
| OutOfFuel.
Arguments Ret {A}.
Arguments Throw {A}.
Arguments OutOfFuel {A}.

Definition setSegments (h : loc -> Segment) (w : World) : World :=
  mkWorld h (jobObjects w) (jobs w) (toBatch w) (mostErrored w) (console w)
    (network w) (randomDraws w) (cacheFile w) (mostErroredFile w) (subtitleFiles w).

Definition setJobObjects (h : loc -> Job) (w : World) : World :=
  mkWorld (segments w) h (jobs w) (toBatch w) (mostErrored w) (console w)
    (network w) (randomDraws w) (cacheFile w) (mostErroredFile w) (subtitleFiles w).

Definition setJobs (js : list loc) (w : World) : World :=
  mkWorld (segments w) (jobObjects w) js (toBatch w) (mostErrored w) (console w)
    (network w) (randomDraws w) (cacheFile w) (mostErroredFile w) (subtitleFiles w).

Definition pushToBatch (e : BatchEntry) (w : World) : World :=
  mkWorld (segments w) (jobObjects w) (jobs w) (toBatch w ++ [e]) (mostErrored w)
    (console w) (network w) (S (randomDraws w)) (cacheFile w) (mostErroredFile w)
    (subtitleFiles w).

Definition pushMostErrored (l : ErrorLine) (w : World) : World :=
  mkWorld (segments w) (jobObjects w) (jobs w) (toBatch w) (mostErrored w ++ [l])
    (console w) (network w) (randomDraws w) (cacheFile w) (mostErroredFile w)
    (subtitleFiles w).

Definition print (e : ConsoleEvent) (w : World) : World :=
  mkWorld (segments w) (jobObjects w) (jobs w) (toBatch w) (mostErrored w)
    (console w ++ [e]) (network w) (randomDraws w) (cacheFile w)
    (mostErroredFile w) (subtitleFiles w).

Definition send (c : NetCall) (w : World) : World :=
  mkWorld (segments w) (jobObjects w) (jobs w) (toBatch w) (mostErrored w)
    (console w) (network w ++ [c]) (randomDraws w) (cacheFile w)
    (mostErroredFile w) (subtitleFiles w).

(** [fs.writeFileSync(cachePath, JSON.stringify(jobs, null, 2))]: the file
    holds a copy of the job objects currently listed in [jobs]. *)
Definition writeCache (w : World) : World :=
  mkWorld (segments w) (jobObjects w) (jobs w) (toBatch w) (mostErrored w)
    (console w) (network w) (randomDraws w)
    (Some (map (jobObjects w) (jobs w))) (mostErroredFile w) (subtitleFiles w).

(** [fs.writeFileSync('most-errored.jsonl', mostErrored.join('\n'))] *)
Definition writeMostErrored (w : World) : World :=
  mkWorld (segments w) (jobObjects w) (jobs w) (toBatch w) (mostErrored w)
    (console w) (network w) (randomDraws w) (cacheFile w)
    (Some (mostErrored w)) (subtitleFiles w).

Definition writeSubtitle (f : SubtitleFile) (w : World) : World :=
  mkWorld (segments w) (jobObjects w) (jobs w) (toBatch w) (mostErrored w)
    (console w) (network w) (randomDraws w) (cacheFile w) (mostErroredFile w)
    (subtitleFiles w ++ [f]).

(** Update of one object of a heap. *)
Definition update {T : Type} (h : loc -> T) (l : loc) (v : T) : loc -> T :=
  fun l' => if Nat.eqb l' l then v else h l'.

(** ** The translation client *)

(** [j.requests.find(r => r.content === text)] *)
Definition findRequest (text : string) (j : Job) : option Request :=
  List.find (fun r => String.eqb (reqContent r) text) (requests j).

(** [jobs.find(j => j.requests.find(r => r.content === text))] *)
Definition findJob (text : string) (w : World) : option loc :=
  List.find (fun l => bool_decide (is_Some (findRequest text (jobObjects w l)))) (jobs w).

Definition getTranslation (cfg : Config) (env : Env) (text : string) (w : World)
  : Outcome (option string) * World :=
  if batch cfg then
    match findJob text w with
    | Some l =>
        let job := jobObjects w l in
        (Ret (if finished job then
                match findRequest text job with
                | Some r => result r
                | None => None
                end
              else None), w)
    | None =>
        (Ret None,
         pushToBatch {| custom_id := random env (randomDraws w); bodyText := text |} w)
    end
  else
    let w1 := send (ChatCompletion text) w in
    match chat env (length (network w)) text with
    | ChatRejects e => (Throw e, w1)
    | ChatChoice finish_reason messageContent =>
        if negb (String.eqb finish_reason "stop") then
          (Ret None,
           print (Error "Failed to translate, translation stopped: {{0}}"
                        [ArgStr finish_reason]) w1)
        else (Ret messageContent, w1)
    end.

(** ** Count verification and bounded retry *)

Definition newline : ascii := ascii_of_nat 10.

(** [group.map(m => m.content)] *)
Definition contents (w : World) (group : list loc) : list string :=
  map (fun m => content (segments w m)) group.

(** [.map((s, i) => `${i + 1}. ${s}`)], from index [i] on. *)
Fixpoint numbered (i : nat) (l : list string) : list string :=
  match l with
  | [] => []
  | s :: rest => (Js.decimal (S i) +:+ ". " +:+ s) :: numbered (S i) rest
  end.

(** The user text sent for a group. *)
Definition groupText (w : World) (group : list loc) : string :=
  Js.join (String newline EmptyString) (numbered 0 (contents w group)).

(** The fragments read back from a raw answer: split on newlines, each
    line trimmed and then relieved of its ordinal marker, and one trailing
    empty fragment popped. *)
Definition parseTranslation (translated : string) : list string :=
  let split := map (fun s => Js.stripOrdinal (Js.trim s)) (Js.split newline translated) in
  match last split with
  | Some EmptyString => removelast split
  | _ => split
  end.

Definition setTranslatedContent (v : option string) (s : Segment) : Segment :=
  {| header := header s; content := content s; translatedContent := v |}.

(** [for (const [i, groupMatch] of group.entries())
       groupMatch.translatedContent = split[i]], from index [i] on. *)
Fixpoint assignFrom (i : nat) (split : list string) (group : list loc)
    (h : loc -> Segment) : loc -> Segment :=
  match group with
  | [] => h
  | groupMatch :: rest =>
      assignFrom (S i) split rest
        (update h groupMatch (setTranslatedContent (split !! i) (h groupMatch)))
  end.

(** One row of the [--table] listing. *)
Definition tableRow (original fragment : string) : ConsoleEvent :=
  Log (Js.padEnd 50 (Js.slice0 50 original) +:+ " | " +:+ Js.padEnd 50 (Js.slice0 50 fragment)).

(** The rows printed for [i] from 0 below [Math.min] of the two lengths. *)
Fixpoint printTable (originalSplit split : list string) (w : World) : World :=
  match originalSplit, split with
  | o :: os, s :: ss => printTable os ss (print (tableRow o s) w)
  | _, _ => w
  end.

Definition setRequests (rs : list Request) (j : Job) : Job :=
  {| jobId := jobId j; requests := rs; finished := finished j |}.

(** The batch-mode bookkeeping after a count mismatch: the requests with
    this text are removed from the job that answered, the job is dropped
    from [jobs] when it has no request left, and the store is written. *)
Definition forgetRequest (text : string) (w : World) : Outcome unit * World :=
  match findJob text w with
  | None => (Throw "TypeError: Cannot read properties of undefined (reading 'requests')", w)
  | Some l =>
      let job := jobObjects w l in
      let job' := setRequests
                    (List.filter (fun r => negb (String.eqb (reqContent r) text)) (requests job))
                    job in
      let w1 := setJobObjects (update (jobObjects w) l job') w in
      let w2 := if (length (requests job') =? 0)%nat
                then setJobs (List.filter
                                (fun j => negb (String.eqb (jobId (jobObjects w1 j)) (jobId job')))
                                (jobs w1)) w1
                else w1 in
      (Ret tt, writeCache w2)
  end.

Definition mismatchReport (observed expected : nat) : ConsoleEvent :=
  Error "Failed to translate, translation length mismatch: {{0}}/{{1}}"
        [ArgNum (Z.of_nat observed); ArgNum (Z.of_nat expected)].

Definition retryNotice (observed expected : nat) : ConsoleEvent :=
  Log ("Translation length mismatch (" +:+ Js.decimal observed +:+ "/"
       +:+ Js.decimal expected +:+ "), trying again...").

(** The state in which [translate] compares the counts: the exchange has
    been recorded when [number > 3] and the table has been printed. *)
Definition recordAttempt (cfg : Config) (text translated : string) (number : Z)
    (originalSplit split : list string) (w : World) : World :=
  let w1 := if 3 <? number
            then writeMostErrored (pushMostErrored (Exchange (prompt cfg) text translated) w)
            else w in
  if table cfg then printTable originalSplit split w1 else w1.

(** The state in which an attempt that started in [w] and obtained
    [translated] in [w1] compares the counts. *)
Definition compared (cfg : Config) (group : list loc) (number : Z) (translated : string)
    (w w1 : World) : World :=
  recordAttempt cfg (groupText w group) translated number (contents w1 group)
    (parseTranslation translated) w1.

(** How one activation of [translate] ends: with a returned or thrown
    result, or with the tail call [return translate(group, number + 1)]. *)
Inductive Step :=
| Return (r : Outcome bool)
| Retry.

(** The body of [translate(group, number)] up to its tail call. *)
Definition attempt (cfg : Config) (env : Env) (group : list loc) (number : Z)
    (w : World) : Step * World :=
  let text := groupText w group in
  match getTranslation cfg env text w with
  | (Throw e, w1) => (Return (Throw e), w1)
  | (OutOfFuel, w1) => (Return OutOfFuel, w1)
  | (Ret translated, w1) =>
      if negb (Js.truthy translated) then (Return (Ret false), w1)
      else
        let translated := default EmptyString translated in
        let originalSplit := contents w1 group in
        let split := parseTranslation translated in
        let w2 := recordAttempt cfg text translated number originalSplit split w1 in
        if negb (length split =? length originalSplit)%nat then
          match (if batch cfg then forgetRequest text w2 else (Ret tt, w2)) with
          | (Throw e, w3) => (Return (Throw e), w3)
          | (OutOfFuel, w3) => (Return OutOfFuel, w3)
          | (Ret _, w3) =>
              if MAX_TRIES cfg <=? number then
                (Return (Ret false),
                 print (mismatchReport (length split) (length originalSplit)) w3)
              else
                (Retry,
                 if debug cfg
                 then print (retryNotice (length split) (length originalSplit)) w3
                 else w3)
          end
        else
          (Return (Ret true), setSegments (assignFrom 0 split group (segments w2)) w2)
  end.

(** [translate(group, number)]. Each unit of [fuel] pays for one
    activation of the function, that is, for one attempt. *)
Fixpoint translate_fuel (fuel : nat) (cfg : Config) (env : Env)
    (group : list loc) (number : Z) (w : World) : Outcome bool * World :=
  match fuel with
  | O => (OutOfFuel, w)
  | S fuel' =>
      match attempt cfg env group number w with
      | (Return r, w1) => (r, w1)
      | (Retry, w1) => translate_fuel fuel' cfg env group (number + 1) w1
      end
  end.

(** The recursion stops once [number] has reached [MAX_TRIES]; this many
    activations are always enough. *)
Definition attemptBudget (cfg : Config) (number : Z) : nat :=
  S (Z.to_nat (MAX_TRIES cfg - number)).

Definition translate (cfg : Config) (env : Env) (group : list loc) (number : Z)
    (w : World) : Outcome bool * World :=
  translate_fuel (attemptBudget cfg number) cfg env group number w.

(** The attempt made from [w] obtains a text whose number of fragments
    differs from the number of segments of the group. *)
Definition mismatched (cfg : Config) (env : Env) (group : list loc) (w : World) : Prop :=
  exists translated w1,
    getTranslation cfg env (groupText w group) w = (Ret (Some translated), w1)
    /\ translated <> EmptyString
    /\ length (parseTranslation translated) <> length group.

(** Every attempt of the run of [translate(group, number)] that starts in
    [w] is mismatched, up to and including the one made with the counter at
    or above [MAX_TRIES]. *)
Inductive alwaysMismatched (cfg : Config) (env : Env) (group : list loc)
  : Z -> World -> Prop :=
| mismatched_last number w :
    mismatched cfg env group w ->
    MAX_TRIES cfg <= number ->
    alwaysMismatched cfg env group number w
| mismatched_again number w w1 :
    mismatched cfg env group w ->
    attempt cfg env group number w = (Retry, w1) ->
    alwaysMismatched cfg env group (number + 1) w1 ->
    alwaysMismatched cfg env group number w.

(** ** The activations of [translate] between two suspensions

    A call of [translate] is suspended at [await getTranslation(text)], and
    the other calls that [Promise.all] has started run in the meantime.
    [attempt] above takes the request and what follows it for one step, as
    when no other call runs in between; the definitions below keep the two
    apart. *)






(** ** Polling of batch jobs *)

(** The fields of the remote batch object that [checkBatchStatus] reads; a
    file id is [None] when the field is absent or empty, that is, falsy. *)
Record Batch := mkBatch {
  status : string;
  output_file_id : option string;
  error_file_id : option string
}.

(** A line of a downloaded results file once parsed: the text found at
    [response.body.choices[0].message.content], or a record in which that
    path cannot be followed. *)
Inductive OutputRecord :=
| Answer (text : option string)
| Malformed.

(** The remote side during one poll cycle. [None] stands for a request that
    rejects or a file one of whose lines is not JSON (both throw before the
    file is used). A line of an error file is the message to print, or
    [None] when [JSON.parse] throws on it. *)
Record Remote := mkRemote {
  retrieve : string -> option Batch;
  outputRecords : string -> option (list OutputRecord);
  errorLines : option string -> option (list (option string))
}.

(** [pendingJobs()] *)
Definition pendingJobs (w : World) : list loc :=
  List.filter (fun j => negb (finished (jobObjects w j))) (jobs w).

Definition setResult (v : option string) (r : Request) : Request :=
  {| reqContent := reqContent r; reqId := reqId r; result := v |}.

Definition setFinished (b : bool) (j : Job) : Job :=
  {| jobId := jobId j; requests := requests j; finished := b |}.

(** [for (const [i, message] of messages.entries())
       job.requests[i].result = message.response.body.choices[0].message.content],
    from index [i] on; the requests assigned before an exception keep their
    result. *)
Fixpoint storeResults (i : nat) (messages : list OutputRecord) (rs : list Request)
  : Outcome unit * list Request :=
  match messages with
  | [] => (Ret tt, rs)
  | message :: rest =>
      match rs !! i, message with
      | Some r, Answer text => storeResults (S i) rest (<[i := setResult text r]> rs)
      | _, _ => (Throw "TypeError", rs)
      end
  end.

(** The loop printing the lines of an error file. *)
Fixpoint printErrors (lines : list (option string)) (w : World) : Outcome unit * World :=
  match lines with
  | [] => (Ret tt, w)
  | Some message :: rest => printErrors rest (print (Error message []) w)
  | None :: _ => (Throw "SyntaxError", w)
  end.

(** [jobs = jobs.filter(j => j.id !== job.id)] *)
Definition dropJob (id : string) (w : World) : World :=
  setJobs (List.filter (fun j => negb (String.eqb (jobId (jobObjects w j)) id)) (jobs w)) w.

(** The body of [for (const job of [...jobs])] for the job object at [l]. *)
Definition pollJob (remote : Remote) (l : loc) (w : World) : Outcome unit * World :=
  let job := jobObjects w l in
  if finished job then (Ret tt, w)
  else
    let w1 := send (BatchRetrieve (jobId job)) w in
    match retrieve remote (jobId job) with
    | None => (Throw "batches.retrieve", w1)
    | Some b =>
        if String.eqb (status b) "completed" then
          match output_file_id b with
          | None =>
              let w2 := send (FileContent (default EmptyString (error_file_id b))) w1 in
              match errorLines remote (error_file_id b) with
              | None => (Throw "files.content", w2)
              | Some lines =>
                  match printErrors lines w2 with
                  | (Ret _, w3) => (Ret tt, dropJob (jobId job) w3)
                  | failure => failure
                  end
              end
          | Some file =>
              let w2 := send (FileContent file) w1 in
              match outputRecords remote file with
              | None => (Throw "files.content", w2)
              | Some messages =>
                  let '(r, rs) := storeResults 0 messages (requests job) in
                  let job1 := setRequests rs job in
                  match r with
                  | Ret _ =>
                      (Ret tt,
                       print (Log ("Job completed: " +:+ jobId job))
                         (setJobObjects (update (jobObjects w2) l (setFinished true job1)) w2))
                  | Throw e => (Throw e, setJobObjects (update (jobObjects w2) l job1) w2)
                  | OutOfFuel => (OutOfFuel, w2)
                  end
              end
          end
        else if String.eqb (status b) "failed" then
          (Ret tt, dropJob (jobId job) (print (Error "Job failed: {{0}}" [ArgStr (jobId job)]) w1))
        else
          (Ret tt, print (Log "Job in progress: Not created yet") w1)
    end.

(** The loop over the copy [[...jobs]] taken when it starts. *)
Fixpoint pollJobs (remote : Remote) (snapshot : list loc) (w : World) : Outcome unit * World :=
  match snapshot with
  | [] => (Ret tt, w)
  | l :: rest =>
      match pollJob remote l w with
      | (Ret _, w1) => pollJobs remote rest w1
      | failure => failure
      end
  end.

Definition checkBatchStatus (remote : Remote) (w : World) : Outcome unit * World :=
  if (length (pendingJobs w) =? 0)%nat then (Ret tt, print (Log "No pending jobs") w)
  else
    let w1 := print (Log "Checking jobs in progress") w in
    match pollJobs remote (jobs w1) w1 with
    | (Ret _, w2) => (Ret tt, writeCache w2)
    | failure => failure
    end.

(** Poll cycles run one after the other, each against the remote side of
    its time; the process state is carried over whether or not a cycle
    threw. *)
Fixpoint pollCycles (remotes : list Remote) (w : World) : World :=
  match remotes with
  | [] => w
  | remote :: rest => pollCycles rest (snd (checkBatchStatus remote w))
  end.

(** The remote side reports the batch [id] as completed and offers a
    results file whose records are [messages]. *)
Definition completedWith (remote : Remote) (id : string) (messages : list OutputRecord) : Prop :=
  exists b file,
    retrieve remote id = Some b
    /\ status b = "completed"
    /\ output_file_id b = Some file
    /\ outputRecords remote file = Some messages.

(** Among the job objects at [ls], those with the id [id] are finished. *)
Definition settledAt (id : string) (ls : list loc) (w : World) : Prop :=
  forall j, j ∈ ls -> jobId (jobObjects w j) = id -> finished (jobObjects w j) = true.

(** ** The tail of [translatePath] *)

(** [groups.slice(i, i + 10)] for [i = 0, 10, 20, ...]; [fuel] bounds the
    number of windows. *)
Fixpoint windows (fuel : nat) (groups : list (list loc)) : list (list (list loc)) :=
  match fuel, groups with
  | S fuel', _ :: _ => take 10 groups :: windows fuel' (drop 10 groups)
  | _, _ => []
  end.

(** [await Promise.all(window.map(group => translate(group, 0)))] under the
    schedule that runs the calls one after the other: every call of the
    window runs, and the first exception is the one the [await] throws. *)
Fixpoint runWindow (cfg : Config) (env : Env) (window : list (list loc)) (w : World)
  : option string * World :=
  match window with
  | [] => (None, w)
  | group :: rest =>
      let '(r, w1) := translate cfg env group 0 w in
      let '(e, w2) := runWindow cfg env rest w1 in
      (match r with Throw message => Some message | _ => e end, w2)
  end.

(** The loop over the windows; [Some message] when a window threw. *)
Fixpoint runWindows (cfg : Config) (env : Env) (ws : list (list (list loc))) (w : World)
  : option string * World :=
  match ws with
  | [] => (None, w)
  | window :: rest =>
      match runWindow cfg env window w with
      | (Some message, w1) => (Some message, w1)
      | (None, w1) => runWindows cfg env rest w1
      end
  end.

(** [matches.every(m => m.translatedContent)] *)
Definition everyTranslated (w : World) (matches : list loc) : bool :=
  forallb (fun m => Js.truthy (translatedContent (segments w m))) matches.

(** [matches.map(m => m.header + m.translatedContent).join('\n\n')] *)
Definition renderSubtitle (w : World) (matches : list loc) : string :=
  Js.join (String newline (String newline EmptyString))
    (map (fun m => header (segments w m)
                   +:+ default EmptyString (translatedContent (segments w m))) matches).

(** [translatePath] from the point where [matches] and [subtitlePath] are
    known (lines 385 to 406). The result is [undefined] ([None]) after an
    exception, [false] when the file was written and [true] otherwise. The
    elapsed time appended to the success message is left out. *)
Definition translatePathTail (cfg : Config) (env : Env) (fileName subtitlePath : string)
    (matches : list loc) (w : World) : option bool * World :=
  let groups := groupSegmentsByTokenLength (fun m => content (segments w m))
                  (numTokens env) matches (MAX_TOKENS cfg) in
  match runWindows cfg env (windows (length groups) groups) w with
  | (Some message, w1) =>
      (None, print (Log ("Failed to translate: " +:+ fileName +:+ " " +:+ message)) w1)
  | (None, w1) =>
      if everyTranslated w1 matches then
        (Some false,
         print (Log ("Successfully translated: " +:+ fileName))
           (writeSubtitle {| sourcePath := subtitlePath;
                             languageAlias := head (TARGET_LANGUAGE_ALIAS cfg);
                             body := renderSubtitle w1 matches |} w1))
      else (Some true, w1)
  end.

(** ** The text of a subtitle entry

    [translatePath] builds each element of [matches] from one match of its
    regular expression over the subtitle file: [match[1]] is the header,
    [match[2]] the lines of text (lines 368 to 379). The functions below are
    what it does to [match[2]]. *)

Module Srt.

(** The captures of [s.matchAll(/>([^<]+)</g)], read left to right.
    [pending] is the run of characters other than [<] met since a [>] that
    may still open a match; a [<] closes the match when the run is not empty,
    and scanning resumes after it. A run that is empty, or that reaches the
    end of the text, gives no match, and no later start can succeed where
    it failed. *)
Fixpoint betweenTagsFrom (pending : option string) (s : string) : list string :=
  match s with
  | EmptyString => []
  | String c r =>
      match pending with
      | None =>
          betweenTagsFrom (if Ascii.eqb c ">" then Some EmptyString else None) r
      | Some run =>
          if Ascii.eqb c "<" then
            match run with
            | EmptyString => betweenTagsFrom None r
            | _ => run :: betweenTagsFrom None r
            end
          else betweenTagsFrom (Some (run +:+ String c EmptyString)) r
      end
  end.

Definition betweenTags (s : string) : list string := betweenTagsFrom None s.

(** [s.replaceAll(/\r?\n/g, ' ')] *)
Fixpoint newlinesToSpaces (s : string) : string :=
  match s with
  | EmptyString => EmptyString
  | String c r =>
      if Ascii.eqb c newline then String " " (newlinesToSpaces r)
      else if Ascii.eqb c (ascii_of_nat 13) then
        match r with
        | String c' r' =>
            if Ascii.eqb c' newline then String " " (newlinesToSpaces r')
            else String c (newlinesToSpaces r)
        | EmptyString => String c EmptyString
        end
      else String c (newlinesToSpaces r)
  end.

(** [s.replaceAll(/{[^}]+}/g, '')]. [pending] is the run met since an
    opening brace that may still start a match; the closing brace drops the
    brace pair with a run that is not empty, and what never gets closed is
    kept. *)
Fixpoint removeBracesFrom (pending : option string) (s : string) : string :=
  match s with
  | EmptyString =>
      match pending with
      | None => EmptyString
      | Some run => String "{" run
      end
  | String c r =>
      match pending with
      | None =>
          if Ascii.eqb c "{" then removeBracesFrom (Some EmptyString) r
          else String c (removeBracesFrom None r)
      | Some run =>
          if Ascii.eqb c "}" then
            match run with
            | EmptyString => String "{" (String "}" (removeBracesFrom None r))
            | _ => removeBracesFrom None r
            end
          else removeBracesFrom (Some (run +:+ String c EmptyString)) r
      end
  end.

Definition removeBraces (s : string) : string := removeBracesFrom None s.

(** [s.startsWith('<')] *)
Definition startsWithTag (s : string) : bool :=
  match s with
  | String c _ => Ascii.eqb c "<"
  | EmptyString => false
  end.

(** The [content] of the segment built from [match[2]]. *)
Definition cleanContent (body : string) : string :=
  let trimmedMatch := Js.trim body in
  let content := Js.join " " (map Js.trim (betweenTags trimmedMatch)) in
  let content :=
    match content with
    | EmptyString => if negb (startsWithTag trimmedMatch) then trimmedMatch else content
    | _ => content
    end in
  removeBraces (newlinesToSpaces content).

(** [matches.push({header: match[1], content: ...})] *)
Definition segmentOfMatch (head body : string) : Segment :=
  {| header := head; content := cleanContent body; translatedContent := None |}.

End Srt.

(** ** Console messages: [template] *)

(** A value handed to [template] after the format: an array (with the text
    of each item), an object (with its [JSON.stringify(value, undefined, 2)])
    or anything else (with its text). *)
Inductive Datum :=
| Scalar (text : string)
| Items (texts : list string)
| Object (json : string).

(** What replaces a placeholder; [white] is the colouring function of the
    [colors] package. *)
Definition renderDatum (white : string -> string) (d : Datum) : string :=
  match d with
  | Items [] => white "[]"
  | Items texts => Js.join ", " (map white texts)
  | Object json => white json
  | Scalar text => white text
  end.

(** The digits at the head of a text, and what follows them. *)
Fixpoint spanDigits (s : string) : string * string :=
  match s with
  | EmptyString => (EmptyString, EmptyString)
  | String c r =>
      if Js.isDigit c then
        let '(digits, rest) := spanDigits r in (String c digits, rest)
      else (EmptyString, s)
  end.

(** A match of [/{{(\d+)}}/] at the head of a text: its digits. *)
Definition placeholderAt (s : string) : option string :=
  match s with
  | String "{" (String "{" r) =>
      match spanDigits r with
      | (String d digits, String "}" (String "}" _)) => Some (String d digits)
      | _ => None
      end
  | _ => None
  end.

(** [Number.parseInt] of a run of digits. *)
Definition parseInt (digits : string) : nat :=
  match NilEmpty.uint_of_string digits with
  | Some u => Nat.of_uint u
  | None => 0%nat
  end.

Definition placeholder (digits : string) : string := "{{" +:+ digits +:+ "}}".

(** [fmt.replaceAll(/{{(\d+)}}/g, replacer)], read left to right; [skip]
    counts the characters still to pass over after a match. An index below
    [data.length] is replaced by the rendering of that value, any other
    match by itself. *)
Fixpoint templateFrom (white : string -> string) (data : list Datum) (skip : nat)
    (s : string) : string :=
  match s with
  | EmptyString => EmptyString
  | String c r =>
      match skip with
      | S k => templateFrom white data k r
      | O =>
          match placeholderAt s with
          | Some digits =>
              match data !! parseInt digits with
              | Some d => renderDatum white d
              | None => placeholder digits
              end +:+ templateFrom white data (3 + String.length digits) r
          | None => String c (templateFrom white data 0 r)
          end
      end
  end.

(** [template(fmt, ...data)] for a format that is a string. *)
Definition template (white : string -> string) (fmt : string) (data : list Datum) : string :=
  templateFrom white data 0 fmt.

(** ** Submission of the pending list: [batchTranslations] *)

(** The remote side of a submission: the id of the uploaded file, the id of
    the created batch; [None] when the request rejects. *)
Record Uploader := mkUploader {
  files_create : list BatchEntry -> option string;
  batches_create : string -> option string
}.

(** What a submission sends out: the lines written to
    [openai-batch.jsonl], the upload of that file, the creation of the
    batch. *)
Inductive UploadCall :=
| WriteJsonl (lines : list BatchEntry)
| FilesCreate (lines : list BatchEntry)
| BatchesCreate (input_file_id : string).

(** The location of a new job object: one that the list of jobs does not
    refer to. *)
Definition freshLoc (ls : list loc) : loc := S (foldr Nat.max 0%nat ls).

(** [toBatch.splice(0, toBatch.length)] *)
Definition clearToBatch (w : World) : World :=
  mkWorld (segments w) (jobObjects w) (jobs w) [] (mostErrored w) (console w)
    (network w) (randomDraws w) (cacheFile w) (mostErroredFile w) (subtitleFiles w).

(** [{...batch, requests: toBatch.map(b => ({content: ..., id: batch.id}))}] *)
Definition newJob (id : string) (pending : list BatchEntry) : Job :=
  {| jobId := id;
     requests := map (fun b => {| reqContent := bodyText b; reqId := id; result := None |})
                     pending;
     finished := false |}.

(** [batchTranslations()]; [wait] is the command-line flag [--wait]. The
    colour codes of the messages are left out. *)
Definition batchTranslations (up : Uploader) (wait : bool) (w : World)
  : Outcome unit * World * list UploadCall :=
  if (0 <? length (toBatch w))%nat then
    let w1 := print (Log ("Batching " +:+ Js.decimal (length (toBatch w)) +:+ " requests")) w in
    match files_create up (toBatch w) with
    | None => (Throw "files.create", w1, [WriteJsonl (toBatch w); FilesCreate (toBatch w)])
    | Some file =>
        let calls := [WriteJsonl (toBatch w); FilesCreate (toBatch w); BatchesCreate file] in
        match batches_create up file with
        | None => (Throw "batches.create", w1, calls)
        | Some id =>
            let l := freshLoc (jobs w1) in
            let w2 := setJobs (jobs w1 ++ [l])
                        (setJobObjects (update (jobObjects w1) l (newJob id (toBatch w1))) w1) in
            let w3 := writeCache w2 in
            let w4 :=
              if wait then w3
              else print (Log (template (fun text => text)
                                 "Successfully batched a job with: {{0}} requests"
                                 [Scalar (Js.decimal (length (toBatch w3)))])) w3 in
            (Ret tt, clearToBatch w4, calls)
        end
    end
  else (Ret tt, clearToBatch w, []).

(** ** File names *)

(** [s.endsWith(suffix)] *)
Definition endsWith (s suffix : string) : bool :=
  (String.length suffix <=? String.length s)%nat
  && String.eqb (substring (String.length s - String.length suffix)
                   (String.length suffix) s) suffix.

(** [list.includes(s)] for a list of strings. *)
Definition includes (l : list string) (s : string) : bool :=
  existsb (String.eqb s) l.

(** [s.replace(/\.(mkv|mp4)$/, replacement)], for a replacement that holds
    no dollar sign. *)
Definition replaceVideoExt (s replacement : string) : string :=
  if endsWith s ".mkv" || endsWith s ".mp4"
  then substring 0 (String.length s - 4) s +:+ replacement
  else s.

(** [s.replaceAll(/([[\]])/g, '\\$1')] *)
Fixpoint escapeBrackets (s : string) : string :=
  match s with
  | EmptyString => EmptyString
  | String c r =>
      if Ascii.eqb c "[" || Ascii.eqb c "]"
      then String "\" (String c (escapeBrackets r))
      else String c (escapeBrackets r)
  end.

(** [path.split('/').pop()] *)
Definition baseName (path : string) : string :=
  default EmptyString (last (Js.split "/" path)).

(** The characters that [.] does not match: line feed and carriage return
    (the two other line terminators lie above the code units modelled). *)
Definition isLineEnd (c : ascii) : bool :=
  Ascii.eqb c newline || Ascii.eqb c (ascii_of_nat 13).

(** [/ \(\d{4}\)/] at the head of the text. *)
Definition yearAt (s : string) : bool :=
  match s with
  | String " " (String "(" (String a (String b (String c (String d (String ")" _)))))) =>
      Js.isDigit a && Js.isDigit b && Js.isDigit c && Js.isDigit d
  | _ => false
  end.

(** [/.* \(\d{4}\)/] tried at the head of the text: the length of the
    match. The star is greedy, so a match further to the right is preferred
    to the one that starts here. *)
Fixpoint yearMatch (s : string) : option nat :=
  match s with
  | EmptyString => None
  | String c r =>
      match (if isLineEnd c then None else yearMatch r) with
      | Some n => Some (S n)
      | None => if yearAt s then Some 7%nat else None
      end
  end.

(** [s.match(/.* \(\d{4}\)/)]: the match that starts leftmost, [match[0]]. *)
Fixpoint yearSearch (s : string) : option string :=
  match s with
  | EmptyString => None
  | String _ r =>
      match yearMatch s with
      | Some n => Some (substring 0 n s)
      | None => yearSearch r
      end
  end.

Definition mapFileName (fileName : string) : string :=
  match yearSearch fileName with
  | Some matched => matched
  | None => replaceVideoExt fileName EmptyString
  end.

(** The text that replaces the match in [s.replace(pattern, replacement)]
    when the pattern is a string: [$$] stands for a dollar sign, [$&] for
    the match, [$`] and [$'] for what precedes and follows it; any other
    dollar sign stands for itself. *)
Fixpoint substitution (matched before after replacement : string) : string :=
  match replacement with
  | EmptyString => EmptyString
  | String d tl =>
      if Ascii.eqb d "$" then
        match tl with
        | String c r =>
            if Ascii.eqb c "$" then String "$" (substitution matched before after r)
            else if Ascii.eqb c "&" then matched +:+ substitution matched before after r
            else if Ascii.eqb c "`" then before +:+ substitution matched before after r
            else if Ascii.eqb c "'" then after +:+ substitution matched before after r
            else String "$" (substitution matched before after tl)
        | EmptyString => String "$" EmptyString
        end
      else String d (substitution matched before after tl)
  end.

(** [s.replace(pattern, replacement)] for a pattern that is a string: the
    first occurrence is replaced. *)
Definition replaceFirst (s pattern replacement : string) : string :=
  match index 0 pattern s with
  | Some i =>
      let before := substring 0 i s in
      let after := substring (i + String.length pattern)
                     (String.length s - (i + String.length pattern)) s in
      before +:+ substitution pattern before after replacement +:+ after
  | None => s
  end.

(** [s.toLowerCase()] on the code units modelled. *)
Definition lowerChar (c : ascii) : ascii :=
  let n := nat_of_ascii c in
  if ((65 <=? n) && (n <=? 90) || (192 <=? n) && (n <=? 222) && negb (n =? 215))%nat
  then ascii_of_nat (n + 32)
  else c.

Fixpoint toLowerCase (s : string) : string :=
  match s with
  | EmptyString => EmptyString
  | String c r => String (lowerChar c) (toLowerCase r)
  end.

(** ** The entries of a subtitle file

    [content.matchAll(/(\d+\r?\n.* --> .*\r?\n)((?:.+\r?\n)+)/g)]: a run of
    digits closed by a line break, a line that holds an arrow, and one or
    more lines that are not empty, each closed by a line break. None of the
    greedy quantifiers can give back a character and still let the rest
    match, so that a match at a position is unique when there is one. *)

Module SrtFile.

(** The longest run of characters matched by [.] at the head of a text, and
    what follows it. *)
Fixpoint spanLine (s : string) : string * string :=
  match s with
  | EmptyString => (EmptyString, EmptyString)
  | String c r =>
      if isLineEnd c then (EmptyString, s)
      else let '(l, rest) := spanLine r in (String c l, rest)
  end.

(** [\r?\n] at the head of a text: what it matches and what follows. *)
Definition lineBreak (s : string) : option (string * string) :=
  match s with
  | String c r =>
      if Ascii.eqb c newline then Some (String c EmptyString, r)
      else if Ascii.eqb c (ascii_of_nat 13) then
        match r with
        | String c' r' =>
            if Ascii.eqb c' newline then Some (String c (String c' EmptyString), r')
            else None
        | EmptyString => None
        end
      else None
  | EmptyString => None
  end.

(** The line holds [ --> ]. *)
Fixpoint hasArrow (s : string) : bool :=
  match s with
  | EmptyString => false
  | String _ r => String.prefix " --> " s || hasArrow r
  end.

(** What [(?:.+\r?\n)+] matches at the head of a text; [cur] is the line
    being read. The match stops before a line that is empty, that is closed
    by a lone carriage return, or that the end of the text leaves open;
    nothing is matched when it stops before the first line. *)
Fixpoint bodyFrom (cur : string) (s : string) : string :=
  match s with
  | EmptyString => EmptyString
  | String c r =>
      if Ascii.eqb c newline then
        match cur with
        | EmptyString => EmptyString
        | _ => cur +:+ String c (bodyFrom EmptyString r)
        end
      else if Ascii.eqb c (ascii_of_nat 13) then
        match r with
        | String c' r' =>
            if Ascii.eqb c' newline then
              match cur with
              | EmptyString => EmptyString
              | _ => cur +:+ String c (String c' (bodyFrom EmptyString r'))
              end
            else EmptyString
        | EmptyString => EmptyString
        end
      else bodyFrom (cur +:+ String c EmptyString) r
  end.

(** The expression tried at the head of a text: [match[1]] and [match[2]]. *)
Definition entryAt (s : string) : option (string * string) :=
  match spanDigits s with
  | (EmptyString, _) => None
  | (digits, r1) =>
      match lineBreak r1 with
      | None => None
      | Some (nl1, r2) =>
          let '(timing, r3) := spanLine r2 in
          if hasArrow timing then
            match lineBreak r3 with
            | None => None
            | Some (nl2, r4) =>
                match bodyFrom EmptyString r4 with
                | EmptyString => None
                | body => Some (digits +:+ nl1 +:+ timing +:+ nl2, body)
                end
            end
          else None
      end
  end.

(** The matches from left to right; [skip] counts the characters of the
    last match still to pass over. *)
Fixpoint entriesFrom (skip : nat) (s : string) : list (string * string) :=
  match s with
  | EmptyString => []
  | String _ r =>
      match skip with
      | S k => entriesFrom k r
      | O =>
          match entryAt s with
          | Some (head, body) =>
              (head, body)
              :: entriesFrom (String.length head + String.length body - 1) r
          | None => entriesFrom 0 r
          end
      end
  end.

Definition entries (content : string) : list (string * string) :=
  entriesFrom 0 content.

End SrtFile.

(** ** Embedded subtitles: [ffmpegSubtitles] *)

(** A promise: resolved with a value, rejected, or never settled. The last
    case is that of an exception raised inside the callback given to
    [ffprobe], which nothing catches. *)
Inductive Settled (A : Type) :=
| Resolves (a : A)
| Rejects (message : string)
| Pending.

Arguments Resolves {A} a.
Arguments Rejects {A} message.
Arguments Pending {A}.

(** [stream.tags] as the probe reports it. *)
Inductive Tags :=
| NoTags
| NoLanguage
| Language (language : string).

(** A stream of [metadata.streams]; [forced] is the truthiness of
    [disposition.forced]. Codec name and disposition are present on every
    stream. *)
Record Stream := mkStream {
  streamIndex : Z;
  codec_type : string;
  codec_name : string;
  forced : bool;
  tags : Tags
}.

(** The object [ffmpegSubtitles] resolves with; an absent field is [None]. *)
Record Extraction := mkExtraction {
  file : option string;
  translated : option bool
}.

(** What lies on the disk and in the media files during one call: the
    result of [glob.sync], of [ffmpeg.ffprobe] (an error or the streams), of
    a run of [ffmpeg] on an input, a stream and an output ([None] for the
    event [end], an error for the event [error]), and of [fs.readFileSync]
    on a file that [glob] listed or [ffmpeg] has written. *)
Record Media := mkMedia {
  glob_sync : string -> list string;
  ffprobe : string -> string + list Stream;
  ffmpeg_run : string -> Z -> string -> option string;
  readFileSync : string -> string
}.

(** The objects stored in [executionCache]: [{actionRequired: false}] and
    [{matches, sub}]. *)
Inductive CacheEntry :=
| NoAction
| Parsed (matches : list loc) (sub : string).

(** [entry.actionRequired], as a condition: the field is [false] in the
    first shape and absent in the second. *)
Definition actionRequired (e : CacheEntry) : bool :=
  match e with
  | NoAction => false
  | Parsed _ _ => false
  end.

(** The state of the process around [translatePath]: the state of the
    translation functions, the module constant [executionCache], the number
    of segment objects created so far (they lie at the locations below it),
    the runs of [ffmpeg] (input, stream, output) and the files written by
    [ffmpegSubtitles] (name, content). *)
Record Session := mkSession {
  world : World;
  executionCache : gmap string CacheEntry;
  allocated : nat;
  extractions : list (string * Z * string);
  written : list (string * string)
}.

Definition onWorld (f : World -> World) (s : Session) : Session :=
  mkSession (f (world s)) (executionCache s) (allocated s) (extractions s) (written s).

Definition remember (path : string) (e : CacheEntry) (s : Session) : Session :=
  mkSession (world s) (<[path := e]> (executionCache s)) (allocated s)
    (extractions s) (written s).

Definition extract (input : string) (stream : Z) (output : string) (s : Session)
  : Session :=
  mkSession (world s) (executionCache s) (allocated s)
    (extractions s ++ [(input, stream, output)]) (written s).

Definition writeFile (name content : string) (s : Session) : Session :=
  mkSession (world s) (executionCache s) (allocated s) (extractions s)
    (written s ++ [(name, content)]).

Definition englishAlias : list string := ["en"; "eng"; "english"].

Definition textSubtitleFormats : list string :=
  ["srt"; "ass"; "webvtt"; "subrip"; "ttml"; "vtt"; "mov_text"].

(** [list.find(p)] and [list.filter(p)] for a test that may throw ([None]):
    the elements are tested in order, and the first exception ends the
    call. *)
Fixpoint findM {A : Type} (p : A -> option bool) (l : list A) : option (option A) :=
  match l with
  | [] => Some None
  | x :: rest =>
      match p x with
      | None => None
      | Some true => Some (Some x)
      | Some false => findM p rest
      end
  end.

Fixpoint filterM {A : Type} (p : A -> option bool) (l : list A) : option (list A) :=
  match l with
  | [] => Some []
  | x :: rest =>
      match p x with
      | None => None
      | Some keep =>
          match filterM p rest with
          | None => None
          | Some kept => Some (if keep then x :: kept else kept)
          end
      end
  end.

(** The test of line 248: a text subtitle stream that is not forced. *)
Definition eligible (st : Stream) : bool :=
  String.eqb (codec_type st) "subtitle"
  && includes textSubtitleFormats (toLowerCase (codec_name st))
  && negb (forced st).

(** [englishAlias.includes(s.tags.language.toLowerCase())] *)
Definition isEnglish (st : Stream) : option bool :=
  match tags st with
  | Language l => Some (includes englishAlias (toLowerCase l))
  | _ => None
  end.

(** [TARGET_LANGUAGE_ALIAS.includes(stream.tags.language)] *)
Definition isTarget (cfg : Config) (st : Stream) : option bool :=
  match tags st with
  | NoTags => None
  | NoLanguage => Some false
  | Language l => Some (includes (TARGET_LANGUAGE_ALIAS cfg) l)
  end.

(** The test of line 287. *)
Definition isEnglishSubtitle (st : Stream) : option bool :=
  if String.eqb (codec_type st) "subtitle" then isEnglish st else Some false.

(** [`.${TARGET_LANGUAGE_ALIAS[0]}.srt`] *)
Definition targetSuffix (cfg : Config) : string :=
  "." +:+ default "undefined" (head (TARGET_LANGUAGE_ALIAS cfg)) +:+ ".srt".

(** The text built from the extracted translation (lines 271 to 275). *)
Definition cleanTranslated (content : string) : string :=
  String.concat EmptyString
    (map (fun '(head, body) =>
            let text := Js.join " " (map Js.trim (Srt.betweenTags body)) in
            let text := match text with EmptyString => Js.trim body | _ => text end in
            head +:+ Srt.removeBraces (Srt.newlinesToSpaces text)
            +:+ String newline (String newline EmptyString))
         (SrtFile.entries content)).

Definition ffmpegSubtitles (cfg : Config) (media : Media) (inputVideo : string)
    (s : Session) : Settled Extraction * Session :=
  match ffprobe media inputVideo with
  | inl err => (Rejects err, s)
  | inr streams =>
      let fileName := mapFileName (baseName inputVideo) in
      match List.filter eligible streams with
      | [] => (Resolves (mkExtraction None None), s)
      | subtitleStreams =>
          match findM isEnglish subtitleStreams with
          | None => (Pending, s)
          | Some englishSub =>
              match findM (isTarget cfg) subtitleStreams with
              | None => (Pending, s)
              | Some (Some translation) =>
                  let outputFile := replaceVideoExt inputVideo ".en.srt" in
                  let s1 := onWorld (print (Log ("Extracting embedded subtitles for target language: "
                                                 +:+ fileName))) s in
                  let translatedOutput := replaceFirst outputFile ".en.srt" (targetSuffix cfg) in
                  let s2 := extract inputVideo (streamIndex translation) translatedOutput s1 in
                  match ffmpeg_run media inputVideo (streamIndex translation) translatedOutput with
                  | Some err => (Pending, s2)
                  | None =>
                      (Resolves (mkExtraction None (Some true)),
                       writeFile outputFile
                         (cleanTranslated (readFileSync media translatedOutput)) s2)
                  end
              | Some None =>
                  let outputFile := replaceVideoExt inputVideo ".en.srt" in
                  match englishSub with
                  | None =>
                      match filterM isEnglishSubtitle streams with
                      | None => (Pending, s)
                      | Some englishSubs =>
                          let s1 := onWorld (print (Error "No english subtitles found: {{0}}"
                                                      [ArgStr fileName])) s in
                          let s2 :=
                            if (0 <? length englishSubs)%nat
                            then onWorld (print (Log "Found subs but in incorrect format or strict undefined")) s1
                            else s1 in
                          (Resolves (mkExtraction None (Some false)), s2)
                      end
                  | Some english =>
                      let s1 := onWorld (print (Log ("Extracting embedded subs for translation: "
                                                     +:+ fileName))) s in
                      let s2 := extract inputVideo (streamIndex english) outputFile s1 in
                      match ffmpeg_run media inputVideo (streamIndex english) outputFile with
                      | Some err => (Rejects err, s2)
                      | None => (Resolves (mkExtraction (Some outputFile) (Some false)), s2)
                      end
                  end
              end
          end
      end
  end.

(** ** [translatePath] *)

(** The flag [--ignore-existing-translation] and the variable
    [TARGET_LANGUAGE]. *)
Record Options := mkOptions {
  ignore_existing_translation : bool;
  TARGET_LANGUAGE : string
}.

(** The loop over [existingFiles] (lines 335 to 342): some file carries the
    suffix of a translation and the flag is not given. *)
Definition existingTranslation (cfg : Config) (opts : Options) (existingFiles : list string)
  : bool :=
  existsb (fun existingFile =>
             negb (ignore_existing_translation opts)
             && (existsb (fun l => endsWith existingFile ("." +:+ l +:+ ".srt"))
                         (TARGET_LANGUAGE_ALIAS cfg)
                 || endsWith existingFile ("." +:+ TARGET_LANGUAGE opts +:+ ".srt")))
          existingFiles.

(** The segment objects of [segs] stored from the location [l] on. *)
Fixpoint storeSegments (l : loc) (segs : list Segment) (heap : loc -> Segment)
  : loc -> Segment :=
  match segs with
  | [] => heap
  | seg :: rest => storeSegments (S l) rest (update heap l seg)
  end.

(** The loop of lines 368 to 379: one new segment object per match, and the
    array [matches] of these objects. *)
Definition pushMatches (content : string) (s : Session) : list loc * Session :=
  let segs := map (fun '(head, body) => Srt.segmentOfMatch head body)
                  (SrtFile.entries content) in
  (seq (allocated s) (length segs),
   mkSession (setSegments (storeSegments (allocated s) segs (segments (world s))) (world s))
     (executionCache s) (allocated s + length segs) (extractions s) (written s)).

(** Lines 385 to 406 on the session. *)
Definition translateMatches (cfg : Config) (env : Env) (fileName subtitlePath : string)
    (matches : list loc) (s : Session) : Settled (option bool) * Session :=
  let '(r, w) := translatePathTail cfg env fileName subtitlePath matches (world s) in
  (Resolves r, onWorld (fun _ => w) s).

(** Lines 367 to 406: the subtitle file is read, its entries become
    segments, the cache remembers them, and they are translated. *)
Definition readAndTranslate (cfg : Config) (env : Env) (media : Media)
    (path fileName subtitlePath : string) (s : Session) : Settled (option bool) * Session :=
  let '(matches, s1) := pushMatches (readFileSync media subtitlePath) s in
  translateMatches cfg env fileName subtitlePath matches
    (remember path (Parsed matches subtitlePath) s1).

Definition translatePath (cfg : Config) (opts : Options) (env : Env) (media : Media)
    (path : string) (index total : nat) (s : Session) : Settled (option bool) * Session :=
  let fileName := mapFileName (baseName path) in
  let existingFiles := glob_sync media (escapeBrackets (replaceVideoExt path "*.srt")) in
  if existingTranslation cfg opts existingFiles then
    (Resolves None,
     if debug cfg
     then onWorld (print (Error "Skipping, existing translation: {{0}}" [ArgStr fileName])) s
     else s)
  else
    let s0 :=
      if batch cfg then s
      else onWorld (print (Log ("[" +:+ Js.decimal index +:+ "/" +:+ Js.decimal total
                                +:+ "] Started translation of: " +:+ fileName))) s in
    match executionCache s0 !! path with
    | Some entry =>
        if negb (actionRequired entry) then (Resolves None, s0)
        else
          match entry with
          | Parsed matches sub => translateMatches cfg env fileName sub matches s0
          | NoAction => (Rejects "TypeError", s0)
          end
    | None =>
        match List.find (fun f => endsWith f ".en.srt") existingFiles with
        | Some subtitlePath => readAndTranslate cfg env media path fileName subtitlePath s0
        | None =>
            match ffmpegSubtitles cfg media path s0 with
            | (Resolves result, s1) =>
                if default false (translated result) then
                  (Resolves None, remember path NoAction s1)
                else
                  match file result with
                  | Some (String c r) =>
                      readAndTranslate cfg env media path fileName (String c r) s1
                  | _ =>
                      (Resolves None,
                       remember path NoAction
                         (onWorld (print (Error "Skipping: {{0}}, no subtitles found"
                                            [ArgStr fileName])) s1))
                  end
            | (Rejects err, s1) => (Rejects err, s1)
            | (Pending, s1) => (Pending, s1)
            end
        end
    end.

(** ** Vocabulary of the further properties *)

(** The text holds no line feed. *)
Fixpoint lineFree (s : string) : bool :=
  match s with
  | EmptyString => true
  | String c r => negb (Ascii.eqb c newline) && lineFree r
  end.

(** ** The fragments of an answer, line by line

    What [translate] makes of one line of an answer, said without the
    functions that compute it: the white space around the line is taken
    off, and then an ordinal marker at its head, one or more digits, a dot
    and a blank. *)

(** Every code unit of the text is white space. *)
Fixpoint blank (s : string) : bool :=
  match s with
  | EmptyString => true
  | String c r => Js.isWhiteSpace c && blank r
  end.

(** The last code unit of a text. *)
Fixpoint lastChar (s : string) : option ascii :=
  match s with
  | EmptyString => None
  | String c r =>
      match r with
      | EmptyString => Some c
      | _ => lastChar r
      end
  end.

(** The text neither starts nor ends with white space. *)
Definition bare (s : string) : bool :=
  match s with
  | EmptyString => true
  | String c _ =>
      negb (Js.isWhiteSpace c)
      && match lastChar s with
         | Some d => negb (Js.isWhiteSpace d)
         | None => true
         end
  end.

(** [core] is [line] without the white space around it. *)
Definition trimmedTo (line core : string) : Prop :=
  exists before after,
    line = before +:+ core +:+ after
    /\ blank before = true /\ blank after = true /\ bare core = true.

(** [core] starts with an ordinal marker, and [rest] is what follows it. *)
Definition marked (core rest : string) : Prop :=
  exists digits,
    digits <> EmptyString
    /\ forallb Js.isDigit (list_ascii_of_string digits) = true
    /\ core = digits +:+ ". " +:+ rest.

(** [fragment] is what is kept of [line]: the line without the white space
    around it and then without its marker, when it has one. *)
Definition fragmentOf (line fragment : string) : Prop :=
  exists core,
    trimmedTo line core
    /\ (marked core fragment \/ (fragment = core /\ forall rest, ~ marked core rest)).

(** The text holds none of the characters that the cleaning of a subtitle
    entry acts upon. *)
Fixpoint plainText (s : string) : bool :=
  match s with
  | EmptyString => true
  | String c r =>
      negb (Ascii.eqb c newline) && negb (Ascii.eqb c "<") && negb (Ascii.eqb c ">")
      && negb (Ascii.eqb c "{") && plainText r
  end.

(** The remote side reports the batch [id] as failed, or as completed
    without a results file. *)
Definition lostAt (remote : Remote) (id : string) : Prop :=
  exists b,
    retrieve remote id = Some b
    /\ (status b = "failed" \/ (status b = "completed" /\ output_file_id b = None)).

(** The remote side reports the batch [id] in a state that is neither
    completed nor failed. *)
Definition runningAt (remote : Remote) (id : string) : Prop :=
  exists b,
    retrieve remote id = Some b /\ status b <> "completed" /\ status b <> "failed".

(** No character of the text ends a line. *)
Fixpoint oneLine (s : string) : bool :=
  match s with
  | EmptyString => true
  | String c r => negb (isLineEnd c) && oneLine r
  end.

(** The two line breaks of subtitle files. *)
Definition LF : string := String newline EmptyString.
Definition CRLF : string := String (ascii_of_nat 13) (String newline EmptyString).

(** An entry as a subtitle file lays it out: the ordinal, the timing line,
    the lines of text. It is well formed when the ordinal is a number, the
    timing is a line with an arrow, and there is at least one line of text,
    none of them empty. *)
Record Block := mkBlock {
  ordinal : string;
  timing : string;
  textLines : list string
}.

Definition isTextLine (l : string) : bool :=
  negb (String.eqb l EmptyString) && oneLine l.

Definition wellFormed (b : Block) : bool :=
  negb (String.eqb (ordinal b) EmptyString)
  && forallb Js.isDigit (list_ascii_of_string (ordinal b))
  && oneLine (timing b) && SrtFile.hasArrow (timing b)
  && negb (length (textLines b) =? 0)%nat && forallb isTextLine (textLines b).

Definition blockHead (nl : string) (b : Block) : string :=
  ordinal b +:+ nl +:+ timing b +:+ nl.

Definition blockBody (nl : string) (b : Block) : string :=
  foldr (fun l rest => l +:+ nl +:+ rest) EmptyString (textLines b).

(** The text of a file: each entry is followed by an empty line. *)
Definition srtText (nl : string) (bs : list Block) : string :=
  foldr (fun b rest => blockHead nl b +:+ blockBody nl b +:+ nl +:+ rest) EmptyString bs.

(** The lines of [events] printed one after the other. *)
Definition printAll (events : list ConsoleEvent) (w : World) : World :=
  foldl (fun w e => print e w) w events.

(** The pattern given to [glob.sync] for a media file. *)
Definition subtitlePattern (path : string) : string :=
  escapeBrackets (replaceVideoExt path "*.srt").

(** The text holds no opening brace. *)
Fixpoint braceFree (s : string) : bool :=
  match s with
  | EmptyString => true
  | String c r => negb (Ascii.eqb c "{") && braceFree r
  end.

(** What [parseTranslation] reads back from the line that [groupText] makes
    of a content: the content without its trailing blanks, or, when nothing
    is left of it, the marker without its blank. *)
Definition echoed (i : nat) (c : string) : string :=
  match Js.trimEnd c with
  | EmptyString => Js.decimal (S i) +:+ "."
  | kept => kept
  end.

Fixpoint echoes (i : nat) (l : list string) : list string :=
  match l with
  | [] => []
  | c :: rest => echoed i c :: echoes (S i) rest
  end.

(** A model that answers every request with the request itself. *)
Definition echoing (env : Env) : Prop :=
  forall n text, chat env n text = ChatChoice "stop" (Some text).

(** What translating [group] does to the segments under such a model: each
    segment of the group receives what is read back from its line, and
    nothing else changes. *)
Definition echoedInto (group : list loc) (w w' : World) : Prop :=
  (forall m, header (segments w' m) = header (segments w m)
             /\ content (segments w' m) = content (segments w m))
  /\ (forall m, m ∉ group -> segments w' m = segments w m)
  /\ (forall m, m ∈ group ->
        exists k, translatedContent (segments w' m)
                  = Some (echoed k (content (segments w m))))
  /\ subtitleFiles w' = subtitleFiles w.

(** The character [c] does not occur in the text. *)
Fixpoint without (c : ascii) (s : string) : bool :=
  match s with
  | EmptyString => true
  | String x r => negb (Ascii.eqb x c) && without c r
  end.

(** ** Sample data

    Concrete segments, states, configurations and remote sides on which the
    properties below are exercised. *)

Module Samples.

Definition line : string := String newline EmptyString.

(** A tokenizer for the samples: one token per code unit. *)
Definition unitTokens (text : string) : nat := String.length text.

Definition three : Segment := mkSegment "1" "abc" None.
Definition five : Segment := mkSegment "2" "abcde" None.
Definition eight : Segment := mkSegment "3" "abcdefgh" None.

(** Three subtitles, at the locations 0, 1 and 2. *)
Definition subtitles (l : loc) : Segment :=
  match l with
  | 0%nat =>
      mkSegment ("1" +:+ line +:+ "00:00:01,000 --> 00:00:02,000" +:+ line) "Hello." None
  | 1%nat =>
      mkSegment ("2" +:+ line +:+ "00:00:03,000 --> 00:00:04,000" +:+ line) "How are you?" None
  | _ =>
      mkSegment ("3" +:+ line +:+ "00:00:05,000 --> 00:00:06,000" +:+ line) "Goodbye." None
  end.

Definition helloText : string :=
  "1. Hello." +:+ line +:+ "2. How are you?" +:+ line +:+ "3. Goodbye.".

(** Answers of the model: complete, with two lines merged, with a blank
    second line. *)
Definition threeLines : string :=
  "1. Hola." +:+ line +:+ "2. Que tal?" +:+ line +:+ "3. Adios." +:+ line.
Definition twoLines : string :=
  "1. Hola. Que tal?" +:+ line +:+ "2. Adios." +:+ line.
Definition blankLine : string :=
  "1. Hola." +:+ line +:+ line +:+ "3. Adios.".

(** A job of two requests that has been submitted and not downloaded yet,
    at the location 0. *)
Definition submitted (l : loc) : Job :=
  mkJob "batch_1"
    [mkRequest helloText "batch_1" None; mkRequest "1. Bye." "batch_1" None] false.

(** The same job once downloaded, the model having merged two lines of the
    first request. *)
Definition downloaded (l : loc) : Job :=
  mkJob "batch_1"
    [mkRequest helloText "batch_1" (Some twoLines);
     mkRequest "1. Bye." "batch_1" (Some "1. Adios.")] true.

(** A process that has just started, with nothing queued or stored. *)
Definition fresh : World :=
  mkWorld subtitles submitted [] [] [] [] [] 0 None None [].

(** The same process with the submitted job in its store. *)
Definition stored : World :=
  mkWorld subtitles submitted [0%nat] [] [] [] [] 0 None None [].

(** The same process after the job has been downloaded. *)
Definition resolved : World :=
  mkWorld subtitles downloaded [0%nat] [] [] [] [] 0 None None [].

Definition sync : Config := mkConfig 100 1 false false false "PROMPT" ["es"].
Definition patient : Config := mkConfig 100 5 false false false "PROMPT" ["es"].
Definition batched : Config := mkConfig 100 1 true false false "PROMPT" ["es"].

(** A model that always gives the same complete answer. *)
Definition answering (text : string) : Env :=
  mkEnv (fun _ _ => ChatChoice "stop" (Some text)) (fun k => 100 + Z.of_nat k) unitTokens.


(** A remote side on which every batch is completed, with the results file
    [file_1] of two records. *)
Definition completed : Remote :=
  mkRemote (fun _ => Some (mkBatch "completed" (Some "file_1") None))
           (fun _ => Some [Answer (Some threeLines); Answer (Some "1. Adios.")])
           (fun _ => None).

End Samples.

(** Sample data of the submission and of the poll cycles. *)
Module BatchSamples.

Import Samples.

(** A process in batch mode with two requests waiting to be submitted. *)
Definition queued : World :=
  mkWorld subtitles submitted []
    [mkBatchEntry 100 helloText; mkBatchEntry 101 "1. Bye."] [] [] [] 2 None None [].

(** A remote side that takes every upload and every batch, and one that
    takes none. *)
Definition accepting : Uploader :=
  mkUploader (fun _ => Some "file_in") (fun _ => Some "batch_1").
Definition refusing : Uploader :=
  mkUploader (fun _ => None) (fun _ => None).

(** A remote side on which every batch has failed, and one on which every
    batch is still running. *)
Definition failing : Remote :=
  mkRemote (fun _ => Some (mkBatch "failed" None None)) (fun _ => None) (fun _ => None).
Definition running : Remote :=
  mkRemote (fun _ => Some (mkBatch "in_progress" None None)) (fun _ => None) (fun _ => None).

(** The process once the two requests have been submitted to the accepting
    side, and once the completed batch has been downloaded from it. *)
Definition sent : World :=
  Eval vm_compute in snd (fst (batchTranslations accepting false queued)).
Definition polled : World :=
  Eval vm_compute in snd (checkBatchStatus completed sent).

End BatchSamples.

(** Sample data of calls and jobs that share the store. *)
Module RaceSamples.

Import Samples.

(** The request for a group made of one subtitle that reads [Goodbye.],
    and an answer to it with one line too many. *)
Definition farewell : string := "1. Goodbye.".



(** Two submitted jobs, at the locations 0 and 1, in the store and in its
    file. *)
Definition twoJobs (l : loc) : Job :=
  match l with
  | 0%nat => submitted l
  | _ => mkJob "batch_2" [mkRequest farewell "batch_2" None] false
  end.
Definition storedTwice : World :=
  mkWorld subtitles twoJobs [0%nat; 1%nat] [] [] [] [] 0
    (Some [twoJobs 0%nat; twoJobs 1%nat]) None [].

(** A remote side on which the batch [batch_1] is completed, with the
    results file [file_1] of two records, and which rejects the request for
    any other batch. *)
Definition halfway : Remote :=
  mkRemote (fun id => if String.eqb id "batch_1"
                      then Some (mkBatch "completed" (Some "file_1") None)
                      else None)
           (fun _ => Some [Answer (Some threeLines); Answer (Some "1. Adios.")])
           (fun _ => None).

End RaceSamples.

(** Sample data of [translatePath] and [ffmpegSubtitles]. *)
Module PathSamples.

Import Samples.

Definition movie : string := "/films/Movie (1999) 1080p.mkv".
Definition movieSub : string := "/films/Movie (1999) 1080p.en.srt".

(** The entries of the subtitle file that lies beside the film. *)
Definition twoBlocks : list Block :=
  [mkBlock "1" "00:00:01,000 --> 00:00:02,000" ["Hello."];
   mkBlock "2" "00:00:03,000 --> 00:00:04,000" ["How are you?"; "<i>Fine.</i>"]].

(** A disk on which the film has its English subtitle file. *)
Definition shelf : Media :=
  mkMedia (fun _ => [movieSub]) (fun _ => inl "not probed") (fun _ _ _ => None)
          (fun _ => srtText LF twoBlocks).

(** Streams of a film without subtitle files: a French and an English text
    subtitle, or a subtitle without tags before the English one. *)
Definition video : Stream := mkStream 0 "video" "h264" false NoTags.
Definition french : Stream := mkStream 2 "subtitle" "ass" false (Language "fre").
Definition english : Stream := mkStream 3 "subtitle" "subrip" false (Language "ENG").
Definition untagged : Stream := mkStream 2 "subtitle" "subrip" false NoTags.

Definition embedded : Media :=
  mkMedia (fun _ => []) (fun _ => inr [video; french; english]) (fun _ _ _ => None)
          (fun _ => EmptyString).
Definition embeddedUntagged : Media :=
  mkMedia (fun _ => []) (fun _ => inr [video; untagged; english]) (fun _ _ _ => None)
          (fun _ => EmptyString).

(** A model that repeats each request. *)
Definition echo : Env :=
  mkEnv (fun _ text => ChatChoice "stop" (Some text)) (fun k => 100 + Z.of_nat k)
        unitTokens.

Definition options : Options := mkOptions false "spanish".

(** A process that has not seen any media file yet, and the same process
    after [translatePath] on the film of the shelf. *)
Definition start : Session := mkSession fresh ∅ 0 [] [].
Definition visited : Session :=
  Eval vm_compute in snd (translatePath sync options echo shelf movie 1 1 start).

(** The process after [ffmpegSubtitles] on the film with embedded streams. *)
Definition extracted : Session :=
  Eval vm_compute in snd (ffmpegSubtitles sync embedded movie start).

(** A disk on which the subtitle file of the film holds no entry. *)
Definition emptyShelf : Media :=
  mkMedia (fun _ => [movieSub]) (fun _ => inl "not probed") (fun _ _ _ => None)
          (fun _ => "No subtitles.").


(** A disk on which the film already has its Spanish subtitle file, and a
    film without subtitle files or subtitle streams. *)
Definition translatedShelf : Media :=
  mkMedia (fun _ => [movieSub; "/films/Movie (1999) 1080p.es.srt"])
          (fun _ => inl "not probed") (fun _ _ _ => None) (fun _ => srtText LF twoBlocks).

End PathSamples.

(** * Properties *)

(** ** The grouper *)

Section GrouperFacts.

Context {A : Type}.
Variable contentOf : A -> string.
Variable numTokens : string -> nat.

Abbreviation step := (groupStep contentOf numTokens).
Abbreviation loop := (groupLoop contentOf numTokens).
Abbreviation cost s := (Z.of_nat (numTokens (contentOf s))).
Abbreviation tsum := (tokenSum contentOf numTokens).

Lemma groupLoop_cons budget st s l :
  loop budget st (s :: l) = loop budget (step budget st s) l.
Proof. reflexivity. Qed.

Lemma flushGroup_concat (st : GroupState (A:=A)) :
  concat (flushGroup st) = concat (groups st) ++ currentGroup st.
Proof.
  unfold flushGroup. destruct (currentGroup st) as [|x cur] eqn:E; simpl.
  - now rewrite app_nil_r.
  - rewrite concat_app. simpl. now rewrite app_nil_r.
Qed.

(** What has been closed, then the open group, then the segments still to
    come: each iteration keeps this sequence. *)
Lemma groupLoop_concat budget segments : forall st,
  concat (groups (loop budget st segments)) ++ currentGroup (loop budget st segments)
  = concat (groups st) ++ currentGroup st ++ segments.
Proof.
  induction segments as [|s l IH]; intros st.
  - simpl. now rewrite app_nil_r.
  - rewrite groupLoop_cons, IH. unfold groupStep.
    destruct (_ <=? _); simpl.
    + now rewrite <- app_assoc.
    + rewrite concat_app. simpl. now rewrite app_nil_r, <- app_assoc.
Qed.

(** C1: the groups, concatenated in order, are the input sequence. *)
Theorem groupSegments_concat (segments : list A) (budget : Z) :
  concat (groupSegmentsByTokenLength contentOf numTokens segments budget) = segments.
Proof.
  unfold groupSegmentsByTokenLength.
  rewrite flushGroup_concat, groupLoop_concat. reflexivity.
Qed.

(** The running cost never goes below zero. *)
Lemma groupStep_count_nonneg budget st s :
  0 <= currentGroupTokenCount st -> 0 <= currentGroupTokenCount (step budget st s).
Proof. unfold groupStep. destruct (_ <=? _); simpl; lia. Qed.

(** The groups closed so far stay in front of whatever is produced from a
    state, and what follows them holds the open group and the rest of the
    input. *)
Lemma flush_groupLoop_extends budget l : forall st,
  exists gs, flushGroup (loop budget st l) = groups st ++ gs
             /\ concat gs = currentGroup st ++ l.
Proof.
  induction l as [|s l IH]; intros st.
  - simpl. unfold flushGroup.
    destruct (currentGroup st) as [|x cur] eqn:E; simpl.
    + exists []. now rewrite app_nil_r.
    + exists [x :: cur]. simpl. now rewrite !app_nil_r.
  - rewrite groupLoop_cons. destruct (IH (step budget st s)) as (gs & Hgs & Hc).
    revert Hgs Hc. unfold groupStep. destruct (_ <=? _); simpl; intros Hgs Hc.
    + exists gs. split; [exact Hgs|]. now rewrite Hc, <- app_assoc.
    + exists (currentGroup st :: gs). split.
      * now rewrite Hgs, <- app_assoc.
      * simpl. now rewrite Hc.
Qed.

(** Once the open group is a single segment that costs more than the
    budget, that group is closed as it is. *)
Lemma oversized_open_group budget s post st :
  currentGroup st = [s] ->
  budget < currentGroupTokenCount st ->
  exists gs, flushGroup (loop budget st post) = groups st ++ [s] :: gs
             /\ concat gs = post.
Proof.
  intros Hcur Hbig. destruct post as [|x post].
  - simpl. unfold flushGroup. rewrite Hcur. simpl. exists []. split; reflexivity.
  - rewrite groupLoop_cons.
    destruct (flush_groupLoop_extends budget post (step budget st x)) as (gs & Hgs & Hc).
    revert Hgs Hc. unfold groupStep.
    destruct (Z.leb_spec (currentGroupTokenCount st + cost x) budget) as [Hle|Hgt];
      [lia|].
    simpl. rewrite Hcur. intros Hgs Hc. exists gs. split.
    + now rewrite Hgs, <- app_assoc.
    + exact Hc.
Qed.

Lemma groupLoop_count_nonneg budget l : forall st,
  0 <= currentGroupTokenCount st -> 0 <= currentGroupTokenCount (loop budget st l).
Proof.
  induction l as [|s l IH]; intros st H; [exact H|].
  rewrite groupLoop_cons. apply IH, groupStep_count_nonneg, H.
Qed.

Lemma groupLoop_app budget l1 l2 st :
  loop budget st (l1 ++ l2) = loop budget (loop budget st l1) l2.
Proof. unfold groupLoop. apply fold_left_app. Qed.

(** X1: a segment that alone costs more than the budget is a group of its
    own, between the groups of what precedes it and the groups of what
    follows it: it is neither dropped nor split. *)
Lemma oversized_segment_alone pre s post budget :
  budget < cost s ->
  exists before after,
    groupSegmentsByTokenLength contentOf numTokens (pre ++ s :: post) budget
    = before ++ [s] :: after
    /\ concat before = pre /\ concat after = post.
Proof.
  intros Hbig. unfold groupSegmentsByTokenLength.
  set (init := {| groups := []; currentGroup := []; currentGroupTokenCount := 0 |}).
  rewrite groupLoop_app, groupLoop_cons.
  set (st1 := loop budget init pre).
  assert (Hnn : 0 <= currentGroupTokenCount st1)
    by (apply groupLoop_count_nonneg; simpl; lia).
  assert (Hpre : concat (groups st1) ++ currentGroup st1 = pre)
    by (unfold st1; rewrite groupLoop_concat; reflexivity).
  destruct (oversized_open_group budget s post (step budget st1 s)) as (gs & Hgs & Hc).
  - unfold groupStep.
    destruct (Z.leb_spec (currentGroupTokenCount st1 + cost s) budget); [lia|reflexivity].
  - unfold groupStep.
    destruct (Z.leb_spec (currentGroupTokenCount st1 + cost s) budget); [lia|simpl; lia].
  - exists (groups st1 ++ [currentGroup st1]), gs. split; [|split].
    + rewrite Hgs. unfold groupStep.
      destruct (Z.leb_spec (currentGroupTokenCount st1 + cost s) budget); [lia|reflexivity].
    + rewrite concat_app. simpl. now rewrite app_nil_r.
    + exact Hc.
Qed.

(** Only the first group can be empty: every group after the first holds
    a segment. *)
Lemma groupLoop_later_groups_nonempty budget l : forall st,
  Forall (fun g => g <> []) (tail (groups st)) ->
  (groups st <> [] -> currentGroup st <> []) ->
  Forall (fun g => g <> []) (tail (groups (loop budget st l)))
  /\ (groups (loop budget st l) <> [] -> currentGroup (loop budget st l) <> []).
Proof.
  induction l as [|s l IH]; intros st Ht Hc; [split; assumption|].
  rewrite groupLoop_cons. apply IH; unfold groupStep; destruct (_ <=? _); simpl.
  - exact Ht.
  - destruct (groups st) as [|g gs] eqn:E; simpl; [constructor|].
    simpl in Ht. apply Forall_app. split; [exact Ht|].
    constructor; [|constructor]. apply Hc. discriminate.
  - intros _. now destruct (currentGroup st).
  - intros _. discriminate.
Qed.

Lemma later_groups_nonempty (segments : list A) (budget : Z) :
  Forall (fun g => g <> [])
    (tail (groupSegmentsByTokenLength contentOf numTokens segments budget)).
Proof.
  unfold groupSegmentsByTokenLength.
  set (init := {| groups := []; currentGroup := []; currentGroupTokenCount := 0 |}).
  destruct (groupLoop_later_groups_nonempty budget segments init) as [Ht Hc];
    [constructor | intros H; now elim H |].
  fold init. set (st := loop budget init segments) in *.
  unfold flushGroup. destruct (currentGroup st) as [|x cur] eqn:E; simpl; [exact Ht|].
  destruct (groups st) as [|g gs]; simpl; [constructor|].
  simpl in Ht. apply Forall_app. split; [exact Ht|].
  constructor; [discriminate|constructor].
Qed.

Lemma tokenSum_snoc (g : list A) (s : A) : tsum (g ++ [s]) = tsum g + cost s.
Proof.
  induction g as [|x g IH]; simpl; [lia|].
  fold (tsum (g ++ [s])). rewrite IH. unfold tokenSum. lia.
Qed.

Lemma groupStep_costInvariant budget st s :
  costInvariant contentOf numTokens budget st ->
  costInvariant contentOf numTokens budget (step budget st s).
Proof.
  intros (H1 & H2 & H3 & H4). unfold groupStep.
  destruct (Z.leb_spec (currentGroupTokenCount st + cost s) budget) as [Hle|Hgt];
    unfold costInvariant; simpl.
  - rewrite tokenSum_snoc. repeat split.
    + exact H1.
    + left. lia.
    + lia.
    + destruct (groups st); [|exact H4]. destruct H4 as [Hc Hi].
      unfold costPerSegment, costInterSegment in *.
      rewrite tokenSum_snoc, length_app. simpl.
      replace (length (currentGroup st) + 1)%nat with (S (length (currentGroup st))) by lia.
      simpl Nat.pred. split; lia.
  - repeat split.
    + apply Forall_app. split; [exact H1|]. constructor; [exact H2|constructor].
    + right. reflexivity.
    + lia.
    + destruct (groups st); simpl; [apply H4|exact H4].
Qed.

Lemma groupLoop_costInvariant budget l : forall st,
  costInvariant contentOf numTokens budget st ->
  costInvariant contentOf numTokens budget (loop budget st l).
Proof.
  induction l as [|s l IH]; intros st H; [exact H|].
  rewrite groupLoop_cons. apply IH, groupStep_costInvariant, H.
Qed.

(** C3, as the code has it: for a budget that is not negative, a group of
    two or more segments holds at most [budget] tokens, and the first group
    satisfies the bound with the delimiter charged between neighbours. *)
Theorem group_cost_bound (segments : list A) (budget : Z) :
  0 <= budget ->
  Forall (fun g => tsum g <= budget \/ length g = 1%nat)
    (groupSegmentsByTokenLength contentOf numTokens segments budget)
  /\ (forall g, head (groupSegmentsByTokenLength contentOf numTokens segments budget) = Some g ->
                costInterSegment contentOf numTokens g <= budget).
Proof.
  intros Hb. unfold groupSegmentsByTokenLength.
  set (init := {| groups := []; currentGroup := []; currentGroupTokenCount := 0 |}).
  assert (Hinit : costInvariant contentOf numTokens budget init).
  { unfold costInvariant, costPerSegment, costInterSegment. simpl.
    repeat split; try lia. constructor. }
  destruct (groupLoop_costInvariant budget segments init Hinit) as (H1 & H2 & H3 & H4).
  set (st := loop budget init segments) in *.
  unfold flushGroup. destruct (0 <? length (currentGroup st))%nat; split.
  - apply Forall_app. split; [exact H1|]. constructor; [exact H2|constructor].
  - intros g. destruct (groups st); simpl; intros [= <-]; [apply H4|exact H4].
  - exact H1.
  - intros g. destruct (groups st); simpl; [discriminate|]. intros [= <-]. exact H4.
Qed.

End GrouperFacts.

(** ** The parse of an answer *)

Section ParseFacts.

Lemma append_assoc (a b c : string) : a +:+ (b +:+ c) = (a +:+ b) +:+ c.
Proof.
  induction a as [|x a IH]; [done|].
  change (String x (a +:+ (b +:+ c)) = String x ((a +:+ b) +:+ c)). now f_equal.
Qed.

Lemma append_nil_r (a : string) : a +:+ EmptyString = a.
Proof.
  induction a as [|x a IH]; [done|].
  change (String x (a +:+ EmptyString) = String x a). now f_equal.
Qed.

Lemma append_cons c a b : String c a +:+ b = String c (a +:+ b).
Proof. reflexivity. Qed.

Lemma append_nil_l b : EmptyString +:+ b = b.
Proof. reflexivity. Qed.

(** *** Lines *)



(** *** White space *)


Lemma lastChar_cons c r :
  lastChar (String c r) = match r with EmptyString => Some c | _ => lastChar r end.
Proof. reflexivity. Qed.

Lemma trimEnd_cons c r :
  Js.trimEnd (String c r)
  = match Js.trimEnd r with
    | EmptyString => if Js.isWhiteSpace c then EmptyString else String c EmptyString
    | r' => String c r'
    end.
Proof. reflexivity. Qed.




(** *** Markers *)

Lemma dropDigits_stop d x t :
  forallb Js.isDigit (list_ascii_of_string d) = true ->
  Js.isDigit x = false ->
  Js.dropDigits (d +:+ String x t) = String x t.
Proof.
  intros Hd Hx. induction d as [|c d IH]; simpl; [now rewrite Hx|].
  simpl in Hd. apply andb_true_iff in Hd as [Hc Hd]. now rewrite Hc, IH.
Qed.

Lemma dropDigits_spec s :
  exists d,
    s = d +:+ Js.dropDigits s
    /\ forallb Js.isDigit (list_ascii_of_string d) = true.
Proof.
  induction s as [|c r (d & Hs & Hd)]; [now exists EmptyString|].
  simpl. destruct (Js.isDigit c) eqn:Hc.
  - exists (String c d). rewrite append_cons, <- Hs. simpl. now rewrite Hc, Hd.
  - now exists EmptyString.
Qed.

Lemma stripOrdinal_spec core :
  marked core (Js.stripOrdinal core)
  \/ (Js.stripOrdinal core = core /\ forall rest, ~ marked core rest).
Proof.
  destruct core as [|c r].
  { right. split; [reflexivity|]. intros rest (digits & Hne & _ & H).
    destruct digits; [done|discriminate]. }
  unfold Js.stripOrdinal. destruct (Js.isDigit c) eqn:Hc.
  - destruct (dropDigits_spec r) as (d & Hr & Hd).
    assert (Hunmarked : (forall rest, Js.dropDigits r <> String "." (String " " rest)) ->
                        forall rest, ~ marked (String c r) rest).
    { intros Hno rest (digits & Hne & Hdigits & H).
      destruct digits as [|c' digits]; [done|]. rewrite append_cons in H.
      injection H as <- ->. simpl in Hdigits. apply andb_true_iff in Hdigits as [_ Hdigits].
      apply (Hno rest). now apply dropDigits_stop. }
    destruct (Js.dropDigits r) as [|x t] eqn:E.
    { right. split; [reflexivity|]. apply Hunmarked. discriminate. }
    destruct (Ascii.eqb_spec x ".") as [->|Hx].
    + destruct t as [|y rest].
      { right. split; [reflexivity|]. apply Hunmarked. discriminate. }
      destruct (Ascii.eqb_spec y " ") as [->|Hy].
      * left. exists (String c d). split; [done|]. split; [simpl; now rewrite Hc, Hd|].
        rewrite append_cons. f_equal. exact Hr.
      * right. split.
        { destruct y as [[] [] [] [] [] [] [] []]; try reflexivity. now contradict Hy. }
        apply Hunmarked. intros rest' [= ->]. now apply Hy.
    + right. split.
      { destruct x as [[] [] [] [] [] [] [] []]; try reflexivity. now contradict Hx. }
      apply Hunmarked. intros rest' [= ->]. now apply Hx.
  - right. split; [reflexivity|]. intros rest (digits & Hne & Hdigits & H).
    destruct digits as [|c' digits]; [done|]. rewrite append_cons in H.
    injection H as <- _. simpl in Hdigits. apply andb_true_iff in Hdigits as [Hc' _].
    congruence.
Qed.


(** The fragment of a line is determined by the line: the description
    above leaves no choice. *)

Lemma trimStart_blank before s :
  blank before = true -> Js.trimStart (before +:+ s) = Js.trimStart s.
Proof.
  induction before as [|c before IH]; [reflexivity|].
  intros H. change (Js.isWhiteSpace c && blank before = true) in H.
  apply andb_true_iff in H as [Hc Hb]. rewrite append_cons. simpl. now rewrite Hc, IH.
Qed.

Lemma trimEnd_blank after : blank after = true -> Js.trimEnd after = EmptyString.
Proof.
  induction after as [|c after IH]; [reflexivity|].
  intros H. change (Js.isWhiteSpace c && blank after = true) in H.
  apply andb_true_iff in H as [Hc Hb]. rewrite trimEnd_cons, (IH Hb). now rewrite Hc.
Qed.

Lemma trimEnd_bare after : forall core d,
  lastChar core = Some d -> Js.isWhiteSpace d = false -> blank after = true ->
  Js.trimEnd (core +:+ after) = core.
Proof.
  induction core as [|c r IH]; intros d Hl Hd Ha; [discriminate|].
  rewrite append_cons, trimEnd_cons. rewrite lastChar_cons in Hl. destruct r as [|x r].
  - injection Hl as ->. rewrite append_nil_l, (trimEnd_blank _ Ha). now rewrite Hd.
  - now rewrite (IH d Hl Hd Ha).
Qed.

Lemma lastChar_nonempty c r : lastChar (String c r) <> None.
Proof.
  revert c. induction r as [|x r IH]; intros c; [discriminate|].
  rewrite lastChar_cons. apply IH.
Qed.

Lemma trimmedTo_unique line core : trimmedTo line core -> core = Js.trim line.
Proof.
  intros (before & after & -> & Hb & Ha & Hbare). unfold Js.trim.
  rewrite (trimStart_blank _ _ Hb). destruct core as [|c r].
  - rewrite append_nil_l. rewrite <- (append_nil_r after) at 1.
    now rewrite (trimStart_blank _ _ Ha).
  - unfold bare in Hbare. apply andb_true_iff in Hbare as [Hc Hl].
    apply negb_true_iff in Hc.
    destruct (lastChar (String c r)) as [d|] eqn:Hd; [|now apply lastChar_nonempty in Hd].
    apply negb_true_iff in Hl. rewrite append_cons. simpl Js.trimStart. rewrite Hc.
    rewrite <- append_cons. symmetry. now apply (trimEnd_bare after _ d).
Qed.

Lemma marked_unique core rest : marked core rest -> Js.stripOrdinal core = rest.
Proof.
  intros (digits & Hne & Hd & ->). destruct digits as [|c d]; [done|].
  simpl in Hd. apply andb_true_iff in Hd as [Hc Hd].
  rewrite append_cons. unfold Js.stripOrdinal. rewrite Hc.
  change (". " +:+ rest) with (String "." (String " " rest)).
  now rewrite (dropDigits_stop d "." _ Hd eq_refl).
Qed.

Lemma fragmentOf_unique line fragment :
  fragmentOf line fragment -> fragment = Js.stripOrdinal (Js.trim line).
Proof.
  intros (core & Hcore & H). apply trimmedTo_unique in Hcore as ->.
  destruct H as [H|[-> Hno]]; [symmetry; now apply marked_unique|].
  destruct (stripOrdinal_spec (Js.trim line)) as [H|[H _]]; [now apply Hno in H|now symmetry].
Qed.


End ParseFacts.

(** ** The translation client and the retry controller *)

Section TranslateFacts.

Variable cfg : Config.
Variable env : Env.

Lemma update_eq {T : Type} (h : loc -> T) l v : update h l v l = v.
Proof. unfold update. now rewrite Nat.eqb_refl. Qed.

Lemma update_ne {T : Type} (h : loc -> T) l l' v : l' <> l -> update h l v l' = h l'.
Proof. unfold update. intros H. now destruct (Nat.eqb_spec l' l). Qed.

(** *** What the helper steps leave alone *)

Lemma printTable_frame os : forall ss w,
  let w' := printTable os ss w in
  segments w' = segments w /\ jobObjects w' = jobObjects w /\ jobs w' = jobs w
  /\ mostErrored w' = mostErrored w /\ mostErroredFile w' = mostErroredFile w
  /\ network w' = network w /\ subtitleFiles w' = subtitleFiles w.
Proof.
  induction os as [|o os IH]; intros [|s ss] w; simpl; try tauto.
  destruct (IH ss (print (tableRow o s) w)) as (?&?&?&?&?&?&?). simpl in *. tauto.
Qed.

Lemma recordAttempt_frame text translated number os ss w :
  let w' := recordAttempt cfg text translated number os ss w in
  segments w' = segments w /\ jobObjects w' = jobObjects w /\ jobs w' = jobs w
  /\ network w' = network w /\ subtitleFiles w' = subtitleFiles w.
Proof.
  unfold recordAttempt.
  destruct (3 <? number), (table cfg); simpl;
    try (match goal with |- context [printTable ?a ?b ?c] =>
           destruct (printTable_frame a b c) as (?&?&?&?&?&?&?) end);
    simpl in *; tauto.
Qed.


Lemma getTranslation_frame text w r w1 :
  getTranslation cfg env text w = (r, w1) ->
  segments w1 = segments w /\ jobObjects w1 = jobObjects w /\ jobs w1 = jobs w
  /\ mostErrored w1 = mostErrored w /\ mostErroredFile w1 = mostErroredFile w
  /\ subtitleFiles w1 = subtitleFiles w /\ r <> OutOfFuel.
Proof.
  unfold getTranslation. intros H.
  repeat case_match; simplify_eq; simpl; repeat split; done.
Qed.

Lemma getTranslation_network text w r w1 :
  getTranslation cfg env text w = (r, w1) ->
  network w1 = network w ++ (if batch cfg then [] else [ChatCompletion text]).
Proof.
  unfold getTranslation. intros H.
  repeat case_match; simplify_eq; simpl; now rewrite ?app_nil_r.
Qed.

(** In batch mode a text is only ever obtained from a job of the store, and
    asking for it changes nothing. *)
Lemma getTranslation_batch_found text w translated w1 :
  batch cfg = true ->
  getTranslation cfg env text w = (Ret (Some translated), w1) ->
  w1 = w /\ is_Some (findJob text w).
Proof.
  unfold getTranslation. intros -> H.
  destruct (findJob text w); simplify_eq; eauto.
Qed.

Lemma findJob_ext text w w' :
  jobs w' = jobs w -> jobObjects w' = jobObjects w -> findJob text w' = findJob text w.
Proof. unfold findJob. now intros -> ->. Qed.

Lemma forgetRequest_frame text w r w1 :
  forgetRequest text w = (r, w1) ->
  segments w1 = segments w /\ mostErrored w1 = mostErrored w
  /\ mostErroredFile w1 = mostErroredFile w /\ network w1 = network w
  /\ subtitleFiles w1 = subtitleFiles w /\ console w1 = console w
  /\ r <> OutOfFuel.
Proof.
  unfold forgetRequest. intros H.
  repeat case_match; simplify_eq; simpl; repeat split; done.
Qed.

Lemma forgetRequest_found text w :
  is_Some (findJob text w) -> exists w1, forgetRequest text w = (Ret tt, w1).
Proof. unfold forgetRequest. intros [l ->]. eauto. Qed.

Lemma contents_ext w w' group :
  segments w' = segments w -> contents w' group = contents w group.
Proof. unfold contents. now intros ->. Qed.

Lemma groupText_ext w w' group :
  segments w' = segments w -> groupText w' group = groupText w group.
Proof. unfold groupText. intros H. now rewrite (contents_ext _ _ _ H). Qed.

Lemma length_contents w group : length (contents w group) = length group.
Proof. unfold contents. apply length_map. Qed.

Lemma truthy_nonempty translated :
  translated <> EmptyString -> Js.truthy (Some translated) = true.
Proof. now destruct translated. Qed.

(** *** One activation *)

Lemma attempt_matched group number w translated w1 :
  getTranslation cfg env (groupText w group) w = (Ret (Some translated), w1) ->
  translated <> EmptyString ->
  length (parseTranslation translated) = length group ->
  attempt cfg env group number w
  = (Return (Ret true),
     setSegments (assignFrom 0 (parseTranslation translated) group
                    (segments (compared cfg group number translated w w1)))
       (compared cfg group number translated w w1)).
Proof.
  intros Hget Hne Hlen. unfold attempt. rewrite Hget.
  rewrite (truthy_nonempty _ Hne). simpl.
  rewrite length_contents, Hlen, Nat.eqb_refl. reflexivity.
Qed.

(** After a mismatch the bookkeeping of batch mode cannot fail, as the text
    came from a job of the store. *)
Lemma mismatch_bookkeeping group number w translated w1 :
  getTranslation cfg env (groupText w group) w = (Ret (Some translated), w1) ->
  exists w3,
    (if batch cfg then forgetRequest (groupText w group) (compared cfg group number translated w w1)
     else (Ret tt, compared cfg group number translated w w1)) = (Ret tt, w3)
    /\ segments w3 = segments w
    /\ network w3 = network w1
    /\ subtitleFiles w3 = subtitleFiles w
    /\ mostErrored w3 = mostErrored (compared cfg group number translated w w1)
    /\ mostErroredFile w3 = mostErroredFile (compared cfg group number translated w w1).
Proof.
  intros Hget. unfold compared.
  destruct (getTranslation_frame _ _ _ _ Hget) as (Hs & Ho & Hj & _ & _ & Hf & _).
  match goal with |- context [recordAttempt ?a ?b ?c ?d ?e ?f ?g] =>
    destruct (recordAttempt_frame b c d e f g) as (Hs2 & Ho2 & Hj2 & Hn2 & Hf2);
    set (w2 := recordAttempt a b c d e f g) in * end.
  destruct (batch cfg) eqn:Hb.
  - destruct (getTranslation_batch_found _ _ _ _ Hb Hget) as [-> Hfound].
    destruct (forgetRequest_found (groupText w group) w2) as [w3 H3].
    { now rewrite (findJob_ext _ w w2 Hj2 Ho2). }
    exists w3. split; [exact H3|].
    destruct (forgetRequest_frame _ _ _ _ H3) as (?&?&?&?&?&?&?).
    repeat split; congruence.
  - exists w2. repeat split; congruence.
Qed.


Lemma attempt_mismatched_again group number w translated w1 :
  getTranslation cfg env (groupText w group) w = (Ret (Some translated), w1) ->
  translated <> EmptyString ->
  length (parseTranslation translated) <> length group ->
  number < MAX_TRIES cfg ->
  exists w4,
    attempt cfg env group number w = (Retry, w4)
    /\ segments w4 = segments w
    /\ network w4 = network w1
    /\ subtitleFiles w4 = subtitleFiles w.
Proof.
  intros Hget Hne Hlen Hmax.
  destruct (mismatch_bookkeeping group number w translated w1 Hget)
    as (w3 & H3 & Hs & Hn & Hf & _).
  unfold attempt. rewrite Hget, (truthy_nonempty _ Hne). simpl.
  rewrite length_contents.
  destruct (Nat.eqb_spec (length (parseTranslation translated)) (length group)); [done|].
  simpl. unfold compared in H3. rewrite H3.
  destruct (Z.leb_spec (MAX_TRIES cfg) number); [lia|].
  eexists. split; [reflexivity|]. destruct (debug cfg); simpl; tauto.
Qed.

(** What every activation leaves alone, and what it may add. *)
Lemma attempt_frame group number w st w1 :
  attempt cfg env group number w = (st, w1) ->
  subtitleFiles w1 = subtitleFiles w
  /\ network w1 = network w ++ (if batch cfg then [] else [ChatCompletion (groupText w group)])
  /\ (st <> Return (Ret true) -> segments w1 = segments w)
  /\ st <> Return OutOfFuel
  /\ (st = Retry -> number < MAX_TRIES cfg).
Proof.
  unfold attempt.
  destruct (getTranslation cfg env (groupText w group) w) as [r wg] eqn:Hget.
  destruct (getTranslation_frame _ _ _ _ Hget) as (Hs & Ho & Hj & _ & _ & Hf & Hfuel).
  pose proof (getTranslation_network _ _ _ _ Hget) as Hn.
  destruct r as [translated|e|]; [| intros [= <- <-]; repeat split; done | done].
  destruct (Js.truthy translated) eqn:Ht; simpl; [| intros [= <- <-]; repeat split; done].
  destruct translated as [translated|]; [|done]. simpl.
  destruct (mismatch_bookkeeping group number w translated wg Hget)
    as (w3 & H3 & Hs3 & Hn3 & Hf3 & _).
  match goal with |- context [recordAttempt ?a ?b ?c ?d ?e ?f ?g] =>
    destruct (recordAttempt_frame b c d e f g) as (Hs2 & Ho2 & Hj2 & Hn2 & Hf2) end.
  unfold compared in H3.
  destruct (_ =? _)%nat; simpl.
  - intros [= <- <-]. simpl. repeat split; try done; congruence.
  - rewrite H3. destruct (Z.leb_spec (MAX_TRIES cfg) number); intros [= <- <-].
    + simpl. repeat split; try done; congruence.
    + destruct (debug cfg); simpl; repeat split; try done; congruence.
Qed.

(** *** The recursion *)

Lemma translate_return group number w r w1 :
  attempt cfg env group number w = (Return r, w1) ->
  translate cfg env group number w = (r, w1).
Proof. unfold translate, attemptBudget. simpl. now intros ->. Qed.

Lemma attemptBudget_step number :
  number < MAX_TRIES cfg ->
  attemptBudget cfg number = S (attemptBudget cfg (number + 1)).
Proof. unfold attemptBudget. intros H. f_equal. lia. Qed.

Lemma translate_retry group number w w1 :
  attempt cfg env group number w = (Retry, w1) ->
  translate cfg env group number w = translate cfg env group (number + 1) w1.
Proof.
  intros H. destruct (attempt_frame _ _ _ _ _ H) as (_ & _ & _ & _ & Hlt).
  unfold translate. rewrite (attemptBudget_step number (Hlt eq_refl)).
  simpl. now rewrite H.
Qed.

(** More fuel than the budget changes nothing. *)
Lemma translate_fuel_enough group : forall fuel number w,
  (attemptBudget cfg number <= fuel)%nat ->
  translate_fuel fuel cfg env group number w = translate cfg env group number w.
Proof.
  induction fuel as [|fuel IH]; intros number w Hf.
  - unfold attemptBudget in Hf. lia.
  - simpl. destruct (attempt cfg env group number w) as [[r|] w1] eqn:Ha.
    + symmetry. now apply translate_return.
    + rewrite (translate_retry _ _ _ _ Ha).
      destruct (attempt_frame _ _ _ _ _ Ha) as (_ & _ & _ & _ & Hlt).
      apply IH. rewrite (attemptBudget_step number (Hlt eq_refl)) in Hf. lia.
Qed.

(** Induction along the activations of a run. *)
Lemma translate_ind (P : Z -> World -> Outcome bool * World -> Prop) group :
  (forall number w r w1,
      attempt cfg env group number w = (Return r, w1) -> P number w (r, w1)) ->
  (forall number w w1,
      attempt cfg env group number w = (Retry, w1) ->
      P (number + 1) w1 (translate cfg env group (number + 1) w1) ->
      P number w (translate cfg env group (number + 1) w1)) ->
  forall number w, P number w (translate cfg env group number w).
Proof.
  intros Hret Hagain number.
  remember (Z.to_nat (MAX_TRIES cfg - number)) as k eqn:Hk.
  revert number Hk. induction k as [|k IH]; intros number Hk w.
  - destruct (attempt cfg env group number w) as [[r|] w1] eqn:Ha.
    + rewrite (translate_return _ _ _ _ _ Ha). now apply Hret.
    + destruct (attempt_frame _ _ _ _ _ Ha) as (_ & _ & _ & _ & Hlt).
      specialize (Hlt eq_refl). lia.
  - destruct (attempt cfg env group number w) as [[r|] w1] eqn:Ha.
    + rewrite (translate_return _ _ _ _ _ Ha). now apply Hret.
    + rewrite (translate_retry _ _ _ _ Ha). apply Hagain; [exact Ha|].
      apply IH. lia.
Qed.

(** *** Assignment of the fragments *)

Lemma assignFrom_other split group : forall k h m,
  m ∉ group -> assignFrom k split group h m = h m.
Proof.
  induction group as [|g group IH]; intros k h m Hm; [reflexivity|].
  simpl. rewrite IH by (intros ?; apply Hm; now right).
  apply update_ne. intros ->. apply Hm. now left.
Qed.

Lemma assignFrom_lookup split group : forall k h i m,
  NoDup group -> group !! i = Some m ->
  translatedContent (assignFrom k split group h m) = split !! (k + i)%nat.
Proof.
  induction group as [|g group IH]; intros k h i m Hnd Hi; [done|].
  apply NoDup_cons in Hnd as [Hg Hnd]. destruct i as [|i]; simpl in *.
  - simplify_eq. rewrite assignFrom_other by exact Hg.
    rewrite update_eq. simpl. now rewrite Nat.add_0_r.
  - rewrite (IH (S k) _ i m Hnd Hi). f_equal. lia.
Qed.


(** *** The activation from its resumption on *)








(** In synchronous mode every attempt is mismatched as soon as the model
    answers every request for this text with a complete answer of the
    wrong count. *)
Lemma always_wrong_count_alwaysMismatched group :
  batch cfg = false ->
  forall k number w,
  (forall n, exists translated,
      chat env n (groupText w group) = ChatChoice "stop" (Some translated)
      /\ translated <> EmptyString
      /\ length (parseTranslation translated) <> length group) ->
  Z.to_nat (MAX_TRIES cfg - number) = k ->
  alwaysMismatched cfg env group number w.
Proof.
  intros Hb. induction k as [|k IH]; intros number w Hchat Hk.
  - apply mismatched_last; [|lia].
    destruct (Hchat (length (network w))) as (t & Hc & Hne & Hlen).
    exists t, (send (ChatCompletion (groupText w group)) w).
    unfold getTranslation. rewrite Hb, Hc. simpl. tauto.
  - destruct (Hchat (length (network w))) as (t & Hc & Hne & Hlen).
    assert (Hget : getTranslation cfg env (groupText w group) w
                   = (Ret (Some t), send (ChatCompletion (groupText w group)) w)).
    { unfold getTranslation. now rewrite Hb, Hc. }
    destruct (attempt_mismatched_again _ number _ _ _ Hget Hne Hlen ltac:(lia))
      as (w4 & Ha & Hs & _).
    apply (mismatched_again _ _ _ _ _ w4); [eexists t, _; split; [exact Hget|tauto] | exact Ha |].
    apply IH; [|lia]. intros n. rewrite (groupText_ext _ _ _ Hs). apply Hchat.
Qed.

(** *** Termination and the bound on the attempts *)

Lemma translate_total group number w :
  fst (translate cfg env group number w) <> OutOfFuel.
Proof.
  apply (translate_ind (fun _ _ res => fst res <> OutOfFuel)).
  - intros n w0 r w1 Ha. destruct (attempt_frame _ _ _ _ _ Ha) as (_ & _ & _ & Hf & _).
    simpl. congruence.
  - auto.
Qed.






(** *** The error corpus *)





End TranslateFacts.

(** ** Batch mode: queueing *)

Section QueueFacts.

Variable cfg : Config.
Variable env : Env.

Lemma findJob_Some text w l :
  findJob text w = Some l ->
  l ∈ jobs w /\ is_Some (findRequest text (jobObjects w l)).
Proof.
  unfold findJob. intros H. apply find_some in H as [Hin Hp].
  split; [now apply list_elem_of_In|]. now apply bool_decide_eq_true in Hp.
Qed.

Lemma findJob_None text w l :
  findJob text w = None -> l ∈ jobs w -> findRequest text (jobObjects w l) = None.
Proof.
  unfold findJob. intros H Hin.
  apply list_elem_of_In in Hin. apply (find_none _ _ H) in Hin.
  apply bool_decide_eq_false in Hin.
  destruct (findRequest text (jobObjects w l)); [|reflexivity].
  exfalso. apply Hin. eauto.
Qed.

(** C6, as the code has it: in batch mode a text that a job of the store
    already holds is not enqueued again. The call changes nothing, and it
    answers "queued" as long as no job holding the text is finished. *)
Theorem getTranslation_reuses_stored_request text w l :
  batch cfg = true ->
  l ∈ jobs w ->
  is_Some (findRequest text (jobObjects w l)) ->
  exists r,
    getTranslation cfg env text w = (Ret r, w)
    /\ ((forall j, j ∈ jobs w -> is_Some (findRequest text (jobObjects w j)) ->
                   finished (jobObjects w j) = false) ->
        r = None).
Proof.
  intros Hb Hin Hreq. unfold getTranslation. rewrite Hb.
  destruct (findJob text w) as [j|] eqn:Hfind.
  - eexists. split; [reflexivity|]. intros Hall.
    destruct (findJob_Some _ _ _ Hfind) as [Hj Hr]. now rewrite (Hall j Hj Hr).
  - rewrite (findJob_None _ _ _ Hfind Hin) in Hreq. now destruct Hreq.
Qed.

(** What the store does not cover: a text that is not in the store is
    enqueued by every call, whether or not the pending list holds it
    already. *)
Lemma getTranslation_enqueues text w :
  batch cfg = true ->
  findJob text w = None ->
  getTranslation cfg env text w
  = (Ret None, pushToBatch {| custom_id := random env (randomDraws w); bodyText := text |} w).
Proof. intros Hb Hfind. unfold getTranslation. now rewrite Hb, Hfind. Qed.

End QueueFacts.

(** ** Batch mode: polling *)

Section PollFacts.

Lemma storeResults_spec messages : forall i rs rs',
  (i <= length rs)%nat ->
  storeResults i messages rs = (Ret tt, rs') ->
  length rs' = length rs
  /\ (i + length messages <= length rs)%nat
  /\ (forall k m, messages !! k = Some m ->
        exists text r, m = Answer text /\ rs !! (i + k)%nat = Some r
                       /\ rs' !! (i + k)%nat = Some (setResult text r))
  /\ (forall j, (j < i)%nat -> rs' !! j = rs !! j).
Proof.
  induction messages as [|m rest IH]; intros i rs rs' Hle H; simpl in H.
  - simplify_eq. split; [done|]. split; [simpl; lia|].
    split; [intros k m Hk; done | done].
  - destruct (rs !! i) as [r|] eqn:Hr; [|done]. destruct m as [text|]; [|done].
    pose proof (lookup_lt_Some _ _ _ Hr) as Hi.
    apply IH in H as (Hlen & Hbound & Hset & Hkeep); [|rewrite length_insert; lia].
    rewrite length_insert in Hlen, Hbound.
    split; [exact Hlen|]. split; [simpl; lia|]. split.
    + intros [|k] m Hk; simpl in Hk.
      * simplify_eq. exists text, r. rewrite Nat.add_0_r.
        split; [reflexivity|]. split; [exact Hr|].
        rewrite Hkeep by lia. now apply list_lookup_insert_eq.
      * destruct (Hset k m Hk) as (text' & r' & -> & Hr' & Hs').
        exists text', r'. replace (i + S k)%nat with (S i + k)%nat by lia.
        split; [reflexivity|]. split; [|exact Hs'].
        rewrite list_lookup_insert_ne in Hr' by lia. exact Hr'.
    + intros j Hj. rewrite Hkeep by lia. apply list_lookup_insert_ne. lia.
Qed.

Lemma printErrors_frame lines : forall w r w1,
  printErrors lines w = (r, w1) ->
  jobObjects w1 = jobObjects w /\ jobs w1 = jobs w /\ network w1 = network w.
Proof.
  induction lines as [|[message|] lines IH]; intros w r w1 H; simpl in H.
  - now simplify_eq.
  - apply IH in H. simpl in H. exact H.
  - now simplify_eq.
Qed.

Lemma elem_of_filter_bool {T : Type} (f : T -> bool) (l : list T) (x : T) :
  x ∈ List.filter f l <-> x ∈ l /\ f x = true.
Proof. rewrite !list_elem_of_In. apply filter_In. Qed.

(** What polling the job at [j] leaves alone. *)
Lemma pollJob_frame remote j w r w1 :
  pollJob remote j w = (r, w1) ->
  (forall x, x <> j -> jobObjects w1 x = jobObjects w x)
  /\ jobId (jobObjects w1 j) = jobId (jobObjects w j)
  /\ (finished (jobObjects w j) = true -> w1 = w)
  /\ (forall x, x ∈ jobs w1 -> x ∈ jobs w)
  /\ exists extra,
       network w1 = network w ++ extra
       /\ forall id, BatchRetrieve id ∈ extra ->
            id = jobId (jobObjects w j) /\ finished (jobObjects w j) = false.
Proof.
  unfold pollJob. intros H.
  destruct (finished (jobObjects w j)) eqn:Hfin.
  { simplify_eq. repeat split; try done. exists []. rewrite app_nil_r.
    split; [done|]. intros id Hid. now apply elem_of_nil in Hid. }
  assert (Hone : forall id,
             BatchRetrieve id ∈ [BatchRetrieve (jobId (jobObjects w j))] ->
             id = jobId (jobObjects w j) /\ false = false).
  { intros id Hid. apply list_elem_of_singleton in Hid. now simplify_eq. }
  assert (Htwo : forall f id,
             BatchRetrieve id ∈ [BatchRetrieve (jobId (jobObjects w j)); FileContent f] ->
             id = jobId (jobObjects w j) /\ false = false).
  { intros f id Hid. apply elem_of_cons in Hid as [Hid|Hid]; [now simplify_eq|].
    apply list_elem_of_singleton in Hid. discriminate. }
  destruct (retrieve remote (jobId (jobObjects w j))) as [b|];
    [|simplify_eq; simpl; repeat split; try done; eauto].
  destruct (String.eqb (status b) "completed").
  - destruct (output_file_id b) as [file|].
    + destruct (outputRecords remote file) as [messages|];
        [|simplify_eq; simpl; repeat split; try done;
          eexists; split; [now rewrite <- app_assoc|apply Htwo]].
      destruct (storeResults 0 messages (requests (jobObjects w j))) as [[[]|e|] rs];
        simplify_eq; simpl; repeat split; try done;
        try (intros x Hx; now rewrite update_ne);
        try (now rewrite update_eq);
        try (eexists; split; [now rewrite <- app_assoc|apply Htwo]).
    + destruct (errorLines remote (error_file_id b)) as [lines|];
        [|simplify_eq; simpl; repeat split; try done;
          eexists; split; [now rewrite <- app_assoc|apply Htwo]].
      destruct (printErrors lines _) as [[[]|e|] w3] eqn:Hp;
        apply printErrors_frame in Hp as (Ho & Hj & Hn); simpl in *;
        simplify_eq; simpl; rewrite ?Ho, ?Hj, ?Hn; repeat split; try done;
        try (intros x Hx; apply elem_of_filter_bool in Hx as [Hx _]; congruence);
        try (eexists; split; [now rewrite <- app_assoc|apply Htwo]).
  - destruct (String.eqb (status b) "failed"); simplify_eq; simpl; repeat split; try done;
      try (intros x Hx; now apply elem_of_filter_bool in Hx as [Hx _]);
      eauto.
Qed.

(** Polling an unfinished job whose batch is completed with results. *)
Lemma pollJob_completed remote j w w1 messages :
  completedWith remote (jobId (jobObjects w j)) messages ->
  finished (jobObjects w j) = false ->
  pollJob remote j w = (Ret tt, w1) ->
  exists rs,
    storeResults 0 messages (requests (jobObjects w j)) = (Ret tt, rs)
    /\ jobObjects w1 j = setFinished true (setRequests rs (jobObjects w j))
    /\ jobs w1 = jobs w.
Proof.
  intros (b & file & Hb & Hst & Hout & Hrec) Hfin. unfold pollJob.
  rewrite Hfin, Hb, Hst, Hout, Hrec. simpl.
  destruct (storeResults 0 messages (requests (jobObjects w j))) as [[[]|e|] rs];
    intros H; simplify_eq.
  exists rs. simpl. now rewrite update_eq.
Qed.

(** A job whose batch is completed with results is never dropped from
    [jobs], whichever job is being polled. *)
Lemma pollJob_keeps remote id messages j w r w1 x :
  completedWith remote id messages ->
  pollJob remote j w = (r, w1) ->
  x ∈ jobs w -> jobId (jobObjects w x) = id -> x ∈ jobs w1.
Proof.
  intros (b & file & Hb & Hst & Hout & Hrec) H Hx Hid. unfold pollJob in H.
  assert (Hdrop : forall w3, jobs w3 = jobs w -> jobObjects w3 = jobObjects w ->
                    jobId (jobObjects w j) <> id ->
                    x ∈ jobs (dropJob (jobId (jobObjects w j)) w3)).
  { intros w3 Hj Ho Hne. unfold dropJob. simpl. apply elem_of_filter_bool.
    rewrite Hj, Ho. split; [exact Hx|]. rewrite Hid.
    apply negb_true_iff, String.eqb_neq. congruence. }
  destruct (finished (jobObjects w j)); [now simplify_eq|].
  destruct (String.eqb_spec (jobId (jobObjects w j)) id) as [He|Hne].
  - rewrite He, Hb, Hst, Hout, Hrec in H. simpl in H.
    destruct (storeResults 0 messages (requests (jobObjects w j))) as [[[]|e|] rs];
      simplify_eq; exact Hx.
  - destruct (retrieve remote (jobId (jobObjects w j))) as [b'|]; [|now simplify_eq].
    destruct (String.eqb (status b') "completed").
    + destruct (output_file_id b') as [file'|].
      * destruct (outputRecords remote file') as [messages'|]; [|now simplify_eq].
        destruct (storeResults 0 messages' (requests (jobObjects w j))) as [[[]|e|] rs];
          simplify_eq; exact Hx.
      * destruct (errorLines remote (error_file_id b')) as [lines|]; [|now simplify_eq].
        destruct (printErrors lines _) as [[[]|e|] w3] eqn:Hp;
          apply printErrors_frame in Hp as (Ho & Hj & Hn); simpl in *; simplify_eq;
          try (rewrite Hj; exact Hx).
        now apply Hdrop.
    + destruct (String.eqb (status b') "failed"); simplify_eq; [|exact Hx].
      now apply Hdrop.
Qed.

(** *** The loop over the snapshot *)

Lemma pollJobs_frame remote snapshot : forall w r w1,
  pollJobs remote snapshot w = (r, w1) ->
  (forall x, jobId (jobObjects w1 x) = jobId (jobObjects w x))
  /\ (forall x, finished (jobObjects w x) = true -> jobObjects w1 x = jobObjects w x)
  /\ (forall x, x ∈ jobs w1 -> x ∈ jobs w)
  /\ exists extra,
       network w1 = network w ++ extra
       /\ forall id, BatchRetrieve id ∈ extra ->
            exists j, j ∈ snapshot /\ id = jobId (jobObjects w j)
                      /\ finished (jobObjects w j) = false.
Proof.
  induction snapshot as [|j snapshot IH]; intros w r w1 H; simpl in H.
  - simplify_eq. repeat split; try done. exists []. rewrite app_nil_r.
    split; [done|]. intros id Hid. now apply elem_of_nil in Hid.
  - destruct (pollJob remote j w) as [r0 w0] eqn:Hp.
    destruct (pollJob_frame _ _ _ _ _ Hp) as (Hother & Hid & Hskip & Hsub & extra & Hn & Hex).
    assert (Hids : forall x, jobId (jobObjects w0 x) = jobId (jobObjects w x)).
    { intros x. destruct (decide (x = j)) as [->|Hne]; [exact Hid|now rewrite Hother]. }
    assert (Hfin : forall x, finished (jobObjects w x) = true ->
                             jobObjects w0 x = jobObjects w x).
    { intros x Hx. destruct (decide (x = j)) as [->|Hne]; [now rewrite Hskip|now apply Hother]. }
    assert (Hhere : (forall x, jobId (jobObjects w0 x) = jobId (jobObjects w x))
      /\ (forall x, finished (jobObjects w x) = true -> jobObjects w0 x = jobObjects w x)
      /\ (forall x, x ∈ jobs w0 -> x ∈ jobs w)
      /\ exists extra, network w0 = network w ++ extra
           /\ forall id, BatchRetrieve id ∈ extra ->
                exists x, x ∈ j :: snapshot /\ id = jobId (jobObjects w x)
                          /\ finished (jobObjects w x) = false).
    { repeat split; try done. exists extra. split; [done|].
      intros id Hin. destruct (Hex id Hin) as [-> Hf]. exists j. split; [now left|done]. }
    destruct r0 as [[]|e|]; [|now simplify_eq..].
    apply IH in H as (Hids' & Hfin' & Hsub' & extra' & Hn' & Hex').
    split; [intros x; now rewrite Hids', Hids|].
    split; [intros x Hx; rewrite Hfin', Hfin; try done; now rewrite Hfin|].
    split; [auto|].
    exists (extra ++ extra'). split; [now rewrite Hn', Hn, <- app_assoc|].
    intros id Hin. apply elem_of_app in Hin as [Hin|Hin].
    + destruct (Hex id Hin) as [-> Hf]. exists j. split; [now left|done].
    + destruct (Hex' id Hin) as (x & Hx & -> & Hf). exists x.
      split; [now right|]. split; [apply Hids|].
      destruct (finished (jobObjects w x)) eqn:Hfx; [|done].
      now rewrite (Hfin x Hfx), Hfx in Hf.
Qed.

(** After a loop that ran to its end, the jobs of the snapshot whose batch
    is completed with results are finished. *)
Lemma pollJobs_settles remote id messages snapshot : forall w w1,
  completedWith remote id messages ->
  pollJobs remote snapshot w = (Ret tt, w1) ->
  forall j, jobId (jobObjects w j) = id ->
    j ∈ snapshot \/ finished (jobObjects w j) = true ->
    finished (jobObjects w1 j) = true.
Proof.
  induction snapshot as [|x snapshot IH]; intros w w1 Hc H j Hid Hj; simpl in H.
  - simplify_eq. destruct Hj as [Hj|Hj]; [now apply elem_of_nil in Hj|exact Hj].
  - destruct (pollJob remote x w) as [[[]|e|] w0] eqn:Hp; [|done..].
    destruct (pollJob_frame _ _ _ _ _ Hp) as (Hother & Hidx & Hskip & _).
    apply (IH w0 w1 Hc H).
    + destruct (decide (j = x)) as [->|Hne]; [congruence|now rewrite Hother].
    + destruct (finished (jobObjects w j)) eqn:Hfin.
      * right. destruct (decide (j = x)) as [->|Hne]; [now rewrite Hskip|now rewrite Hother].
      * destruct Hj as [Hj|Hj]; [|done]. apply elem_of_cons in Hj as [->|Hj]; [|now left].
        right. rewrite <- Hid in Hc.
        destruct (pollJob_completed _ _ _ _ _ Hc Hfin Hp) as (rs & _ & -> & _).
        reflexivity.
Qed.

(** The job at [l], unfinished and completed with results, holds the
    results once the loop has run to its end. *)
Lemma pollJobs_stores remote messages l job snapshot : forall w w1,
  completedWith remote (jobId job) messages ->
  finished job = false ->
  pollJobs remote snapshot w = (Ret tt, w1) ->
  (jobObjects w l = job /\ l ∈ snapshot)
  \/ (exists rs, storeResults 0 messages (requests job) = (Ret tt, rs)
                 /\ jobObjects w l = setFinished true (setRequests rs job)) ->
  exists rs, storeResults 0 messages (requests job) = (Ret tt, rs)
             /\ jobObjects w1 l = setFinished true (setRequests rs job).
Proof.
  induction snapshot as [|x snapshot IH]; intros w w1 Hc Hfin H Hl; simpl in H.
  - simplify_eq. destruct Hl as [[_ Hl]|Hl]; [now apply elem_of_nil in Hl|exact Hl].
  - destruct (pollJob remote x w) as [[[]|e|] w0] eqn:Hp; [|done..].
    destruct (pollJob_frame _ _ _ _ _ Hp) as (Hother & Hidx & Hskip & _).
    apply (IH w0 w1 Hc Hfin H).
    destruct Hl as [[Hjob Hl]|(rs & Hrs & Hjob)].
    + destruct (decide (l = x)) as [->|Hne].
      * right. rewrite <- Hjob in Hc, Hfin.
        destruct (pollJob_completed _ _ _ _ _ Hc Hfin Hp) as (rs & Hrs & Hjob' & _).
        exists rs. now rewrite <- Hjob.
      * left. apply elem_of_cons in Hl as [->|Hl]; [done|]. now rewrite Hother.
    + right. exists rs. split; [exact Hrs|].
      destruct (decide (l = x)) as [->|Hne]; [|now rewrite Hother].
      rewrite Hskip; [exact Hjob|]. now rewrite Hjob.
Qed.

Lemma pollJobs_keeps remote id messages snapshot : forall w r w1 x,
  completedWith remote id messages ->
  pollJobs remote snapshot w = (r, w1) ->
  x ∈ jobs w -> jobId (jobObjects w x) = id -> x ∈ jobs w1.
Proof.
  induction snapshot as [|j snapshot IH]; intros w r w1 x Hc H Hx Hid; simpl in H.
  - now simplify_eq.
  - destruct (pollJob remote j w) as [r0 w0] eqn:Hp.
    pose proof (pollJob_keeps _ _ _ _ _ _ _ x Hc Hp Hx Hid) as Hx0.
    destruct (pollJob_frame _ _ _ _ _ Hp) as (Hother & Hidj & _).
    destruct r0 as [[]|e|]; [|now simplify_eq..].
    apply (IH _ _ _ x Hc H Hx0).
    destruct (decide (x = j)) as [->|Hne]; [congruence|now rewrite Hother].
Qed.

(** *** Whole poll cycles *)

(** A cycle never asks the remote side about an id all of whose jobs are
    finished, it leaves those jobs finished, and it does not touch a
    finished job. *)
Lemma checkBatchStatus_settled remote id w r w1 :
  settledAt id (jobs w) w ->
  checkBatchStatus remote w = (r, w1) ->
  settledAt id (jobs w1) w1
  /\ (forall x, finished (jobObjects w x) = true -> jobObjects w1 x = jobObjects w x)
  /\ exists extra, network w1 = network w ++ extra /\ BatchRetrieve id ∉ extra.
Proof.
  intros Hset. unfold checkBatchStatus.
  destruct (length (pendingJobs w) =? 0)%nat.
  - intros [= <- <-]. split; [exact Hset|]. split; [done|].
    exists []. simpl. rewrite app_nil_r. split; [done|]. apply not_elem_of_nil.
  - destruct (pollJobs remote _ _) as [r0 w2] eqn:Hp.
    destruct (pollJobs_frame _ _ _ _ _ Hp) as (Hids & Hfin & Hsub & extra & Hn & Hex).
    simpl in *.
    assert (Hgoal : settledAt id (jobs w2) w2
                    /\ (forall x, finished (jobObjects w x) = true ->
                                  jobObjects w2 x = jobObjects w x)
                    /\ exists extra, network w2 = network w ++ extra
                                     /\ BatchRetrieve id ∉ extra).
    { split; [|split; [exact Hfin|]].
      - intros j Hj Hid. rewrite Hids in Hid. rewrite Hfin; now apply Hset; auto.
      - exists extra. split; [exact Hn|]. intros Hin.
        destruct (Hex id Hin) as (j & Hj & Hid & Hf).
        rewrite (Hset j Hj (eq_sym Hid)) in Hf. discriminate. }
    destruct r0 as [[]|e|]; intros [= <- <-]; exact Hgoal.
Qed.

Lemma pollCycles_settled id remotes : forall w,
  settledAt id (jobs w) w ->
  (forall x, finished (jobObjects w x) = true ->
             jobObjects (pollCycles remotes w) x = jobObjects w x)
  /\ exists extra, network (pollCycles remotes w) = network w ++ extra
                   /\ BatchRetrieve id ∉ extra.
Proof.
  induction remotes as [|remote remotes IH]; intros w Hset; simpl.
  - split; [done|]. exists []. rewrite app_nil_r. split; [done|apply not_elem_of_nil].
  - destruct (checkBatchStatus remote w) as [r w1] eqn:Hc.
    destruct (checkBatchStatus_settled _ _ _ _ _ Hset Hc) as (Hset1 & Hfin1 & e1 & Hn1 & He1).
    destruct (IH w1 Hset1) as (Hfin2 & e2 & Hn2 & He2). simpl. split.
    + intros x Hx. rewrite Hfin2, Hfin1; try done. now rewrite Hfin1.
    + exists (e1 ++ e2). split; [now rewrite Hn2, Hn1, <- app_assoc|].
      intros Hin. apply elem_of_app in Hin as [Hin|Hin]; auto.
Qed.

(** *** A cycle that may be cut short *)

Lemma pollJobs_app remote a b : forall w,
  pollJobs remote (a ++ b) w
  = match pollJobs remote a w with
    | (Ret _, w1) => pollJobs remote b w1
    | failure => failure
    end.
Proof.
  induction a as [|j a IH]; intros w; simpl; [reflexivity|].
  destruct (pollJob remote j w) as [[[]|e|] w1]; [apply IH|reflexivity..].
Qed.

(** The loop leaves alone the job objects it does not visit. *)
Lemma pollJobs_other remote l snapshot : forall w r w1,
  pollJobs remote snapshot w = (r, w1) ->
  l ∉ snapshot -> jobObjects w1 l = jobObjects w l.
Proof.
  induction snapshot as [|j snapshot IH]; intros w r w1 H Hl; simpl in H.
  - now simplify_eq.
  - apply not_elem_of_cons in Hl as [Hne Hl].
    destruct (pollJob remote j w) as [r0 w0] eqn:Hp.
    destruct (pollJob_frame _ _ _ _ _ Hp) as (Hother & _).
    destruct r0 as [[]|e|]; [|simplify_eq; now apply Hother..].
    rewrite (IH _ _ _ H Hl). now apply Hother.
Qed.

Lemma printErrors_cacheFile lines : forall w r w1,
  printErrors lines w = (r, w1) -> cacheFile w1 = cacheFile w.
Proof.
  induction lines as [|[message|] lines IH]; intros w r w1 H; simpl in H.
  - now simplify_eq.
  - apply IH in H. exact H.
  - now simplify_eq.
Qed.

(** Nothing is written to the store while the jobs are polled. *)
Lemma pollJob_cacheFile remote j w r w1 :
  pollJob remote j w = (r, w1) -> cacheFile w1 = cacheFile w.
Proof.
  unfold pollJob. intros H.
  destruct (finished (jobObjects w j)); [now simplify_eq|].
  destruct (retrieve remote (jobId (jobObjects w j))) as [b|]; [|now simplify_eq].
  destruct (String.eqb (status b) "completed").
  - destruct (output_file_id b) as [file|].
    + destruct (outputRecords remote file) as [messages|]; [|now simplify_eq].
      destruct (storeResults 0 messages (requests (jobObjects w j))) as [[[]|e|] rs];
        now simplify_eq.
    + destruct (errorLines remote (error_file_id b)) as [lines|]; [|now simplify_eq].
      destruct (printErrors lines _) as [[[]|e|] w3] eqn:Hp;
        apply printErrors_cacheFile in Hp; simpl in Hp; now simplify_eq.
  - destruct (String.eqb (status b) "failed"); now simplify_eq.
Qed.

Lemma pollJobs_cacheFile remote snapshot : forall w r w1,
  pollJobs remote snapshot w = (r, w1) -> cacheFile w1 = cacheFile w.
Proof.
  induction snapshot as [|j snapshot IH]; intros w r w1 H; simpl in H.
  - now simplify_eq.
  - destruct (pollJob remote j w) as [r0 w0] eqn:Hp.
    apply pollJob_cacheFile in Hp.
    destruct r0 as [[]|e|]; [|now simplify_eq..].
    apply IH in H. congruence.
Qed.

(** Records that all hold an answer, no more of them than there are
    requests, are stored without an exception. *)
Lemma storeResults_answers texts : forall i rs,
  (i + length texts <= length rs)%nat ->
  exists rs', storeResults i (map Answer texts) rs = (Ret tt, rs').
Proof.
  induction texts as [|text texts IH]; intros i rs Hlen; simpl in *; [eauto|].
  destruct (lookup_lt_is_Some_2 rs i ltac:(lia)) as [r ->].
  apply IH. rewrite length_insert. lia.
Qed.

(** Polling an unfinished job whose batch is completed with such
    records. *)
Lemma pollJob_stores remote l w b file texts :
  finished (jobObjects w l) = false ->
  retrieve remote (jobId (jobObjects w l)) = Some b ->
  status b = "completed" ->
  output_file_id b = Some file ->
  outputRecords remote file = Some (map Answer texts) ->
  (length texts <= length (requests (jobObjects w l)))%nat ->
  exists rs w1,
    storeResults 0 (map Answer texts) (requests (jobObjects w l)) = (Ret tt, rs)
    /\ pollJob remote l w = (Ret tt, w1)
    /\ jobObjects w1 l = setFinished true (setRequests rs (jobObjects w l))
    /\ jobs w1 = jobs w.
Proof.
  intros Hfin Hb Hst Hout Hrec Hlen.
  destruct (storeResults_answers texts 0 (requests (jobObjects w l)) ltac:(simpl; lia))
    as [rs Hrs].
  exists rs. eexists. split; [exact Hrs|].
  unfold pollJob. rewrite Hfin, Hb, Hst, Hout, Hrec. simpl. rewrite Hrs.
  split; [reflexivity|]. simpl. now rewrite update_eq.
Qed.

Lemma pendingJobs_nonempty w l :
  l ∈ jobs w -> finished (jobObjects w l) = false ->
  (length (pendingJobs w) =? 0)%nat = false.
Proof.
  intros Hl Hfin. apply Nat.eqb_neq. intros Hlen.
  apply nil_length_inv in Hlen.
  assert (Hin : l ∈ pendingJobs w).
  { unfold pendingJobs. apply elem_of_filter_bool. now rewrite Hfin. }
  rewrite Hlen in Hin. now apply elem_of_nil in Hin.
Qed.

(** Later cycles do not touch a finished job. *)
Lemma pollCycles_finished remotes : forall w x,
  finished (jobObjects w x) = true ->
  jobObjects (pollCycles remotes w) x = jobObjects w x.
Proof.
  induction remotes as [|remote remotes IH]; intros w x Hx; simpl; [reflexivity|].
  assert (Hone : jobObjects (snd (checkBatchStatus remote w)) x = jobObjects w x).
  { unfold checkBatchStatus. destruct (length (pendingJobs w) =? 0)%nat; [reflexivity|].
    destruct (pollJobs remote _ _) as [r0 w2] eqn:Hp.
    destruct (pollJobs_frame _ _ _ _ _ Hp) as (_ & Hfin & _).
    destruct r0 as [[]|e|]; simpl; now apply Hfin. }
  rewrite IH; [exact Hone|]. now rewrite Hone.
Qed.

(** C7, as the code has it. A poll cycle whose loop reaches an unfinished
    job (the jobs before it in the store are polled without an exception)
    whose batch is completed, with a results file of one record per request,
    each holding an answer, gives the request at each position the answer
    at that position as its [result] and leaves its other fields alone,
    marks the job finished and keeps it in [jobs]. The store is written
    once, after the loop: it holds the job when the cycle runs to its end,
    and is left as it was when a later job makes the cycle throw. Later
    cycles of the process leave the job as it is, and they never ask the
    remote side about its id when the cycle ran to its end or no other job
    has that id. *)
Theorem checkBatchStatus_completed_job remote w l pre post b file texts :
  jobs w = pre ++ l :: post ->
  l ∉ pre ->
  fst (pollJobs remote pre (print (Log "Checking jobs in progress") w)) = Ret tt ->
  finished (jobObjects w l) = false ->
  retrieve remote (jobId (jobObjects w l)) = Some b ->
  status b = "completed" ->
  output_file_id b = Some file ->
  outputRecords remote file = Some (map Answer texts) ->
  length texts = length (requests (jobObjects w l)) ->
  let w' := snd (checkBatchStatus remote w) in
  finished (jobObjects w' l) = true
  /\ jobId (jobObjects w' l) = jobId (jobObjects w l)
  /\ length (requests (jobObjects w' l)) = length (requests (jobObjects w l))
  /\ (forall i r, requests (jobObjects w l) !! i = Some r ->
        exists text,
          texts !! i = Some text
          /\ requests (jobObjects w' l) !! i
             = Some {| reqContent := reqContent r; reqId := reqId r; result := text |})
  /\ l ∈ jobs w'
  /\ (fst (checkBatchStatus remote w) = Ret tt ->
      cacheFile w' = Some (map (jobObjects w') (jobs w')))
  /\ (fst (checkBatchStatus remote w) <> Ret tt -> cacheFile w' = cacheFile w)
  /\ (forall remotes, jobObjects (pollCycles remotes w') l = jobObjects w' l)
  /\ (fst (checkBatchStatus remote w) = Ret tt
      \/ (forall j, j ∈ jobs w -> jobId (jobObjects w j) = jobId (jobObjects w l) -> j = l) ->
      forall remotes, exists extra,
        network (pollCycles remotes w') = network w' ++ extra
        /\ BatchRetrieve (jobId (jobObjects w l)) ∉ extra).
Proof.
  intros Hjobs Hpre Hreach Hfin Hb Hst Hout Hrec Hlen.
  set (w0 := print (Log "Checking jobs in progress") w) in *.
  assert (Hl : l ∈ jobs w) by (rewrite Hjobs; apply elem_of_app; right; now left).
  assert (Hc : completedWith remote (jobId (jobObjects w l)) (map Answer texts))
    by (now exists b, file).
  (* the loop up to the job *)
  destruct (pollJobs remote pre w0) as [r1 w1] eqn:Hp1. simpl in Hreach. subst r1.
  assert (Hsame : jobObjects w1 l = jobObjects w l)
    by (now rewrite (pollJobs_other _ _ _ _ _ _ Hp1 Hpre)).
  assert (Hl1 : l ∈ jobs w1) by (now apply (pollJobs_keeps _ _ _ _ _ _ _ l Hc Hp1)).
  (* the job *)
  destruct (pollJob_stores remote l w1 b file texts
              ltac:(now rewrite Hsame) ltac:(now rewrite Hsame) Hst Hout Hrec
              ltac:(rewrite Hsame; lia))
    as (rs & w2 & Hrs & Hp2 & Hjob2 & Hjobs2).
  rewrite Hsame in Hrs, Hjob2.
  destruct (storeResults_spec _ 0 _ _ (Nat.le_0_l _) Hrs) as (Hlen2 & _ & Hset & _).
  (* the rest of the loop *)
  destruct (pollJobs remote post w2) as [r3 w3] eqn:Hp3.
  assert (Hloop : pollJobs remote (jobs w0) w0 = (r3, w3)).
  { change (jobs w0) with (jobs w). rewrite Hjobs, pollJobs_app, Hp1. simpl.
    now rewrite Hp2. }
  destruct (pollJobs_frame _ _ _ _ _ Hp3) as (_ & Hkeep3 & _).
  assert (Hjob3 : jobObjects w3 l = setFinished true (setRequests rs (jobObjects w l))).
  { rewrite Hkeep3; [exact Hjob2|]. now rewrite Hjob2. }
  assert (Hl3 : l ∈ jobs w3).
  { apply (pollJobs_keeps _ _ _ _ _ _ _ l Hc Hp3); [now rewrite Hjobs2|now rewrite Hjob2]. }
  pose proof (pollJobs_cacheFile _ _ _ _ _ Hloop) as Hcache.
  destruct (pollJobs_frame _ _ _ _ _ Hloop) as (Hids & _ & Hsub & _).
  (* the cycle *)
  assert (Hcycle : checkBatchStatus remote w
                   = match r3 with Ret _ => (Ret tt, writeCache w3) | _ => (r3, w3) end).
  { unfold checkBatchStatus. rewrite (pendingJobs_nonempty w l Hl Hfin).
    fold w0. rewrite Hloop. now destruct r3 as [[]|e|]. }
  assert (Hobj : jobObjects (snd (checkBatchStatus remote w)) = jobObjects w3
                 /\ jobs (snd (checkBatchStatus remote w)) = jobs w3
                 /\ network (snd (checkBatchStatus remote w)) = network w3).
  { rewrite Hcycle. now destruct r3 as [[]|e|]. }
  destruct Hobj as (Hobj & Hjs & Hnet).
  intros w'. subst w'.
  rewrite Hobj, Hjs, Hjob3. simpl.
  split; [reflexivity|]. split; [reflexivity|]. split; [exact Hlen2|]. split.
  { intros i r Hr. pose proof (lookup_lt_Some _ _ _ Hr) as Hi.
    destruct (lookup_lt_is_Some_2 texts i ltac:(lia)) as [text Ht].
    exists text. split; [exact Ht|].
    destruct (Hset i (Answer text)) as (text' & r' & Heq & Hr' & Hs').
    { now rewrite list_lookup_fmap, Ht. }
    simpl in Hr', Hs'. simplify_eq. exact Hs'. }
  split; [exact Hl3|]. split.
  { intros Hret. rewrite Hcycle in Hret |- *. now destruct r3 as [[]|e|]. }
  split.
  { intros Hret. rewrite Hcycle in Hret |- *.
    destruct r3 as [[]|e|]; [done|exact Hcache..]. }
  split.
  { intros remotes. rewrite pollCycles_finished; [now rewrite Hobj|].
    now rewrite Hobj, Hjob3. }
  intros Hsettled remotes.
  apply pollCycles_settled. intros j Hj Hid.
  rewrite Hjs in Hj. rewrite Hobj in Hid |- *.
  pose proof (Hsub j Hj) as Hj0. rewrite Hids in Hid.
  destruct Hsettled as [Hret|Hunique].
  - rewrite Hcycle in Hret. destruct r3 as [[]|e|]; try done.
    apply (pollJobs_settles _ _ _ _ _ _ Hc Hloop j Hid). now left.
  - rewrite (Hunique j Hj0 Hid). now rewrite Hjob3.
Qed.

End PollFacts.

(** ** The all-or-nothing write of [translatePath] *)

Section WriteFacts.

Variable cfg : Config.
Variable env : Env.

Lemma translate_subtitleFiles group number w :
  subtitleFiles (snd (translate cfg env group number w)) = subtitleFiles w.
Proof.
  apply (translate_ind cfg env
           (fun _ w res => subtitleFiles (snd res) = subtitleFiles w)).
  - intros n w0 r w1 Ha. destruct (attempt_frame _ _ _ _ _ _ _ Ha) as (Hf & _).
    exact Hf.
  - intros n w0 w1 Ha IH. destruct (attempt_frame _ _ _ _ _ _ _ Ha) as (Hf & _).
    congruence.
Qed.

Lemma runWindow_subtitleFiles window : forall w,
  subtitleFiles (snd (runWindow cfg env window w)) = subtitleFiles w.
Proof.
  induction window as [|group window IH]; intros w; simpl; [reflexivity|].
  pose proof (translate_subtitleFiles group 0 w) as Ht.
  destruct (translate cfg env group 0 w) as [r w1]. simpl in Ht.
  specialize (IH w1). destruct (runWindow cfg env window w1) as [e w2].
  simpl in *. congruence.
Qed.

Lemma runWindows_subtitleFiles ws : forall w,
  subtitleFiles (snd (runWindows cfg env ws w)) = subtitleFiles w.
Proof.
  induction ws as [|window ws IH]; intros w; simpl; [reflexivity|].
  pose proof (runWindow_subtitleFiles window w) as Hw.
  destruct (runWindow cfg env window w) as [[message|] w1]; simpl in *; [exact Hw|].
  rewrite IH. exact Hw.
Qed.

Lemma everyTranslated_true w matches :
  everyTranslated w matches = true <->
  forall m, m ∈ matches ->
    exists c rest, translatedContent (segments w m) = Some (String c rest).
Proof.
  unfold everyTranslated. rewrite forallb_forall. split; intros H m Hm.
  - apply list_elem_of_In, H in Hm.
    destruct (translatedContent (segments w m)) as [[|c rest]|]; try discriminate. eauto.
  - apply list_elem_of_In, H in Hm. now destruct Hm as (c & rest & ->).
Qed.

(** C10: the translated subtitle is written, and [false] returned, only
    when the [translatedContent] of every segment is a non-empty string;
    otherwise no file is written. In particular one segment whose
    translation is the empty string withholds the file, whatever the other
    segments carry. *)
Theorem translatePath_all_or_nothing fileName subtitlePath matches w :
  let res := translatePathTail cfg env fileName subtitlePath matches w in
  ((fst res = Some false
    /\ (exists file, subtitleFiles (snd res) = subtitleFiles w ++ [file])
    /\ (forall m, m ∈ matches ->
          exists c rest, translatedContent (segments (snd res) m) = Some (String c rest)))
   \/ (fst res <> Some false /\ subtitleFiles (snd res) = subtitleFiles w))
  /\ (forall m, m ∈ matches ->
        translatedContent (segments (snd res) m) = Some EmptyString ->
        fst res <> Some false /\ subtitleFiles (snd res) = subtitleFiles w).
Proof.
  intros res.
  assert (Hmain :
    (fst res = Some false
     /\ (exists file, subtitleFiles (snd res) = subtitleFiles w ++ [file])
     /\ (forall m, m ∈ matches ->
           exists c rest, translatedContent (segments (snd res) m) = Some (String c rest)))
    \/ (fst res <> Some false /\ subtitleFiles (snd res) = subtitleFiles w)).
  { subst res. unfold translatePathTail.
    match goal with |- context [runWindows cfg env ?ws w] =>
      pose proof (runWindows_subtitleFiles ws w) as Hf;
      destruct (runWindows cfg env ws w) as [[message|] w1] end; simpl in Hf.
    - right. simpl. split; [discriminate|exact Hf].
    - destruct (everyTranslated w1 matches) eqn:He.
      + left. simpl. split; [reflexivity|].
        split; [eexists; simpl; rewrite Hf; reflexivity|].
        now apply everyTranslated_true.
      + right. simpl. split; [discriminate|exact Hf]. }
  split; [exact Hmain|].
  intros m Hm Hempty. destruct Hmain as [(_ & _ & Hall)|Hno]; [|exact Hno].
  destruct (Hall m Hm) as (c & rest & Hc). congruence.
Qed.

End WriteFacts.

(** ** The properties on the sample data *)

Import Samples.
Import RaceSamples.

(** *** The grouper *)

(** C2: a first segment that alone exceeds the budget leaves an empty group
    in front of its own group: the loop closes [currentGroup] without the
    test that guards the final [push]. *)
Example oversized_first_segment_leaves_empty_group :
  groupSegmentsByTokenLength content unitTokens [eight] 3 = [[]; [eight]].
Proof. reflexivity. Qed.

(** The same with segments after it, within a budget that the others meet. *)
Example oversized_first_segment_then_others :
  groupSegmentsByTokenLength content unitTokens [eight; three; three] 7
  = [[]; [eight]; [three; three]].
Proof. reflexivity. Qed.

(** C3 as stated fails: two segments of 3 tokens share a group under a
    budget of 10, and that group costs 3 + 4 + 3 + 4 = 14 when the delimiter
    is charged once per segment. *)
Lemma per_segment_cost_exceeds_budget :
  groupSegmentsByTokenLength content unitTokens [three; three] 10 = [[three; three]]
  /\ ~ Forall (fun g => costPerSegment content unitTokens g <= 10 \/ length g = 1%nat)
         (groupSegmentsByTokenLength content unitTokens [three; three] 10).
Proof.
  split; [reflexivity|]. intros H. apply Forall_cons in H as [[H|H] _].
  - vm_compute in H. now apply H.
  - discriminate.
Qed.

Lemma group_cost_bound_witness :
  0 <= 10
  /\ Forall (fun g => tokenSum content unitTokens g <= 10 \/ length g = 1%nat)
       (groupSegmentsByTokenLength content unitTokens [eight; five; five] 10)
  /\ (forall g, head (groupSegmentsByTokenLength content unitTokens [eight; five; five] 10)
                = Some g -> costInterSegment content unitTokens g <= 10).
Proof.
  split; [lia|].
  apply (group_cost_bound content unitTokens [eight; five; five] 10). lia.
Defined.

(** A group opened by the [else] branch starts from the bare token count of
    its first segment, so that even the delimiter between neighbours is not
    charged in full: 5 + 4 + 5 = 14 > 10. *)
Example later_group_exceeds_inter_segment_cost :
  groupSegmentsByTokenLength content unitTokens [eight; five; five] 10
  = [[eight]; [five; five]]
  /\ costInterSegment content unitTokens [five; five] = 14.
Proof. split; reflexivity. Qed.

(** *** Translation of a group *)


(** The three subtitles after the three-line answer. *)
Example three_lines_are_assigned :
  let res := translate sync (answering threeLines) [0; 1; 2]%nat 0 fresh in
  fst res = Ret true
  /\ map (fun m => translatedContent (segments (snd res) m)) [0; 1; 2]%nat
     = [Some "Hola."; Some "Que tal?"; Some "Adios."].
Proof. split; reflexivity. Qed.

(** A line is trimmed before its marker is stripped, not after: blanks
    that follow the marker stay, and a marker with nothing after it is kept
    as the fragment. *)
Example marker_is_stripped_after_trimming :
  parseTranslation ("1.  a" +:+ line +:+ "2. " +:+ line +:+ " 3. c  ") = [" a"; "2."; "c"].
Proof. reflexivity. Qed.



(** The run of the example of the specification: two lines for three
    subtitles, twice, and the report [2/3]. *)
Example merged_lines_are_reported :
  let res := translate sync (answering twoLines) [0; 1; 2]%nat 0 fresh in
  fst res = Ret false
  /\ console (snd res) = [mismatchReport 2 3]
  /\ map (fun m => translatedContent (segments (snd res) m)) [0; 1; 2]%nat
     = [None; None; None].
Proof. repeat split. Qed.


(** In batch mode the attempt that follows a mismatch finds the request
    gone from the store and queues the group again; nothing is reported. *)
Example batch_mismatch_requeues_the_group :
  let res := translate batched (answering EmptyString) [0; 1; 2]%nat 0 resolved in
  fst res = Ret false
  /\ toBatch (snd res) = [ {| custom_id := 100; bodyText := helloText |} ]
  /\ console (snd res) = []
  /\ cacheFile (snd res)
     = Some [mkJob "batch_1" [mkRequest "1. Bye." "batch_1" (Some "1. Adios.")] true].
Proof. repeat split. Qed.




(** The exchange is recorded on the successful fifth attempt and on a
    failing one alike. *)
Example exchange_recorded_success_or_not :
  let good := translate patient (answering threeLines) [0; 1; 2]%nat 4 fresh in
  let bad := translate patient (answering twoLines) [0; 1; 2]%nat 5 fresh in
  fst good = Ret true
  /\ mostErrored (snd good) = [Exchange "PROMPT" helloText threeLines]
  /\ fst bad = Ret false
  /\ mostErrored (snd bad) = [Exchange "PROMPT" helloText twoLines].
Proof. repeat split. Qed.


(** *** Batch mode *)

(** C6 as stated fails: the store is the only place [getTranslation] looks
    at, so a text requested twice before the pending list has been
    submitted is enqueued twice, under two correlation ids. *)
Lemma second_request_enqueued_again :
  let first := getTranslation batched (answering threeLines) helloText fresh in
  let second := getTranslation batched (answering threeLines) helloText (snd first) in
  fst first = Ret None
  /\ fst second = Ret None
  /\ toBatch (snd second)
     = [ {| custom_id := 100; bodyText := helloText |};
         {| custom_id := 101; bodyText := helloText |} ].
Proof. repeat split. Qed.

Lemma getTranslation_reuses_stored_request_witness :
  exists r,
    getTranslation batched (answering threeLines) helloText stored = (Ret r, stored)
    /\ ((forall j, j ∈ jobs stored -> is_Some (findRequest helloText (jobObjects stored j)) ->
                   finished (jobObjects stored j) = false) ->
        r = None).
Proof.
  apply (getTranslation_reuses_stored_request batched (answering threeLines) helloText
           stored 0%nat).
  - reflexivity.
  - apply list_elem_of_here.
  - vm_compute. eauto.
Defined.

Lemma checkBatchStatus_completed_job_witness :
  let w' := snd (checkBatchStatus completed stored) in
  finished (jobObjects w' 0%nat) = true
  /\ jobId (jobObjects w' 0%nat) = jobId (jobObjects stored 0%nat)
  /\ length (requests (jobObjects w' 0%nat)) = length (requests (jobObjects stored 0%nat))
  /\ (forall i r, requests (jobObjects stored 0%nat) !! i = Some r ->
        exists text,
          [Some threeLines; Some "1. Adios."] !! i = Some text
          /\ requests (jobObjects w' 0%nat) !! i
             = Some {| reqContent := reqContent r; reqId := reqId r; result := text |})
  /\ 0%nat ∈ jobs w'
  /\ (fst (checkBatchStatus completed stored) = Ret tt ->
      cacheFile w' = Some (map (jobObjects w') (jobs w')))
  /\ (fst (checkBatchStatus completed stored) <> Ret tt -> cacheFile w' = cacheFile stored)
  /\ (forall remotes, jobObjects (pollCycles remotes w') 0%nat = jobObjects w' 0%nat)
  /\ (fst (checkBatchStatus completed stored) = Ret tt
      \/ (forall j, j ∈ jobs stored ->
                    jobId (jobObjects stored j) = jobId (jobObjects stored 0%nat) ->
                    j = 0%nat) ->
      forall remotes, exists extra,
        network (pollCycles remotes w') = network w' ++ extra
        /\ BatchRetrieve (jobId (jobObjects stored 0%nat)) ∉ extra).
Proof.
  apply (checkBatchStatus_completed_job completed stored 0%nat [] []
           (mkBatch "completed" (Some "file_1") None) "file_1"
           [Some threeLines; Some "1. Adios."]).
  - reflexivity.
  - apply not_elem_of_nil.
  - reflexivity.
  - reflexivity.
  - reflexivity.
  - reflexivity.
  - reflexivity.
  - reflexivity.
  - reflexivity.
Defined.

(** The example of the specification: one completed job with two requests;
    after the poll both results are stored, the job is finished and
    written, and two further polls send nothing. *)
Example completed_job_is_downloaded_once :
  let w' := snd (checkBatchStatus completed stored) in
  map (jobObjects w') (jobs w')
  = [mkJob "batch_1"
       [mkRequest helloText "batch_1" (Some threeLines);
        mkRequest "1. Bye." "batch_1" (Some "1. Adios.")] true]
  /\ cacheFile w' = Some (map (jobObjects w') (jobs w'))
  /\ network w' = [BatchRetrieve "batch_1"; FileContent "file_1"]
  /\ network (pollCycles [completed; completed] w') = network w'.
Proof. repeat split. Qed.

(** C7 as stated fails: the store holds two submitted jobs; the batch of
    the first is completed with its results, the request for the batch of
    the second is rejected. The cycle stores the results in the first job
    and marks it finished, and then throws: the file of the store is not
    written, and still shows the job unfinished and without results. *)
Lemma later_rejection_leaves_job_unpersisted :
  let res := checkBatchStatus halfway storedTwice in
  finished (jobObjects storedTwice 0%nat) = false
  /\ retrieve halfway (jobId (jobObjects storedTwice 0%nat))
     = Some (mkBatch "completed" (Some "file_1") None)
  /\ outputRecords halfway "file_1"
     = Some [Answer (Some threeLines); Answer (Some "1. Adios.")]
  /\ fst res = Throw "batches.retrieve"
  /\ jobObjects (snd res) 0%nat
     = mkJob "batch_1"
         [mkRequest helloText "batch_1" (Some threeLines);
          mkRequest "1. Bye." "batch_1" (Some "1. Adios.")] true
  /\ cacheFile (snd res)
     = Some [mkJob "batch_1"
               [mkRequest helloText "batch_1" None; mkRequest "1. Bye." "batch_1" None] false;
             mkJob "batch_2" [mkRequest farewell "batch_2" None] false]
  /\ network (snd res)
     = [BatchRetrieve "batch_1"; FileContent "file_1"; BatchRetrieve "batch_2"].
Proof. repeat split. Qed.

(** The records and the requests need not be as many. With one record for
    the two requests of the job the second request stays without a result,
    and the job is marked finished all the same; with three records the
    cycle throws at the third, and the job keeps the two results and stays
    unfinished. *)
Example results_file_of_another_length :
  let short := mkRemote (retrieve completed) (fun _ => Some [Answer (Some threeLines)])
                 (errorLines completed) in
  let long := mkRemote (retrieve completed)
                (fun _ => Some [Answer (Some threeLines); Answer (Some "1. Adios.");
                                Answer None])
                (errorLines completed) in
  jobObjects (snd (checkBatchStatus short stored)) 0%nat
  = mkJob "batch_1"
      [mkRequest helloText "batch_1" (Some threeLines);
       mkRequest "1. Bye." "batch_1" None] true
  /\ fst (checkBatchStatus long stored) = Throw "TypeError"
  /\ jobObjects (snd (checkBatchStatus long stored)) 0%nat
     = mkJob "batch_1"
         [mkRequest helloText "batch_1" (Some threeLines);
          mkRequest "1. Bye." "batch_1" (Some "1. Adios.")] false.
Proof. repeat split. Qed.

(** *** The write of the translated subtitle *)

Lemma translatePath_all_or_nothing_witness :
  let res := translatePathTail sync (answering blankLine) "movie" "movie.en.srt"
               [0; 1; 2]%nat fresh in
  translatedContent (segments (snd res) 1%nat) = Some EmptyString
  /\ fst res <> Some false
  /\ subtitleFiles (snd res) = subtitleFiles fresh.
Proof.
  split; [reflexivity|].
  apply (proj2 (translatePath_all_or_nothing sync (answering blankLine) "movie"
                  "movie.en.srt" [0; 1; 2]%nat fresh) 1%nat).
  - apply list_elem_of_further, list_elem_of_here.
  - reflexivity.
Defined.

(** Every segment received an assignment, the second one the empty string,
    and no file was written; with three proper lines the file is written. *)
Example blank_line_withholds_the_file :
  let res := translatePathTail sync (answering blankLine) "movie" "movie.en.srt"
               [0; 1; 2]%nat fresh in
  map (fun m => translatedContent (segments (snd res) m)) [0; 1; 2]%nat
  = [Some "Hola."; Some EmptyString; Some "Adios."]
  /\ fst res = Some true
  /\ subtitleFiles (snd res) = [].
Proof. repeat split. Qed.

Example three_lines_write_the_file :
  let res := translatePathTail sync (answering threeLines) "movie" "movie.en.srt"
               [0; 1; 2]%nat fresh in
  fst res = Some false
  /\ exists file, subtitleFiles (snd res) = [file]
                  /\ sourcePath file = "movie.en.srt"
                  /\ languageAlias file = Some "es".
Proof. split; [reflexivity|]. eexists. repeat split. Qed.

(** * Further properties *)

(** ** More on the grouper *)

Section GrouperMore.

Context {A : Type}.
Variable contentOf : A -> string.
Variable numTokens : string -> nat.

Abbreviation step' := (groupStep contentOf numTokens).
Abbreviation loop' := (groupLoop contentOf numTokens).
Abbreviation cost' s := (Z.of_nat (numTokens (contentOf s))).
Abbreviation group' := (groupSegmentsByTokenLength contentOf numTokens).

(** Once every closed group and the open group hold a segment, every group
    of the result does. *)
Lemma groupLoop_all_nonempty budget l : forall st,
  Forall (fun g => g <> []) (groups st) ->
  currentGroup st <> [] ->
  Forall (fun g => g <> []) (flushGroup (loop' budget st l)).
Proof.
  induction l as [|s l IH]; intros st Hg Hc.
  - simpl. unfold flushGroup. destruct (currentGroup st) eqn:E; [done|]. simpl.
    apply Forall_app. split; [exact Hg|]. now constructor.
  - rewrite groupLoop_cons. apply IH; unfold groupStep; destruct (_ <=? _); simpl.
    + exact Hg.
    + apply Forall_app. split; [exact Hg|]. now constructor.
    + now destruct (currentGroup st).
    + discriminate.
Qed.

(** X2: the result holds an empty group exactly when the first segment
    alone costs more than the budget; the empty group is then the first
    group, and no other group is empty. *)
Theorem empty_group_iff_first_segment_oversized (segments : list A) (budget : Z) :
  ([] ∈ groupSegmentsByTokenLength contentOf numTokens segments budget <->
   exists s rest, segments = s :: rest /\ budget < cost' s)
  /\ Forall (fun g => g <> [])
       (tail (groupSegmentsByTokenLength contentOf numTokens segments budget))
  /\ (forall s rest, segments = s :: rest -> budget < cost' s ->
        exists after,
          groupSegmentsByTokenLength contentOf numTokens segments budget
          = [] :: [s] :: after).
Proof.
  set (init := {| groups := []; currentGroup := []; currentGroupTokenCount := 0 |}
               : GroupState (A:=A)).
  assert (Hbig : forall s rest, budget < cost' s ->
            exists after, group' (s :: rest) budget = [] :: [s] :: after).
  { intros s rest Hs. unfold groupSegmentsByTokenLength. fold init. rewrite groupLoop_cons.
    destruct (oversized_open_group contentOf numTokens budget s rest (step' budget init s))
      as (gs & Hgs & _).
    - unfold groupStep. simpl. destruct (Z.leb_spec (0 + cost' s) budget); [lia|done].
    - unfold groupStep. simpl. destruct (Z.leb_spec (0 + cost' s) budget); [lia|simpl; lia].
    - exists gs. rewrite Hgs. unfold groupStep. simpl.
      destruct (Z.leb_spec (0 + cost' s) budget); [lia|done]. }
  split; [|split].
  - split.
    + intros Hin. destruct segments as [|s rest].
      * vm_compute in Hin. now apply elem_of_nil in Hin.
      * exists s, rest. split; [done|].
        destruct (Z.ltb_spec budget (cost' s)) as [Hlt|Hge]; [exact Hlt|exfalso].
        unfold groupSegmentsByTokenLength in Hin. fold init in Hin.
        rewrite groupLoop_cons in Hin.
        assert (Hall : Forall (fun g => g <> [])
                         (flushGroup (loop' budget (step' budget init s) rest))).
        { apply groupLoop_all_nonempty; unfold groupStep; simpl;
            destruct (Z.leb_spec (0 + cost' s) budget); try lia; simpl; try done. }
        rewrite Forall_forall in Hall. now apply (Hall [] Hin).
    + intros (s & rest & -> & Hs). destruct (Hbig s rest Hs) as [after ->]. now left.
  - apply later_groups_nonempty.
  - intros s rest -> Hs. now apply Hbig.
Qed.

(** While the cost charged between neighbours stays within the budget the
    loop only ever appends to the open group. *)
Lemma groupLoop_fits budget l : forall st,
  l <> [] ->
  0 <= currentGroupTokenCount st ->
  currentGroupTokenCount st + costInterSegment contentOf numTokens l <= budget ->
  groups (loop' budget st l) = groups st
  /\ currentGroup (loop' budget st l) = currentGroup st ++ l.
Proof.
  induction l as [|s l IH]; intros st Hne Hnn Hfit; [done|].
  rewrite groupLoop_cons. unfold costInterSegment, tokenSum in Hfit. simpl in Hfit.
  fold (tokenSum contentOf numTokens l) in Hfit.
  assert (Hts : 0 <= tokenSum contentOf numTokens l).
  { clear. induction l as [|x l IHl]; simpl; [lia|].
    fold (tokenSum contentOf numTokens l). lia. }
  assert (Hstep : step' budget st s
                  = {| groups := groups st;
                       currentGroup := currentGroup st ++ [s];
                       currentGroupTokenCount :=
                         currentGroupTokenCount st + (cost' s + 4) |}).
  { unfold groupStep. destruct (Z.leb_spec (currentGroupTokenCount st + cost' s) budget);
      [done|lia]. }
  rewrite Hstep. destruct l as [|x l'].
  - simpl. split; reflexivity.
  - destruct (IH {| groups := groups st;
                    currentGroup := currentGroup st ++ [s];
                    currentGroupTokenCount :=
                      currentGroupTokenCount st + (cost' s + 4) |})
      as [Hg Hc]; [done | simpl; lia | |].
    + simpl. unfold costInterSegment. simpl length in *. simpl Nat.pred in *. lia.
    + split; [exact Hg|]. rewrite Hc. simpl. now rewrite <- app_assoc.
Qed.

(** X3: segments whose token counts, plus the delimiter between
    neighbours, fit the budget together are sent as a single group. *)
Theorem everything_fits_in_one_group (segments : list A) (budget : Z) :
  segments <> [] ->
  costInterSegment contentOf numTokens segments <= budget ->
  groupSegmentsByTokenLength contentOf numTokens segments budget = [segments].
Proof.
  intros Hne Hfit. unfold groupSegmentsByTokenLength.
  destruct (groupLoop_fits budget segments
              {| groups := []; currentGroup := []; currentGroupTokenCount := 0 |})
    as [Hg Hc]; [done | simpl; lia | simpl; lia |].
  unfold flushGroup. rewrite Hg, Hc. simpl.
  destruct segments; [done|reflexivity].
Qed.

End GrouperMore.

Lemma oversized_segment_alone_witness :
  3 < Z.of_nat (unitTokens (content eight))
  /\ exists before after,
       groupSegmentsByTokenLength content unitTokens ([three] ++ eight :: [three]) 3
       = before ++ [eight] :: after
       /\ concat before = [three] /\ concat after = [three].
Proof.
  split; [vm_compute; reflexivity|].
  apply (oversized_segment_alone content unitTokens [three] eight [three] 3).
  vm_compute. reflexivity.
Defined.

Lemma everything_fits_in_one_group_witness :
  groupSegmentsByTokenLength content unitTokens [three; five; eight] 24
  = [[three; five; eight]].
Proof.
  apply (everything_fits_in_one_group content unitTokens [three; five; eight] 24).
  - discriminate.
  - vm_compute. discriminate.
Defined.

(** ** More on [translate] *)

Section TranslateMore.

Variable cfg : Config.
Variable env : Env.

Lemma assignFrom_keeps split group : forall k h m,
  header (assignFrom k split group h m) = header (h m)
  /\ content (assignFrom k split group h m) = content (h m).
Proof.
  induction group as [|g group IH]; intros k h m; [done|]. simpl.
  destruct (IH (S k) (update h g (setTranslatedContent (split !! k) (h g))) m) as [-> ->].
  unfold update. now destruct (m =? g)%nat eqn:E; [apply Nat.eqb_eq in E as ->|].
Qed.

Lemma assignFrom_assigned split group : forall k h m,
  m ∈ group ->
  exists i, (i < length group)%nat
    /\ translatedContent (assignFrom k split group h m) = split !! (k + i)%nat.
Proof.
  induction group as [|g group IH]; intros k h m Hm; [now apply elem_of_nil in Hm|].
  simpl. destruct (decide (m ∈ group)) as [Hin|Hout].
  - destruct (IH (S k) (update h g (setTranslatedContent (split !! k) (h g))) m Hin)
      as (i & Hi & ->).
    exists (S i). split; [lia|]. f_equal. lia.
  - apply elem_of_cons in Hm as [->|Hm]; [|done].
    exists 0%nat. split; [lia|]. rewrite (assignFrom_other _ _ _ _ _ Hout), update_eq.
    simpl. now rewrite Nat.add_0_r.
Qed.

(** The segments after an activation that returned [true]. *)
Lemma attempt_success group number w wa :
  attempt cfg env group number w = (Return (Ret true), wa) ->
  exists split,
    length split = length group
    /\ segments wa = assignFrom 0 split group (segments w).
Proof.
  unfold attempt.
  destruct (getTranslation cfg env (groupText w group) w) as [r wg] eqn:Hget.
  destruct (getTranslation_frame _ _ _ _ _ _ Hget) as (Hs & _).
  destruct r as [translated|e|]; [|done..].
  destruct (Js.truthy translated); simpl; [|done].
  match goal with |- context [recordAttempt ?a ?b ?c ?d ?e ?f ?g] =>
    destruct (recordAttempt_frame a b c d e f g) as (Hs2 & _) end.
  rewrite length_contents.
  destruct (Nat.eqb_spec (length (parseTranslation (default EmptyString translated)))
              (length group)) as [Hlen|Hlen]; simpl.
  - intros [= <-]. eexists. split; [exact Hlen|]. simpl. now rewrite Hs2, Hs.
  - destruct (if batch cfg then _ else _) as [[[]|e|] w3]; [|done..].
    now destruct (MAX_TRIES cfg <=? number).
Qed.

(** X4: a group is translated all or nothing. When [translate] returns
    [true] every segment of the group carries a translation; in every
    other case (queued, abnormal finish, exception, retries exhausted) no
    segment has been touched. *)
Theorem translate_group_all_or_nothing group number w :
  let res := translate cfg env group number w in
  (fst res = Ret true ->
   forall m, m ∈ group -> is_Some (translatedContent (segments (snd res) m)))
  /\ (fst res <> Ret true -> segments (snd res) = segments w).
Proof.
  apply (translate_ind cfg env (fun _ w res =>
    (fst res = Ret true ->
     forall m, m ∈ group -> is_Some (translatedContent (segments (snd res) m)))
    /\ (fst res <> Ret true -> segments (snd res) = segments w))).
  - intros n w0 r w1 Ha. simpl. split.
    + intros -> m Hm. destruct (attempt_success _ _ _ _ Ha) as (split & Hlen & ->).
      destruct (assignFrom_assigned split group 0 (segments w0) m Hm) as (i & Hi & ->).
      apply lookup_lt_is_Some_2. simpl. lia.
    + intros Hr. destruct (attempt_frame _ _ _ _ _ _ _ Ha) as (_ & _ & Hs & _).
      apply Hs. congruence.
  - intros n w0 w1 Ha [IH1 IH2].
    destruct (attempt_frame _ _ _ _ _ _ _ Ha) as (_ & _ & Hs & _).
    specialize (Hs ltac:(discriminate)). split; [exact IH1|].
    intros Hr. rewrite (IH2 Hr). exact Hs.
Qed.

(** X5: [translate] writes nothing but the [translatedContent] of the
    segments of its group: headers and contents stay, and so does every
    segment outside the group. *)
Theorem translate_writes_only_translatedContent group number w :
  let res := translate cfg env group number w in
  (forall m, header (segments (snd res) m) = header (segments w m)
             /\ content (segments (snd res) m) = content (segments w m))
  /\ (forall m, m ∉ group -> segments (snd res) m = segments w m).
Proof.
  apply (translate_ind cfg env (fun _ w res =>
    (forall m, header (segments (snd res) m) = header (segments w m)
               /\ content (segments (snd res) m) = content (segments w m))
    /\ (forall m, m ∉ group -> segments (snd res) m = segments w m))).
  - intros n w0 r w1 Ha. simpl.
    assert (Hcase : r = Ret true \/ r <> Ret true)
      by (destruct r as [[|]|e|]; (now left) || (now right)).
    destruct Hcase as [->|Hr].
    + destruct (attempt_success _ _ _ _ Ha) as (split & _ & ->).
      split; [intros m; apply assignFrom_keeps|intros m Hm; now apply assignFrom_other].
    + destruct (attempt_frame _ _ _ _ _ _ _ Ha) as (_ & _ & Hs & _).
      rewrite Hs by congruence. now split.
  - intros n w0 w1 Ha [IH1 IH2].
    destruct (attempt_frame _ _ _ _ _ _ _ Ha) as (_ & _ & Hs & _).
    specialize (Hs ltac:(discriminate)). rewrite <- Hs. now split.
Qed.

Lemma printTable_stores os : forall ss w,
  let w' := printTable os ss w in
  toBatch w' = toBatch w /\ cacheFile w' = cacheFile w /\ randomDraws w' = randomDraws w.
Proof.
  induction os as [|o os IH]; intros [|s ss] w; simpl; try tauto.
  destruct (IH ss (print (tableRow o s) w)) as (?&?&?). simpl in *. tauto.
Qed.

Lemma recordAttempt_stores text translated number os ss w :
  let w' := recordAttempt cfg text translated number os ss w in
  toBatch w' = toBatch w /\ cacheFile w' = cacheFile w /\ randomDraws w' = randomDraws w.
Proof.
  unfold recordAttempt.
  destruct (3 <? number), (table cfg); simpl;
    try (match goal with |- context [printTable ?a ?b ?c] =>
           destruct (printTable_stores a b c) as (?&?&?) end);
    simpl in *; tauto.
Qed.

(** In synchronous mode an activation leaves the batch machinery alone. *)
Lemma attempt_sync_stores group number w st w1 :
  batch cfg = false ->
  attempt cfg env group number w = (st, w1) ->
  jobs w1 = jobs w /\ jobObjects w1 = jobObjects w /\ toBatch w1 = toBatch w
  /\ cacheFile w1 = cacheFile w /\ randomDraws w1 = randomDraws w.
Proof.
  intros Hb. unfold attempt, getTranslation. rewrite Hb.
  destruct (chat env (length (network w)) (groupText w group)) as [e|reason text];
    [intros [= <- <-]; done|].
  destruct (negb (String.eqb reason "stop")); [intros [= <- <-]; done|].
  destruct (Js.truthy text); simpl; [|intros [= <- <-]; done].
  match goal with |- context [recordAttempt ?a ?b ?c ?d ?e ?f ?g] =>
    destruct (recordAttempt_stores b c d e f g) as (Hq & Hc & Hr);
    destruct (recordAttempt_frame a b c d e f g) as (_ & Ho & Hj & _) end.
  simpl in *.
  destruct (negb _); [destruct (MAX_TRIES cfg <=? number); [|destruct (debug cfg)]|];
    intros [= <- <-]; simpl; repeat split; congruence.
Qed.

(** X6: the two modes keep apart. In synchronous mode [translate] leaves
    the job store, the pending list and [cache.json] as they are; in batch
    mode it sends nothing to the remote side. *)
Theorem translate_modes_keep_apart group number w :
  let res := translate cfg env group number w in
  (batch cfg = false ->
   jobs (snd res) = jobs w /\ jobObjects (snd res) = jobObjects w
   /\ toBatch (snd res) = toBatch w /\ cacheFile (snd res) = cacheFile w)
  /\ (batch cfg = true -> network (snd res) = network w).
Proof.
  apply (translate_ind cfg env (fun _ w res =>
    (batch cfg = false ->
     jobs (snd res) = jobs w /\ jobObjects (snd res) = jobObjects w
     /\ toBatch (snd res) = toBatch w /\ cacheFile (snd res) = cacheFile w)
    /\ (batch cfg = true -> network (snd res) = network w))).
  - intros n w0 r w1 Ha. simpl. split.
    + intros Hb. destruct (attempt_sync_stores _ _ _ _ _ Hb Ha) as (?&?&?&?&?). tauto.
    + intros Hb. destruct (attempt_frame _ _ _ _ _ _ _ Ha) as (_ & Hn & _).
      rewrite Hn, Hb. apply app_nil_r.
  - intros n w0 w1 Ha [IH1 IH2]. split.
    + intros Hb. destruct (attempt_sync_stores _ _ _ _ _ Hb Ha) as (?&?&?&?&?).
      destruct (IH1 Hb) as (?&?&?&?). repeat split; congruence.
    + intros Hb. destruct (attempt_frame _ _ _ _ _ _ _ Ha) as (_ & Hn & _).
      rewrite (IH2 Hb), Hn, Hb. apply app_nil_r.
Qed.

End TranslateMore.

(** ** The request text and its reading back *)

Section RequestText.

Lemma lineFree_app a b : lineFree (a +:+ b) = lineFree a && lineFree b.
Proof. induction a as [|c a IH]; simpl; [done|]. rewrite IH. now rewrite andb_assoc. Qed.

Lemma split_lineFree s : lineFree s = true -> Js.split newline s = [s].
Proof.
  induction s as [|c s IH]; simpl; [done|]. intros H.
  apply andb_true_iff in H as [Hc Hs]. apply negb_true_iff in Hc.
  now rewrite Hc, (IH Hs).
Qed.

Lemma split_line_app s r :
  lineFree s = true ->
  Js.split newline (s +:+ String newline r) = s :: Js.split newline r.
Proof.
  induction s as [|c s IH]; simpl; intros H.
  - reflexivity.
  - apply andb_true_iff in H as [Hc Hs]. apply negb_true_iff in Hc.
    now rewrite Hc, (IH Hs).
Qed.

(** Joining lines and splitting them again gives the lines back. *)
Lemma split_join_lines lines :
  lines <> [] ->
  Forall (fun l => lineFree l = true) lines ->
  Js.split newline (Js.join (String newline EmptyString) lines) = lines.
Proof.
  induction lines as [|l lines IH]; [done|]. intros _ Hall.
  apply Forall_cons in Hall as [Hl Hall]. unfold Js.join in *.
  destruct lines as [|l' lines']; [now apply split_lineFree|].
  change (String.concat (String newline EmptyString) (l :: l' :: lines'))
    with (l +:+ String newline (String.concat (String newline EmptyString) (l' :: lines'))).
  rewrite split_line_app by exact Hl. f_equal. now apply IH.
Qed.

Lemma decimal_digits_of_uint u :
  forallb Js.isDigit (list_ascii_of_string (NilEmpty.string_of_uint u)) = true.
Proof. induction u; simpl; [done|exact IHu..]. Qed.

Lemma decimal_nonempty n : Js.decimal n <> EmptyString.
Proof.
  unfold Js.decimal. intros H.
  destruct (Nat.to_uint n) as [|u|u|u|u|u|u|u|u|u|u] eqn:E; try discriminate.
  pose proof (DecimalNat.Unsigned.of_to n) as Hn. rewrite E in Hn. simpl in Hn.
  subst n. discriminate.
Qed.

Lemma digit_not_blank c : Js.isDigit c = true -> Js.isWhiteSpace c = false.
Proof.
  unfold Js.isDigit, Js.isWhiteSpace. intros H.
  apply andb_true_iff in H as [H1 H2].
  apply Nat.leb_le in H1, H2.
  destruct (Nat.leb_spec (nat_of_ascii c) 13), (Nat.eqb_spec (nat_of_ascii c) 32),
    (Nat.eqb_spec (nat_of_ascii c) 160); try lia.
Qed.

Lemma digit_not_newline c : Js.isDigit c = true -> Ascii.eqb c newline = false.
Proof.
  intros H. destruct (Ascii.eqb_spec c newline) as [->|]; [discriminate|done].
Qed.

Lemma digits_lineFree d :
  forallb Js.isDigit (list_ascii_of_string d) = true -> lineFree d = true.
Proof.
  induction d as [|c d IH]; simpl; [done|]. intros H.
  apply andb_true_iff in H as [Hc Hd]. now rewrite (digit_not_newline c Hc), IH.
Qed.

(** Trailing blanks of a concatenation. *)
Lemma trimEnd_app a b :
  Js.trimEnd (a +:+ b)
  = match Js.trimEnd b with
    | EmptyString => Js.trimEnd a
    | kept => a +:+ kept
    end.
Proof.
  destruct (Js.trimEnd b) as [|c' kept] eqn:Eb.
  - induction a as [|c a IH]; simpl; [exact Eb|now rewrite IH].
  - induction a as [|c a IH]; simpl; [exact Eb|]. rewrite IH. now destruct a.
Qed.

Lemma dropDigits_marker d rest :
  forallb Js.isDigit (list_ascii_of_string d) = true ->
  Js.dropDigits (d +:+ String "." rest) = String "." rest.
Proof.
  induction d as [|c d IH]; simpl; [done|]. intros H.
  apply andb_true_iff in H as [Hc Hd]. now rewrite Hc, IH.
Qed.

(** What is read back from one line of the request. *)
Lemma line_read_back i c :
  Js.stripOrdinal (Js.trim (Js.decimal (S i) +:+ ". " +:+ c)) = echoed i c.
Proof.
  pose proof (decimal_nonempty (S i)) as Hne.
  pose proof (decimal_digits_of_uint (Nat.to_uint (S i))) as Hd.
  fold (Js.decimal (S i)) in Hd. unfold echoed.
  destruct (Js.decimal (S i)) as [|d0 d] eqn:E; [done|].
  simpl in Hd. apply andb_true_iff in Hd as [Hd0 Hd].
  unfold Js.trim. simpl Js.trimStart. rewrite (digit_not_blank d0 Hd0).
  change (String d0 (d +:+ ". " +:+ c)) with (String d0 d +:+ (". " +:+ c)).
  rewrite trimEnd_app.
  change (". " +:+ c) with (String "." (String " " EmptyString) +:+ c).
  rewrite trimEnd_app.
  destruct (Js.trimEnd c) as [|k kept] eqn:Ek.
  - simpl Js.trimEnd. simpl. rewrite Hd0.
    change (d +:+ ".") with (d +:+ String "." EmptyString).
    now rewrite dropDigits_marker.
  - simpl. rewrite Hd0.
    change (d +:+ String "." (String " " (String k kept)))
      with (d +:+ String "." (String " " (String k kept))).
    now rewrite dropDigits_marker.
Qed.

Lemma numbered_lineFree l : forall i,
  Forall (fun c => lineFree c = true) l ->
  Forall (fun c => lineFree c = true) (numbered i l).
Proof.
  induction l as [|c l IH]; intros i H; simpl; [constructor|].
  apply Forall_cons in H as [Hc Hl]. constructor; [|now apply IH].
  rewrite !lineFree_app, Hc. simpl.
  rewrite digits_lineFree; [done|]. apply decimal_digits_of_uint.
Qed.

Lemma numbered_read_back l : forall i,
  map (fun s => Js.stripOrdinal (Js.trim s)) (numbered i l) = echoes i l.
Proof.
  induction l as [|c l IH]; intros i; simpl; [done|].
  now rewrite line_read_back, IH.
Qed.

Lemma echoed_nonempty i c : echoed i c <> EmptyString.
Proof.
  unfold echoed. destruct (Js.trimEnd c); [|done].
  pose proof (decimal_nonempty (S i)). now destruct (Js.decimal (S i)).
Qed.

Lemma last_echoes l : forall i, last (echoes i l) <> Some EmptyString.
Proof.
  induction l as [|c l IH]; intros i; simpl; [done|].
  destruct l as [|c' l']; simpl.
  - intros [= H]. now apply (echoed_nonempty i c).
  - apply (IH (S i)).
Qed.

Lemma length_echoes l : forall i, length (echoes i l) = length l.
Proof. induction l as [|c l IH]; intros i; simpl; [done|]. now rewrite IH. Qed.

Lemma lookup_echoes l : forall i k c,
  l !! k = Some c -> echoes i l !! k = Some (echoed (i + k) c).
Proof.
  induction l as [|c0 l IH]; intros i [|k] c H; simpl in *; simplify_eq.
  - now rewrite Nat.add_0_r.
  - rewrite (IH (S i) k c H). do 2 f_equal. lia.
Qed.

(** Parsing the text sent for a group whose contents hold no line feed
    gives back one fragment per content. *)
Lemma groupText_read_back w group :
  (forall m, m ∈ group -> lineFree (content (segments w m)) = true) ->
  parseTranslation (groupText w group) = echoes 0 (contents w group).
Proof.
  intros Hfree.
  assert (Hall : Forall (fun c => lineFree c = true) (contents w group)).
  { unfold contents. apply Forall_map, Forall_forall. intros m Hm. now apply Hfree. }
  unfold parseTranslation, groupText.
  destruct (contents w group) as [|c l] eqn:E; [reflexivity|].
  rewrite split_join_lines; [|now destruct l | now apply numbered_lineFree].
  rewrite numbered_read_back.
  pose proof (last_echoes (c :: l) 0) as Hlast.
  destruct (last (echoes 0 (c :: l))) as [[|x y]|]; done.
Qed.

(** X7: the request text can be read back. When no content of the group
    holds a line feed, parsing the text sent for the group yields as many
    fragments as the group has segments, and each content that is not blank
    comes back without its trailing blanks: an answer that repeats the
    request passes the count check. *)
Theorem request_text_reads_back w group :
  (forall m, m ∈ group -> lineFree (content (segments w m)) = true) ->
  parseTranslation (groupText w group) = echoes 0 (contents w group)
  /\ length (parseTranslation (groupText w group)) = length group
  /\ (forall k c, contents w group !! k = Some c ->
        Js.trimEnd c <> EmptyString ->
        parseTranslation (groupText w group) !! k = Some (Js.trimEnd c)).
Proof.
  intros Hfree. pose proof (groupText_read_back w group Hfree) as Heq.
  split; [exact Heq|]. rewrite Heq. split.
  - now rewrite length_echoes, length_contents.
  - intros k c Hk Hc. rewrite (lookup_echoes _ 0 k c Hk). unfold echoed.
    now destruct (Js.trimEnd c).
Qed.

End RequestText.

(** ** The text of a subtitle entry *)

Section SrtFacts.

Lemma newlinesToSpaces_cons c r :
  Srt.newlinesToSpaces (String c r)
  = if Ascii.eqb c newline then String " " (Srt.newlinesToSpaces r)
    else if Ascii.eqb c (ascii_of_nat 13) then
      match r with
      | String c' r' =>
          if Ascii.eqb c' newline then String " " (Srt.newlinesToSpaces r')
          else String c (Srt.newlinesToSpaces r)
      | EmptyString => String c EmptyString
      end
    else String c (Srt.newlinesToSpaces r).
Proof. reflexivity. Qed.

Lemma lineFree_cons c r : lineFree (String c r) = negb (Ascii.eqb c newline) && lineFree r.
Proof. reflexivity. Qed.

Lemma newlinesToSpaces_lineFree_upto n : forall s,
  (String.length s <= n)%nat -> lineFree (Srt.newlinesToSpaces s) = true.
Proof.
  induction n as [|n IH]; intros [|c r] Hlen; try done; [simpl in Hlen; lia|].
  assert (Hr : lineFree (Srt.newlinesToSpaces r) = true)
    by (apply IH; simpl in Hlen; lia).
  rewrite newlinesToSpaces_cons.
  destruct (Ascii.eqb c newline) eqn:Ec; [rewrite lineFree_cons; exact Hr|].
  destruct (Ascii.eqb c (ascii_of_nat 13)).
  - destruct r as [|c' r']; [rewrite lineFree_cons, Ec; done|].
    destruct (Ascii.eqb c' newline) eqn:Ec'; rewrite lineFree_cons.
    + apply IH. simpl in Hlen. lia.
    + rewrite Ec. exact Hr.
  - rewrite lineFree_cons, Ec. exact Hr.
Qed.

Lemma removeBracesFrom_lineFree s : forall pending,
  lineFree s = true ->
  (forall run, pending = Some run -> lineFree run = true) ->
  lineFree (Srt.removeBracesFrom pending s) = true.
Proof.
  induction s as [|c r IH]; intros pending Hs Hp; simpl in *.
  - destruct pending as [run|]; [|done]. simpl. now apply Hp.
  - apply andb_true_iff in Hs as [Hc Hr].
    destruct pending as [run|].
    + destruct (Ascii.eqb c "}") eqn:Eb.
      * destruct run; simpl; now apply IH.
      * apply IH; [exact Hr|]. intros run' [= <-].
        rewrite lineFree_app. simpl. now rewrite (Hp run eq_refl), Hc.
    + destruct (Ascii.eqb c "{"); [apply IH; [exact Hr|now intros run [= <-]]|].
      simpl. rewrite Hc. simpl. now apply IH.
Qed.

Lemma cleanContent_lineFree body : lineFree (Srt.cleanContent body) = true.
Proof.
  unfold Srt.cleanContent, Srt.removeBraces.
  apply removeBracesFrom_lineFree; [|done].
  eapply newlinesToSpaces_lineFree_upto. reflexivity.
Qed.

(** X8: whatever the lines of a subtitle entry are, the content of the
    segment made of them holds no line feed, so that it takes exactly one
    line of the request text. *)
Theorem segment_content_is_one_line (head body : string) :
  lineFree (content (Srt.segmentOfMatch head body)) = true.
Proof.
  simpl. unfold Srt.cleanContent, Srt.removeBraces.
  apply removeBracesFrom_lineFree; [|done].
  eapply newlinesToSpaces_lineFree_upto. reflexivity.
Qed.

Lemma plainText_cons c r :
  plainText (String c r) = true ->
  Ascii.eqb c newline = false /\ Ascii.eqb c "<" = false /\ Ascii.eqb c ">" = false
  /\ Ascii.eqb c "{" = false /\ plainText r = true.
Proof.
  simpl. rewrite !andb_true_iff, !negb_true_iff. tauto.
Qed.

Lemma plainText_betweenTags s : plainText s = true -> Srt.betweenTags s = [].
Proof.
  unfold Srt.betweenTags. induction s as [|c r IH]; [done|]. intros H.
  apply plainText_cons in H as (_ & _ & Hgt & _ & Hr). simpl. rewrite Hgt. now apply IH.
Qed.

Lemma plainText_newlinesToSpaces s : plainText s = true -> Srt.newlinesToSpaces s = s.
Proof.
  induction s as [|c r IH]; [done|]. intros H.
  apply plainText_cons in H as (Hlf & _ & _ & _ & Hr).
  rewrite newlinesToSpaces_cons, Hlf, (IH Hr).
  destruct (Ascii.eqb c (ascii_of_nat 13)); [|done].
  destruct r as [|c' r']; [done|].
  apply plainText_cons in Hr as (Hlf' & _). now rewrite Hlf'.
Qed.

Lemma plainText_removeBraces s : plainText s = true -> Srt.removeBraces s = s.
Proof.
  unfold Srt.removeBraces. induction s as [|c r IH]; [done|]. intros H.
  apply plainText_cons in H as (_ & _ & _ & Hb & Hr). simpl. rewrite Hb. now rewrite IH.
Qed.

Lemma plainText_startsWithTag s : plainText s = true -> Srt.startsWithTag s = false.
Proof.
  destruct s as [|c r]; [done|]. intros H.
  now apply plainText_cons in H as (_ & Hlt & _).
Qed.

(** X9: an entry that, once trimmed, is a single line without angle
    brackets or opening braces is taken over as it is. *)
Theorem plain_entry_is_kept (body : string) :
  plainText (Js.trim body) = true ->
  Srt.cleanContent body = Js.trim body.
Proof.
  intros H. unfold Srt.cleanContent.
  rewrite (plainText_betweenTags _ H). simpl.
  rewrite (plainText_startsWithTag _ H). simpl.
  now rewrite (plainText_newlinesToSpaces _ H), (plainText_removeBraces _ H).
Qed.

End SrtFacts.

(** ** Submission of the pending list *)

Section SubmitFacts.

Lemma freshLoc_bound ls x : x ∈ ls -> (x < freshLoc ls)%nat.
Proof.
  unfold freshLoc. induction ls as [|y ls IH]; intros H; [now apply elem_of_nil in H|].
  apply elem_of_cons in H as [->|H]; simpl; [lia|]. specialize (IH H). lia.
Qed.

Lemma freshLoc_fresh ls : freshLoc ls ∉ ls.
Proof. intros H. apply freshLoc_bound in H. lia. Qed.


(** X11: a submission that the remote side rejects, at the upload or at the
    creation of the batch, throws and loses nothing: the pending list, the
    jobs and [cache.json] are as before, so that a later call submits the
    same entries. *)
Theorem batchTranslations_rejected_keeps_pending up wait w :
  toBatch w <> [] ->
  (files_create up (toBatch w) = None
   \/ exists file, files_create up (toBatch w) = Some file /\ batches_create up file = None) ->
  exists e w' calls,
    batchTranslations up wait w = (Throw e, w', calls)
    /\ toBatch w' = toBatch w
    /\ jobs w' = jobs w /\ jobObjects w' = jobObjects w
    /\ cacheFile w' = cacheFile w.
Proof.
  intros Hne Hrej. unfold batchTranslations.
  destruct (toBatch w) as [|e pending] eqn:Hp; [done|]. simpl length. simpl Nat.ltb.
  cbv iota. destruct Hrej as [->|(file & -> & ->)]; eexists _, _, _; (split; [reflexivity|]);
    simpl; now rewrite Hp.
Qed.

(** With nothing pending a call sends nothing and writes nothing. *)
Lemma batchTranslations_idle up wait w :
  toBatch w = [] -> batchTranslations up wait w = (Ret tt, clearToBatch w, []).
Proof. unfold batchTranslations. now intros ->. Qed.

End SubmitFacts.

(** ** From the pending list to the stored result *)

Section BatchRoundTrip.

Variable cfg : Config.
Variable env : Env.

(** The state after an accepted submission. *)
Lemma batchTranslations_accepted up wait w w' calls :
  toBatch w <> [] ->
  batchTranslations up wait w = (Ret tt, w', calls) ->
  exists file id,
    files_create up (toBatch w) = Some file
    /\ batches_create up file = Some id
    /\ jobs w' = jobs w ++ [freshLoc (jobs w)]
    /\ jobObjects w' = update (jobObjects w) (freshLoc (jobs w)) (newJob id (toBatch w)).
Proof.
  intros Hne. unfold batchTranslations.
  destruct (toBatch w) as [|e pending] eqn:Hp; [done|]. simpl length. simpl Nat.ltb.
  cbv iota.
  destruct (files_create up (e :: pending)) as [file|] eqn:Hfile; [|done].
  destruct (batches_create up file) as [id|] eqn:Hid; [|done].
  intros [= <- _]. exists file, id.
  split; [reflexivity|]. split; [exact Hid|].
  destruct wait; simpl; now rewrite ?Hp.
Qed.

Lemma find_skip {T : Type} (f : T -> bool) (l1 l2 : list T) :
  (forall x, x ∈ l1 -> f x = false) -> List.find f (l1 ++ l2) = List.find f l2.
Proof.
  induction l1 as [|y l1 IH]; intros H; [done|]. simpl.
  rewrite (H y) by now left. apply IH. intros x Hx. apply H. now right.
Qed.

Lemma find_first {T : Type} (f : T -> bool) (l : list T) : forall k x,
  l !! k = Some x -> f x = true ->
  (forall k' y, (k' < k)%nat -> l !! k' = Some y -> f y = false) ->
  List.find f l = Some x.
Proof.
  induction l as [|y l IH]; intros [|k] x Hk Hx Hbefore; simpl in *; simplify_eq.
  - now rewrite Hx.
  - rewrite (Hbefore 0%nat y) by (lia || done).
    apply (IH k x Hk Hx). intros k' z Hlt Hz. apply (Hbefore (S k') z); [lia|done].
Qed.

Lemma find_only {T : Type} (f : T -> bool) (l : list T) x :
  x ∈ l -> f x = true -> (forall y, y ∈ l -> f y = true -> y = x) ->
  List.find f l = Some x.
Proof.
  induction l as [|y l IH]; intros Hin Hx Honly; [now apply elem_of_nil in Hin|].
  simpl. destruct (f y) eqn:Hy.
  - f_equal. apply Honly; [now left|done].
  - apply IH; [|done|].
    + apply elem_of_cons in Hin as [->|Hin]; [congruence|done].
    + intros z Hz. apply Honly. now right.
Qed.

(** An entry of the pending list is found in the job made of the list. *)
Lemma findRequest_newJob id pending e :
  e ∈ pending -> is_Some (findRequest (bodyText e) (newJob id pending)).
Proof.
  unfold findRequest, newJob. simpl. intros He.
  destruct (List.find _ _) eqn:Hf; [eauto|exfalso].
  assert (Hin : In {| reqContent := bodyText e; reqId := id; result := None |}
                  (map (fun b => {| reqContent := bodyText b; reqId := id; result := None |})
                       pending)).
  { apply in_map_iff. exists e. split; [done|]. now apply list_elem_of_In. }
  apply (find_none _ _ Hf) in Hin. simpl in Hin. now rewrite String.eqb_refl in Hin.
Qed.

(** X12: once the pending list has been submitted, a text of the list that
    no earlier job holds is found in the new job: asking for it again
    answers "queued" and enqueues nothing. *)
Theorem submitted_text_is_not_queued_again up wait w w' calls e :
  batch cfg = true ->
  batchTranslations up wait w = (Ret tt, w', calls) ->
  e ∈ toBatch w ->
  findJob (bodyText e) w = None ->
  getTranslation cfg env (bodyText e) w' = (Ret None, w').
Proof.
  intros Hb Hsub He Hnone.
  assert (Hne : toBatch w <> []) by (intros H; rewrite H in He; now apply elem_of_nil in He).
  destruct (batchTranslations_accepted _ _ _ _ _ Hne Hsub) as (file & id & _ & _ & Hj & Ho).
  assert (Hfind : findJob (bodyText e) w' = Some (freshLoc (jobs w))).
  { unfold findJob. rewrite Hj, Ho, find_skip.
    - simpl. rewrite update_eq.
      now rewrite (bool_decide_eq_true_2 _ (findRequest_newJob id _ e He)).
    - intros j Hin. apply bool_decide_eq_false. intros Hsome.
      rewrite update_ne in Hsome
        by (intros ->; now apply (freshLoc_fresh (jobs w))).
      rewrite (findJob_None _ _ _ Hnone Hin) in Hsome. now destruct Hsome. }
  unfold getTranslation. rewrite Hb, Hfind, Ho, update_eq. reflexivity.
Qed.

Lemma storeResults_contents messages : forall i rs r rs',
  storeResults i messages rs = (r, rs') ->
  map reqContent rs' = map reqContent rs.
Proof.
  induction messages as [|m rest IH]; intros i rs r rs' H; simpl in H; [now simplify_eq|].
  destruct (rs !! i) as [req|] eqn:Hreq; [|now simplify_eq].
  destruct m as [text|]; [|now simplify_eq].
  apply IH in H. rewrite H. apply list_eq. intros k.
  rewrite !list_lookup_fmap. destruct (decide (k = i)) as [->|Hne].
  - rewrite list_lookup_insert_eq by (now apply lookup_lt_Some in Hreq). now rewrite Hreq.
  - now rewrite list_lookup_insert_ne.
Qed.

(** Polling never changes the texts of the requests of a job. *)
Lemma pollJob_contents remote j w r w1 x :
  pollJob remote j w = (r, w1) ->
  map reqContent (requests (jobObjects w1 x)) = map reqContent (requests (jobObjects w x)).
Proof.
  intros H. destruct (decide (x = j)) as [->|Hne];
    [|destruct (pollJob_frame _ _ _ _ _ H) as (Hother & _); now rewrite Hother].
  revert H. unfold pollJob.
  destruct (finished (jobObjects w j)); [now intros [= <- <-]|].
  destruct (retrieve remote _) as [b|]; [|now intros [= <- <-]].
  destruct (String.eqb (status b) "completed").
  - destruct (output_file_id b) as [file|].
    + destruct (outputRecords remote file) as [messages|]; [|now intros [= <- <-]].
      destruct (storeResults 0 messages (requests (jobObjects w j))) as [r0 rs] eqn:Hs.
      apply storeResults_contents in Hs.
      destruct r0 as [[]|e|]; intros [= <- <-]; simpl; rewrite ?update_eq; simpl; done.
    + destruct (errorLines remote _) as [lines|]; [|now intros [= <- <-]].
      destruct (printErrors lines _) as [[[]|e|] w3] eqn:Hp;
        apply printErrors_frame in Hp as (Ho & _); intros [= <- <-]; simpl;
        now rewrite Ho.
  - now destruct (String.eqb (status b) "failed"); intros [= <- <-].
Qed.

Lemma pollJobs_contents remote snapshot : forall w r w1 x,
  pollJobs remote snapshot w = (r, w1) ->
  map reqContent (requests (jobObjects w1 x)) = map reqContent (requests (jobObjects w x)).
Proof.
  induction snapshot as [|j snapshot IH]; intros w r w1 x H; simpl in H;
    [now simplify_eq|].
  destruct (pollJob remote j w) as [r0 w0] eqn:Hp.
  pose proof (pollJob_contents _ _ _ _ _ x Hp) as Hc.
  destruct r0 as [[]|e|]; [|now simplify_eq..].
  now rewrite (IH _ _ _ x H).
Qed.

(** Whether a job holds a text depends on the texts of its requests only. *)
Lemma findRequest_contents text job job' :
  map reqContent (requests job') = map reqContent (requests job) ->
  findRequest text job = None -> findRequest text job' = None.
Proof.
  unfold findRequest. generalize (requests job) (requests job').
  intros l. induction l as [|a l IH]; intros [|a' l'] Heq H; simpl in *; try done.
  injection Heq as Ha Hl. rewrite Ha.
  destruct (String.eqb (reqContent a) text); [done|]. now apply IH.
Qed.

(** X13: the way of a text through batch mode. A pending list is
    submitted; a poll cycle finds the batch completed and runs to its end;
    then asking for the text of a pending entry answers with the record
    found in the results file at the position the entry had in the list
    (the first position, when the text occurs more than once). *)
Theorem batch_round_trip up wait remote w w1 calls w2 file id messages k e answer :
  batch cfg = true ->
  findJob (bodyText e) w = None ->
  toBatch w !! k = Some e ->
  (forall k' e', (k' < k)%nat -> toBatch w !! k' = Some e' -> bodyText e' <> bodyText e) ->
  files_create up (toBatch w) = Some file ->
  batches_create up file = Some id ->
  batchTranslations up wait w = (Ret tt, w1, calls) ->
  completedWith remote id messages ->
  messages !! k = Some (Answer answer) ->
  checkBatchStatus remote w1 = (Ret tt, w2) ->
  getTranslation cfg env (bodyText e) w2 = (Ret answer, w2).
Proof.
  intros Hb Hnone Hk Hfirst Hfile Hid Hsub Hdone Hm Hcycle.
  assert (Hne : toBatch w <> []) by (intros H; now rewrite H in Hk).
  destruct (batchTranslations_accepted _ _ _ _ _ Hne Hsub)
    as (file' & id' & Hfile' & Hid' & Hj & Ho).
  rewrite Hfile in Hfile'. injection Hfile' as <-.
  rewrite Hid in Hid'. injection Hid' as <-.
  set (l := freshLoc (jobs w)) in *.
  set (job := newJob id (toBatch w)) in *.
  assert (Hjob1 : jobObjects w1 l = job) by (rewrite Ho; apply update_eq).
  assert (Hl1 : l ∈ jobs w1) by (rewrite Hj; apply elem_of_app; right; now left).
  unfold checkBatchStatus in Hcycle.
  assert (Hpending : l ∈ pendingJobs w1).
  { unfold pendingJobs. apply elem_of_filter_bool. now rewrite Hjob1. }
  destruct (length (pendingJobs w1) =? 0)%nat eqn:Hzero.
  { apply Nat.eqb_eq in Hzero. destruct (pendingJobs w1); [|discriminate].
    now apply elem_of_nil in Hpending. }
  destruct (pollJobs remote _ _) as [r0 w3] eqn:Hp. simpl in Hp.
  destruct r0 as [[]|err|]; [|discriminate..]. injection Hcycle as <-.
  set (w0 := print (Log "Checking jobs in progress") w1) in *.
  assert (Hc : completedWith remote (jobId job) messages) by exact Hdone.
  destruct (pollJobs_stores remote messages l job (jobs w1) w0 w3 Hc eq_refl Hp)
    as (rs & Hrs & Hjob3); [left; now split|].
  destruct (storeResults_spec messages 0 (requests job) rs ltac:(lia) Hrs)
    as (_ & _ & Hset & _).
  pose proof (storeResults_contents _ _ _ _ _ Hrs) as Hcont.
  pose proof (pollJobs_keeps _ _ _ _ _ _ _ l Hc Hp Hl1 (f_equal jobId Hjob1)) as Hl3.
  destruct (pollJobs_frame _ _ _ _ _ Hp) as (_ & _ & Hsub3 & _).
  (* the request read back *)
  destruct (Hset k _ Hm) as (answer' & req & [= <-] & Hreq & Hstored). simpl in Hreq, Hstored.
  assert (Hreqk : req = {| reqContent := bodyText e; reqId := id; result := None |}).
  { unfold job, newJob in Hreq. simpl in Hreq. rewrite list_lookup_fmap, Hk in Hreq.
    now injection Hreq. }
  assert (Hfr : findRequest (bodyText e) (setFinished true (setRequests rs job))
                = Some (setResult answer req)).
  { unfold findRequest. simpl. apply (find_first _ rs k); [exact Hstored| |].
    - rewrite Hreqk. simpl. apply String.eqb_refl.
    - intros k' y Hlt Hy. apply String.eqb_neq.
      assert (Hy' : map reqContent rs !! k' = Some (reqContent y))
        by (now rewrite list_lookup_fmap, Hy).
      rewrite Hcont in Hy'. unfold job, newJob in Hy'. simpl in Hy'.
      rewrite map_map, list_lookup_fmap in Hy'. simpl in Hy'.
      destruct (toBatch w !! k') as [e'|] eqn:Hk'; [|done]. simpl in Hy'.
      injection Hy' as <-. now apply (Hfirst k' e'). }
  assert (Hfind : findJob (bodyText e) (writeCache w3) = Some l).
  { unfold findJob. simpl. apply find_only.
    - exact Hl3.
    - apply bool_decide_eq_true. rewrite Hjob3, Hfr. eauto.
    - intros y Hy Hholds. apply bool_decide_eq_true in Hholds.
      destruct (decide (y = l)) as [->|Hyl]; [done|exfalso].
      assert (Hyw : y ∈ jobs w).
      { apply Hsub3 in Hy. simpl in Hy. rewrite Hj in Hy.
        apply elem_of_app in Hy as [Hy|Hy]; [done|].
        apply list_elem_of_singleton in Hy. done. }
      pose proof (findJob_None _ _ _ Hnone Hyw) as Hno.
      assert (Hsame : jobObjects w0 y = jobObjects w y).
      { simpl. rewrite Ho. now apply update_ne. }
      rewrite <- Hsame in Hno.
      rewrite (findRequest_contents _ _ _ (pollJobs_contents _ _ _ _ _ y Hp) Hno) in Hholds.
      now destruct Hholds. }
  unfold getTranslation. rewrite Hb, Hfind. simpl. now rewrite Hjob3, Hfr.
Qed.

End BatchRoundTrip.

(** ** More on polling *)

Section PollMore.

(** Polling an unfinished job whose batch is lost drops every job of that
    id and changes no job object. *)
Lemma pollJob_lost remote j w w1 :
  lostAt remote (jobId (jobObjects w j)) ->
  finished (jobObjects w j) = false ->
  pollJob remote j w = (Ret tt, w1) ->
  jobObjects w1 = jobObjects w
  /\ jobs w1 = List.filter
                 (fun x => negb (String.eqb (jobId (jobObjects w x)) (jobId (jobObjects w j))))
                 (jobs w).
Proof.
  intros (b & Hb & Hstatus) Hfin. unfold pollJob. rewrite Hfin, Hb.
  destruct Hstatus as [Hst|[Hst Hout]]; rewrite Hst; simpl.
  - now intros [= <-].
  - rewrite Hout. destruct (errorLines remote _) as [lines|]; [|done].
    destruct (printErrors lines _) as [[[]|e|] w3] eqn:Hp; [|done..].
    apply printErrors_frame in Hp as (Ho & Hj & _). intros [= <-].
    unfold dropJob. simpl. now rewrite Ho, Hj.
Qed.

(** Once a lost batch has been met, no job of its id is left. *)
Lemma pollJobs_drops remote id snapshot : forall w w1,
  lostAt remote id ->
  pollJobs remote snapshot w = (Ret tt, w1) ->
  (exists j, j ∈ snapshot /\ jobId (jobObjects w j) = id
             /\ finished (jobObjects w j) = false)
  \/ (forall x, x ∈ jobs w -> jobId (jobObjects w x) <> id) ->
  forall x, x ∈ jobs w1 -> jobId (jobObjects w1 x) <> id.
Proof.
  induction snapshot as [|y snapshot IH]; intros w w1 Hlost H Hcase; simpl in H.
  - simplify_eq. destruct Hcase as [(j & Hj & _)|Hnone]; [now apply elem_of_nil in Hj|done].
  - destruct (pollJob remote y w) as [[[]|e|] w0] eqn:Hp; [|done..].
    destruct (pollJob_frame _ _ _ _ _ Hp) as (Hother & Hidy & Hskip & Hsub & _).
    assert (Hids : forall x, jobId (jobObjects w0 x) = jobId (jobObjects w x)).
    { intros x. destruct (decide (x = y)) as [->|Hne]; [exact Hidy|now rewrite Hother]. }
    apply (IH w0 w1 Hlost H).
    destruct Hcase as [(j & Hj & Hid & Hfin)|Hnone].
    + destruct (decide (j = y)) as [->|Hne].
      * right. rewrite <- Hid in Hlost.
        destruct (pollJob_lost _ _ _ _ Hlost Hfin Hp) as [Ho Hjobs].
        intros x Hx. rewrite Hjobs in Hx. apply elem_of_filter_bool in Hx as [_ Hx].
        apply negb_true_iff, String.eqb_neq in Hx. rewrite Ho. congruence.
      * left. exists j. apply elem_of_cons in Hj as [->|Hj]; [done|].
        rewrite Hother by done. auto.
    + right. intros x Hx. rewrite Hids. apply Hnone, Hsub, Hx.
Qed.

(** X14: a poll cycle that runs to its end over an unfinished job whose
    batch has failed, or is completed without a results file, leaves no job
    of that id in [jobs]; the job is gone from the list written to
    [cache.json] as well. A cycle never adds a job. *)
Theorem checkBatchStatus_drops_lost_job remote w w' l :
  checkBatchStatus remote w = (Ret tt, w') ->
  l ∈ jobs w ->
  finished (jobObjects w l) = false ->
  lostAt remote (jobId (jobObjects w l)) ->
  (forall x, x ∈ jobs w' -> jobId (jobObjects w' x) <> jobId (jobObjects w l))
  /\ (l ∉ jobs w')
  /\ (forall x, x ∈ jobs w' -> x ∈ jobs w)
  /\ cacheFile w' = Some (map (jobObjects w') (jobs w')).
Proof.
  intros Hcycle Hl Hfin Hlost. unfold checkBatchStatus in Hcycle.
  assert (Hpending : l ∈ pendingJobs w).
  { unfold pendingJobs. apply elem_of_filter_bool. now rewrite Hfin. }
  destruct (length (pendingJobs w) =? 0)%nat eqn:Hzero.
  { apply Nat.eqb_eq in Hzero. destruct (pendingJobs w); [|discriminate].
    now apply elem_of_nil in Hpending. }
  destruct (pollJobs remote _ _) as [r0 w2] eqn:Hp. simpl in Hp.
  destruct r0 as [[]|e|]; [|discriminate..]. injection Hcycle as <-.
  destruct (pollJobs_frame _ _ _ _ _ Hp) as (Hids & _ & Hsub & _).
  assert (Hnone : forall x, x ∈ jobs w2 ->
                    jobId (jobObjects w2 x) <> jobId (jobObjects w l)).
  { apply (pollJobs_drops _ _ _ _ _ Hlost Hp). left. exists l. auto. }
  simpl. split; [exact Hnone|]. split; [|split; [exact Hsub|reflexivity]].
  intros Hin. apply (Hnone l Hin). apply Hids.
Qed.

(** Polling a job never drops a job whose batch is still running. *)
Lemma pollJob_keeps_running remote id j w r w1 x :
  runningAt remote id ->
  pollJob remote j w = (r, w1) ->
  x ∈ jobs w -> jobId (jobObjects w x) = id -> x ∈ jobs w1.
Proof.
  intros (b & Hb & Hnc & Hnf) H Hx Hid. unfold pollJob in H.
  assert (Hdrop : forall w3, jobs w3 = jobs w -> jobObjects w3 = jobObjects w ->
                    jobId (jobObjects w j) <> id ->
                    x ∈ jobs (dropJob (jobId (jobObjects w j)) w3)).
  { intros w3 Hj Ho Hne. unfold dropJob. simpl. apply elem_of_filter_bool.
    rewrite Hj, Ho. split; [exact Hx|]. rewrite Hid.
    apply negb_true_iff, String.eqb_neq. congruence. }
  destruct (finished (jobObjects w j)); [now simplify_eq|].
  destruct (String.eqb_spec (jobId (jobObjects w j)) id) as [He|Hne].
  - rewrite He, Hb in H.
    destruct (String.eqb_spec (status b) "completed"); [done|].
    destruct (String.eqb_spec (status b) "failed"); [done|]. now simplify_eq.
  - destruct (retrieve remote (jobId (jobObjects w j))) as [b'|]; [|now simplify_eq].
    destruct (String.eqb (status b') "completed").
    + destruct (output_file_id b') as [file'|].
      * destruct (outputRecords remote file') as [messages'|]; [|now simplify_eq].
        destruct (storeResults 0 messages' (requests (jobObjects w j))) as [[[]|e|] rs];
          simplify_eq; exact Hx.
      * destruct (errorLines remote (error_file_id b')) as [lines|]; [|now simplify_eq].
        destruct (printErrors lines _) as [[[]|e|] w3] eqn:Hp;
          apply printErrors_frame in Hp as (Ho & Hj & Hn); simpl in *; simplify_eq;
          try (rewrite Hj; exact Hx).
        now apply Hdrop.
    + destruct (String.eqb (status b') "failed"); simplify_eq; [|exact Hx].
      now apply Hdrop.
Qed.

(** Polling an unfinished job whose batch is still running changes no job
    object and no list. *)
Lemma pollJob_running remote j w r w1 :
  runningAt remote (jobId (jobObjects w j)) ->
  pollJob remote j w = (r, w1) ->
  jobObjects w1 = jobObjects w /\ jobs w1 = jobs w.
Proof.
  intros (b & Hb & Hnc & Hnf). unfold pollJob.
  destruct (finished (jobObjects w j)); [now intros [= <- <-]|].
  rewrite Hb.
  destruct (String.eqb_spec (status b) "completed"); [done|].
  destruct (String.eqb_spec (status b) "failed"); [done|]. now intros [= <- <-].
Qed.

Lemma pollJobs_running remote l snapshot : forall w r w1,
  runningAt remote (jobId (jobObjects w l)) ->
  pollJobs remote snapshot w = (r, w1) ->
  l ∈ jobs w ->
  jobObjects w1 l = jobObjects w l /\ l ∈ jobs w1.
Proof.
  induction snapshot as [|y snapshot IH]; intros w r w1 Hrun H Hl; simpl in H;
    [now simplify_eq|].
  destruct (pollJob remote y w) as [r0 w0] eqn:Hp.
  pose proof (pollJob_keeps_running _ _ _ _ _ _ l Hrun Hp Hl eq_refl) as Hl0.
  assert (Hobj : jobObjects w0 l = jobObjects w l).
  { destruct (decide (l = y)) as [->|Hne].
    - now destruct (pollJob_running _ _ _ _ _ Hrun Hp) as [-> _].
    - destruct (pollJob_frame _ _ _ _ _ Hp) as (Hother & _). now apply Hother. }
  destruct r0 as [[]|e|]; [|simplify_eq; done..].
  rewrite <- Hobj in Hrun. destruct (IH _ _ _ Hrun H Hl0) as [Ho Hin].
  split; [congruence|exact Hin].
Qed.

(** X15: a job whose batch is neither completed nor failed comes out of a
    poll cycle as it went in, whatever happens to the other jobs and
    whether or not the cycle runs to its end: same object, still in
    [jobs], still pending. *)
Theorem checkBatchStatus_leaves_running_job remote w l :
  l ∈ jobs w ->
  finished (jobObjects w l) = false ->
  runningAt remote (jobId (jobObjects w l)) ->
  let w' := snd (checkBatchStatus remote w) in
  jobObjects w' l = jobObjects w l
  /\ l ∈ jobs w'
  /\ l ∈ pendingJobs w'.
Proof.
  intros Hl Hfin Hrun. unfold checkBatchStatus.
  assert (Hgoal : forall w', jobObjects w' l = jobObjects w l -> l ∈ jobs w' ->
            jobObjects w' l = jobObjects w l /\ l ∈ jobs w' /\ l ∈ pendingJobs w').
  { intros w' Ho Hin. split; [exact Ho|]. split; [exact Hin|].
    unfold pendingJobs. apply elem_of_filter_bool. now rewrite Ho, Hfin. }
  destruct (length (pendingJobs w) =? 0)%nat; [now apply Hgoal|].
  destruct (pollJobs remote _ _) as [r0 w2] eqn:Hp. simpl in Hp.
  destruct (pollJobs_running remote l _ (print (Log "Checking jobs in progress") w)
              _ _ Hrun Hp Hl) as [Ho Hin].
  simpl in Ho.
  destruct r0 as [[]|e|]; [apply (Hgoal (writeCache w2)) | apply (Hgoal w2)..]; done.
Qed.

(** X16: [cache.json] is written exactly by a poll cycle that had a pending
    job and ran to its end. A cycle that throws leaves the file as it was,
    whatever it had already changed in the job objects, and so does a cycle
    without pending jobs. *)
Theorem checkBatchStatus_writes_store_at_the_end remote w :
  let res := checkBatchStatus remote w in
  (fst res = Ret tt -> pendingJobs w <> [] ->
   cacheFile (snd res) = Some (map (jobObjects (snd res)) (jobs (snd res))))
  /\ (fst res <> Ret tt \/ pendingJobs w = [] -> cacheFile (snd res) = cacheFile w).
Proof.
  unfold checkBatchStatus.
  destruct (pendingJobs w) as [|p ps] eqn:Hpend; simpl.
  - split; [done|reflexivity].
  - destruct (pollJobs remote _ _) as [r0 w2] eqn:Hp. simpl in Hp.
    apply pollJobs_cacheFile in Hp. simpl in Hp.
    destruct r0 as [[]|e|]; simpl; (split; [done|]); intros [H|H]; done.
Qed.

End PollMore.

(** ** Console messages *)

Section TemplateFacts.

Variable white : string -> string.

Lemma templateFrom_skip data a : forall b,
  templateFrom white data (String.length a) (a +:+ b) = templateFrom white data 0 b.
Proof. induction a as [|c a IH]; intros b; simpl; [now destruct b|apply IH]. Qed.

Lemma templateFrom_braceFree data pre : forall s,
  braceFree pre = true ->
  templateFrom white data 0 (pre +:+ s) = pre +:+ templateFrom white data 0 s.
Proof.
  induction pre as [|c pre IH]; intros s H; [done|].
  simpl in H. apply andb_true_iff in H as [Hc Hpre]. apply negb_true_iff in Hc.
  change (String c pre +:+ s) with (String c (pre +:+ s)).
  assert (Hnone : placeholderAt (String c (pre +:+ s)) = None).
  { unfold placeholderAt. destruct (Ascii.eqb_spec c "{") as [->|Hne]; [done|].
    destruct c as [[] [] [] [] [] [] [] []]; try done. }
  cbn [templateFrom]. rewrite Hnone. simpl. now rewrite IH.
Qed.

Lemma spanDigits_app s : forall digits rest,
  spanDigits s = (digits, rest) -> s = digits +:+ rest.
Proof.
  induction s as [|c s IH]; intros digits rest H; simpl in H; [now simplify_eq|].
  destruct (Js.isDigit c); [|now simplify_eq].
  destruct (spanDigits s) as [d r] eqn:Hs. simplify_eq.
  change (String c s = String c (d +:+ rest)). f_equal. now apply IH.
Qed.

Lemma spanDigits_digits digits rest :
  forallb Js.isDigit (list_ascii_of_string digits) = true ->
  spanDigits (digits +:+ String "}" rest) = (digits, String "}" rest).
Proof.
  induction digits as [|c digits IH]; simpl; [done|]. intros H.
  apply andb_true_iff in H as [Hc Hd]. now rewrite Hc, (IH Hd).
Qed.

(** A match at the head of a text is the head of the text. *)
Lemma placeholderAt_Some s digits :
  placeholderAt s = Some digits -> exists post, s = placeholder digits +:+ post.
Proof.
  unfold placeholderAt, placeholder.
  destruct s as [|c1 s]; [done|].
  destruct c1 as [[] [] [] [] [] [] [] []]; try done.
  destruct s as [|c2 r]; [done|].
  destruct c2 as [[] [] [] [] [] [] [] []]; try done.
  destruct (spanDigits r) as [d rest] eqn:Hspan. apply spanDigits_app in Hspan.
  destruct d as [|d0 d]; [done|].
  destruct rest as [|e1 rest]; [done|].
  destruct e1 as [[] [] [] [] [] [] [] []]; try done.
  destruct rest as [|e2 post]; [done|].
  destruct e2 as [[] [] [] [] [] [] [] []]; try done.
  intros [= <-]. exists post. rewrite Hspan.
  change (String "{" (String "{" (String d0 d +:+ String "}" (String "}" post)))
          = String "{" (String "{" ((String d0 d +:+ "}}") +:+ post))).
  do 2 f_equal. now rewrite <- append_assoc.
Qed.

Lemma length_app_string a b : String.length (a +:+ b) = (String.length a + String.length b)%nat.
Proof.
  induction a as [|c a IH]; [done|].
  change (String.length (String c (a +:+ b))
          = (String.length (String c a) + String.length b)%nat).
  simpl. now rewrite IH.
Qed.

Lemma template_no_data_upto n : forall s,
  (String.length s <= n)%nat -> templateFrom white [] 0 s = s.
Proof.
  induction n as [|n IH]; intros [|c r] Hlen; try done; [simpl in Hlen; lia|].
  cbn [templateFrom].
  destruct (placeholderAt (String c r)) as [digits|] eqn:Hph.
  - destruct (placeholderAt_Some _ _ Hph) as [post Hs].
    assert (Hr : r = ("{" +:+ digits +:+ "}}") +:+ post).
    { unfold placeholder in Hs. simpl in Hs. injection Hs as _ ->. reflexivity. }
    rewrite lookup_nil.
    replace (3 + String.length digits)%nat with (String.length ("{" +:+ digits +:+ "}}"))
      by (rewrite !length_app_string; simpl; lia).
    rewrite Hr at 1. rewrite templateFrom_skip, IH.
    + now rewrite Hs.
    + simpl in Hlen. rewrite Hr in Hlen. rewrite length_app_string in Hlen. simpl in Hlen. lia.
  - f_equal. apply IH. simpl in Hlen. lia.
Qed.

(** X17: [template] leaves alone what it has nothing to put into: a format
    is returned as it is when no value follows it, and so is, whatever the
    values, a format without an opening brace. *)
Theorem template_without_substitution (fmt : string) (data : list Datum) :
  template white fmt [] = fmt
  /\ (braceFree fmt = true -> template white fmt data = fmt).
Proof.
  split.
  - unfold template. now apply (template_no_data_upto (String.length fmt)).
  - intros H. unfold template.
    rewrite <- (append_nil_r fmt) at 1.
    rewrite (templateFrom_braceFree data fmt EmptyString H). simpl.
    apply append_nil_r.
Qed.

Lemma parseInt_decimal k : parseInt (Js.decimal k) = k.
Proof.
  unfold parseInt, Js.decimal. rewrite NilEmpty.usu. apply DecimalNat.Unsigned.of_to.
Qed.

Lemma placeholder_app digits post :
  placeholder digits +:+ post
  = String "{" (String "{" (digits +:+ String "}" (String "}" post))).
Proof. unfold placeholder. now rewrite <- !append_assoc. Qed.

Lemma placeholderAt_decimal k post :
  placeholderAt (placeholder (Js.decimal k) +:+ post) = Some (Js.decimal k).
Proof.
  rewrite placeholder_app. unfold placeholderAt.
  rewrite spanDigits_digits by apply decimal_digits_of_uint.
  pose proof (decimal_nonempty k). now destruct (Js.decimal k).
Qed.

(** X18: how a format is filled in. After a stretch without opening brace,
    the placeholder of index [k] becomes the rendering of the value at
    position [k] when there is one, and stays as it is otherwise; what
    follows is filled in in the same way, and what was put in is not read
    again. *)
Theorem template_placeholder (pre post : string) (k : nat) (data : list Datum) :
  braceFree pre = true ->
  template white (pre +:+ placeholder (Js.decimal k) +:+ post) data
  = pre
    +:+ match data !! k with
        | Some d => renderDatum white d
        | None => placeholder (Js.decimal k)
        end
    +:+ template white post data.
Proof.
  intros Hpre. unfold template. rewrite (templateFrom_braceFree data pre _ Hpre). f_equal.
  pose proof (placeholderAt_decimal k post) as Hph.
  destruct (placeholder (Js.decimal k) +:+ post) as [|c r] eqn:Hs; [done|].
  cbn [templateFrom]. rewrite Hph, parseInt_decimal. f_equal.
  assert (Hr : r = ("{" +:+ Js.decimal k +:+ "}}") +:+ post).
  { unfold placeholder in Hs. simpl in Hs. injection Hs as _ <-.
    now rewrite <- !append_assoc. }
  replace (3 + String.length (Js.decimal k))%nat
    with (String.length ("{" +:+ Js.decimal k +:+ "}}"))
    by (rewrite !length_app_string; simpl; lia).
  rewrite Hr. apply templateFrom_skip.
Qed.

End TemplateFacts.

(** ** The entries of a subtitle file *)

Section SrtFileFacts.

Lemma isLineEnd_false c :
  isLineEnd c = false ->
  Ascii.eqb c newline = false /\ Ascii.eqb c (ascii_of_nat 13) = false.
Proof. unfold isLineEnd. intros H. now apply orb_false_iff in H. Qed.

Lemma spanDigits_stop d c r :
  forallb Js.isDigit (list_ascii_of_string d) = true ->
  Js.isDigit c = false ->
  spanDigits (d +:+ String c r) = (d, String c r).
Proof.
  intros Hd Hc. induction d as [|x d IH].
  - rewrite append_nil_l. simpl. now rewrite Hc.
  - simpl in Hd. apply andb_true_iff in Hd as [Hx Hd].
    rewrite append_cons. simpl. now rewrite Hx, (IH Hd).
Qed.

Lemma spanLine_stop l c r :
  oneLine l = true ->
  isLineEnd c = true ->
  SrtFile.spanLine (l +:+ String c r) = (l, String c r).
Proof.
  intros Hl Hc. induction l as [|x l IH].
  - rewrite append_nil_l. simpl. now rewrite Hc.
  - simpl in Hl. apply andb_true_iff in Hl as [Hx Hl]. apply negb_true_iff in Hx.
    rewrite append_cons. simpl. now rewrite Hx, (IH Hl).
Qed.

Lemma entriesFrom_skip a : forall r,
  SrtFile.entriesFrom (String.length a) (a +:+ r) = SrtFile.entriesFrom 0 r.
Proof.
  induction a as [|c a IH]; intros r.
  - rewrite append_nil_l. now destruct r.
  - rewrite append_cons. simpl. apply IH.
Qed.

Variable nl : string.
Hypothesis Hnl : nl = LF \/ nl = CRLF.

Lemma lineBreak_nl r : SrtFile.lineBreak (nl +:+ r) = Some (nl, r).
Proof. destruct Hnl as [-> | ->]; reflexivity. Qed.

Lemma nl_head : exists c rest,
  nl = String c rest /\ isLineEnd c = true /\ Js.isDigit c = false.
Proof.
  destruct Hnl as [-> | ->]; eexists _, _; (split; [reflexivity|split; reflexivity]).
Qed.

Lemma bodyFrom_blank r : SrtFile.bodyFrom EmptyString (nl +:+ r) = EmptyString.
Proof. destruct Hnl as [-> | ->]; reflexivity. Qed.

Lemma entriesFrom_nl r : SrtFile.entriesFrom 0 (nl +:+ r) = SrtFile.entriesFrom 0 r.
Proof. destruct Hnl as [-> | ->]; reflexivity. Qed.

Lemma bodyFrom_line l : forall cur r,
  oneLine l = true ->
  cur +:+ l <> EmptyString ->
  SrtFile.bodyFrom cur (l +:+ nl +:+ r)
  = (cur +:+ l) +:+ nl +:+ SrtFile.bodyFrom EmptyString r.
Proof.
  induction l as [|c l IH]; intros cur r Hl Hne.
  - rewrite append_nil_l. rewrite append_nil_r in *.
    destruct cur as [|x cur]; [done|].
    destruct Hnl as [-> | ->]; reflexivity.
  - simpl in Hl. apply andb_true_iff in Hl as [Hc Hl]. apply negb_true_iff in Hc.
    destruct (isLineEnd_false _ Hc) as [Hc1 Hc2].
    rewrite append_cons. cbn [SrtFile.bodyFrom]. rewrite Hc1, Hc2.
    rewrite IH; [|exact Hl|].
    + now rewrite <- (append_assoc cur).
    + rewrite <- append_assoc. exact Hne.
Qed.

Lemma isTextLine_spec l :
  isTextLine l = true -> l <> EmptyString /\ oneLine l = true.
Proof.
  unfold isTextLine. intros H. apply andb_true_iff in H as [Hne Hl].
  split; [|exact Hl]. intros ->. discriminate.
Qed.

Lemma bodyFrom_lines lines : forall r,
  forallb isTextLine lines = true ->
  SrtFile.bodyFrom EmptyString
    (foldr (fun l rest => l +:+ nl +:+ rest) EmptyString lines +:+ nl +:+ r)
  = foldr (fun l rest => l +:+ nl +:+ rest) EmptyString lines.
Proof.
  induction lines as [|l lines IH]; intros r H.
  - simpl. rewrite append_nil_l. apply bodyFrom_blank.
  - simpl in H. apply andb_true_iff in H as [Hl H].
    destruct (isTextLine_spec _ Hl) as [Hne Hone].
    cbn [foldr]. rewrite <- !append_assoc.
    rewrite bodyFrom_line; [|exact Hone|now rewrite append_nil_l].
    rewrite append_nil_l, (IH r H). reflexivity.
Qed.

Lemma blockBody_nonempty b :
  wellFormed b = true -> blockBody nl b <> EmptyString.
Proof.
  unfold wellFormed, blockBody. intros H.
  repeat (apply andb_true_iff in H as [H ?]).
  destruct (textLines b) as [|l lines]; [done|].
  simpl in *. apply andb_true_iff in H0 as [Hl _].
  destruct (isTextLine_spec _ Hl) as [Hne _].
  destruct l; done.
Qed.

Lemma entryAt_block b r :
  wellFormed b = true ->
  SrtFile.entryAt (blockHead nl b +:+ blockBody nl b +:+ nl +:+ r)
  = Some (blockHead nl b, blockBody nl b).
Proof.
  intros Hwf. pose proof (blockBody_nonempty b Hwf) as Hbody.
  unfold wellFormed in Hwf.
  repeat (apply andb_true_iff in Hwf as [Hwf ?]).
  apply negb_true_iff, String.eqb_neq in Hwf.
  destruct nl_head as (c & rest & Enl & Hend & Hdig).
  unfold SrtFile.entryAt, blockHead.
  rewrite <- !append_assoc.
  rewrite Enl at 1. rewrite append_cons, spanDigits_stop by assumption.
  rewrite <- append_cons, <- Enl.
  destruct (ordinal b) as [|o0 o] eqn:Eo; [done|].
  rewrite lineBreak_nl.
  rewrite Enl at 1. rewrite append_cons, spanLine_stop by assumption.
  rewrite <- append_cons, <- Enl.
  match goal with H : SrtFile.hasArrow _ = true |- _ => rewrite H end.
  rewrite lineBreak_nl.
  unfold blockBody in *. rewrite bodyFrom_lines by assumption.
  destruct (foldr _ _ (textLines b)); done.
Qed.

(** X19: a file of well-formed entries, each followed by an empty line, is
    read as these entries, in order: the head of a match is the ordinal and
    the timing line with their line breaks, its body the lines of text with
    theirs. This holds with line feeds and with carriage return and line
    feed as the line break. *)
Theorem entries_of_srtText (bs : list Block) :
  forallb wellFormed bs = true ->
  SrtFile.entries (srtText nl bs) = map (fun b => (blockHead nl b, blockBody nl b)) bs.
Proof.
  unfold SrtFile.entries. induction bs as [|b bs IH]; intros H; [reflexivity|].
  simpl in H. apply andb_true_iff in H as [Hb Hbs].
  cbn [srtText foldr map]. fold (srtText nl bs).
  pose proof (entryAt_block b (srtText nl bs) Hb) as Hat.
  pose proof (blockBody_nonempty b Hb) as Hbody.
  assert (exists c t, blockHead nl b +:+ blockBody nl b = String c t) as (c & t & Ht).
  { destruct (blockHead nl b +:+ blockBody nl b) as [|c t] eqn:E; [|now eexists _, _].
    destruct (blockHead nl b); [|discriminate]. now rewrite append_nil_l in E. }
  assert (Hlen : (String.length (blockHead nl b) + String.length (blockBody nl b) - 1)%nat
                 = String.length t).
  { rewrite <- length_app_string, Ht. simpl. lia. }
  rewrite append_assoc in Hat |- *. rewrite Ht in Hat |- *.
  rewrite append_cons in Hat |- *.
  cbn [SrtFile.entriesFrom]. rewrite Hat, Hlen.
  rewrite entriesFrom_skip, entriesFrom_nl, (IH Hbs). reflexivity.
Qed.

End SrtFileFacts.

(** ** File names *)

Section FileNameFacts.

Lemma yearMatch_cons c r :
  yearMatch (String c r)
  = match (if isLineEnd c then None else yearMatch r) with
    | Some n => Some (S n)
    | None => if yearAt (String c r) then Some 7%nat else None
    end.
Proof. reflexivity. Qed.

Lemma yearMatch_no_paren t : forall c,
  forallb (fun x => negb (Ascii.eqb x "(")) (list_ascii_of_string t) = true ->
  yearMatch (String c t) = None.
Proof.
  induction t as [|x t IH]; intros c H.
  - simpl. now destruct (isLineEnd c), c as [[] [] [] [] [] [] [] []].
  - simpl in H. apply andb_true_iff in H as [Hx H]. apply negb_true_iff in Hx.
    rewrite yearMatch_cons, (IH x H).
    assert (yearAt (String c (String x t)) = false) as ->.
    { unfold yearAt. destruct c as [[] [] [] [] [] [] [] []]; try reflexivity.
      destruct x as [[] [] [] [] [] [] [] []]; try reflexivity. discriminate. }
    now destruct (isLineEnd c).
Qed.

Lemma yearMatch_app a : forall t n,
  oneLine a = true ->
  yearMatch t = Some n ->
  yearMatch (a +:+ t) = Some (String.length a + n)%nat.
Proof.
  induction a as [|c a IH]; intros t n Ha Ht; [exact Ht|].
  simpl in Ha. apply andb_true_iff in Ha as [Hc Ha]. apply negb_true_iff in Hc.
  rewrite append_cons, yearMatch_cons, Hc, (IH t n Ha Ht). reflexivity.
Qed.

Lemma substring_prefix a : forall b,
  substring 0 (String.length a) (a +:+ b) = a.
Proof.
  induction a as [|c a IH]; intros b.
  - rewrite append_nil_l. now destruct b.
  - rewrite append_cons. simpl. now rewrite IH.
Qed.

(** X20: a file name that carries a year between parentheses after a
    blank is shown up to that year: what follows the closing parenthesis
    (resolution, extension) is dropped, provided it opens no parenthesis. *)
Theorem mapFileName_keeps_up_to_year (title rest : string) (a b c d : ascii) :
  oneLine title = true ->
  Js.isDigit a && Js.isDigit b && Js.isDigit c && Js.isDigit d = true ->
  forallb (fun x => negb (Ascii.eqb x "(")) (list_ascii_of_string rest) = true ->
  let year := String " " (String "(" (String a (String b (String c (String d ")"))))) in
  mapFileName (title +:+ year +:+ rest) = title +:+ year.
Proof.
  intros Htitle Hdigits Hrest year.
  assert (Hyear : yearMatch (year +:+ rest) = Some 7%nat).
  { subst year. rewrite !append_cons, append_nil_l.
    rewrite yearMatch_cons. change (isLineEnd " ") with false. cbv iota.
    rewrite yearMatch_no_paren.
    - unfold yearAt. now rewrite Hdigits.
    - simpl. apply andb_true_iff in Hdigits as [Hdigits Hd].
      apply andb_true_iff in Hdigits as [Hdigits Hc].
      apply andb_true_iff in Hdigits as [Ha Hb].
      assert (Hno : forall x, Js.isDigit x = true -> negb (Ascii.eqb x "(") = true).
      { intros x Hx. destruct (Ascii.eqb_spec x "(") as [->|]; [discriminate|reflexivity]. }
      now rewrite (Hno a Ha), (Hno b Hb), (Hno c Hc), (Hno d Hd). }
  pose proof (yearMatch_app title _ _ Htitle Hyear) as Hm.
  unfold mapFileName.
  destruct (title +:+ year +:+ rest) as [|x t] eqn:E.
  - destruct title; discriminate.
  - cbn [yearSearch]. rewrite Hm. rewrite <- E.
    replace (String.length title + 7)%nat with (String.length (title +:+ year))
      by (rewrite length_app_string; reflexivity).
    rewrite append_assoc. apply substring_prefix.
Qed.

End FileNameFacts.

(** ** [translatePath] and its cache *)

Section CacheFacts.

Variable cfg : Config.
Variable opts : Options.
Variable env : Env.

Lemma translateMatches_cache fileName sub matches s :
  executionCache (snd (translateMatches cfg env fileName sub matches s)) = executionCache s.
Proof.
  unfold translateMatches.
  now destruct (translatePathTail cfg env fileName sub matches (world s)).
Qed.

Lemma readAndTranslate_cache media path fileName sub s :
  is_Some (executionCache (snd (readAndTranslate cfg env media path fileName sub s)) !! path).
Proof.
  unfold readAndTranslate.
  destruct (pushMatches (readFileSync media sub) s) as [matches s1].
  rewrite translateMatches_cache. simpl. rewrite lookup_insert_eq. eauto.
Qed.

(** A call that resolves past the test of the existing translations leaves
    an entry for its path. *)
Lemma translatePath_remembers media path index total s r s1 :
  translatePath cfg opts env media path index total s = (Resolves r, s1) ->
  existingTranslation cfg opts (glob_sync media (subtitlePattern path)) = false ->
  is_Some (executionCache s1 !! path).
Proof.
  unfold translatePath, subtitlePattern. intros H Hex. rewrite Hex in H.
  set (s0 := if batch cfg then s else _) in H.
  destruct (executionCache s0 !! path) as [entry|] eqn:Hentry.
  - destruct entry; simpl in H; simplify_eq; now rewrite Hentry.
  - destruct (List.find _ _) as [sub|].
    + pose proof (readAndTranslate_cache media path (mapFileName (baseName path)) sub s0) as Hc.
      now rewrite H in Hc.
    + destruct (ffmpegSubtitles cfg media path s0) as [[result| |] s2]; [|done..].
      destruct (default false (translated result)).
      * simplify_eq. simpl. rewrite lookup_insert_eq. eauto.
      * destruct (file result) as [[|c f]|].
        -- simplify_eq. simpl. rewrite lookup_insert_eq. eauto.
        -- pose proof (readAndTranslate_cache media path (mapFileName (baseName path))
                         (String c f) s2) as Hc.
           now rewrite H in Hc.
        -- simplify_eq. simpl. rewrite lookup_insert_eq. eauto.
Qed.

(** With an entry for the path, a call prints at most one line and does
    nothing else. *)
Lemma translatePath_cached media path index total s :
  is_Some (executionCache s !! path) ->
  exists events,
    translatePath cfg opts env media path index total s
    = (Resolves None, onWorld (printAll events) s)
    /\ (length events <= 1)%nat.
Proof.
  intros [entry Hentry]. unfold translatePath.
  assert (Hid : onWorld (printAll []) s = s) by now destruct s.
  destruct (existingTranslation _ _ _).
  - destruct (debug cfg); [eexists [_]; split; [reflexivity|simpl; lia]|].
    exists []. rewrite Hid. split; [reflexivity|simpl; lia].
  - destruct (batch cfg).
    + rewrite Hentry. exists []. rewrite Hid. split; [now destruct entry|simpl; lia].
    + simpl. rewrite Hentry. eexists [_]. split; [now destruct entry|simpl; lia].
Qed.

(** X21: a media file is worked on once per process. After a call of
    [translatePath] that resolved past the test of the existing
    translations (whether it translated, queued, failed or found no
    subtitles), every later call for the same path, whatever is then on the
    disk, resolves with [undefined] and changes nothing but the console, on
    which it prints at most one line: the segments kept in the cache are
    never used again. *)
Theorem translatePath_works_once media path index total s r s1 :
  translatePath cfg opts env media path index total s = (Resolves r, s1) ->
  existingTranslation cfg opts (glob_sync media (subtitlePattern path)) = false ->
  forall media' index' total',
  exists events,
    translatePath cfg opts env media' path index' total' s1
    = (Resolves None, onWorld (printAll events) s1)
    /\ (length events <= 1)%nat.
Proof.
  intros H Hex media' index' total'.
  apply translatePath_cached. exact (translatePath_remembers _ _ _ _ _ _ _ H Hex).
Qed.

End CacheFacts.

(** ** The choice of the embedded stream *)

Section StreamFacts.

Context {A : Type}.

Lemma findM_found (p : A -> option bool) l x :
  findM p l = Some (Some x) ->
  exists pre post,
    l = pre ++ x :: post
    /\ Forall (fun y => p y = Some false) pre
    /\ p x = Some true.
Proof.
  induction l as [|y l IH]; intros H; [done|]. simpl in H.
  destruct (p y) as [[|]|] eqn:Hy; [| |done].
  - simplify_eq. now exists [], l.
  - destruct (IH H) as (pre & post & -> & Hpre & Hx).
    exists (y :: pre), post. repeat split; [|exact Hx]. now constructor.
Qed.

Lemma findM_none (p : A -> option bool) l :
  findM p l = Some None -> Forall (fun y => p y = Some false) l.
Proof.
  induction l as [|y l IH]; intros H; [constructor|]. simpl in H.
  destruct (p y) as [[|]|] eqn:Hy; [done| |done]. constructor; [exact Hy|now apply IH].
Qed.

Lemma findM_throws (p : A -> option bool) pre x post :
  Forall (fun y => p y = Some false) pre ->
  p x = None ->
  findM p (pre ++ x :: post) = None.
Proof.
  intros Hpre Hx. induction Hpre as [|y pre Hy _ IH]; simpl; [now rewrite Hx|].
  now rewrite Hy.
Qed.

End StreamFacts.

Section ExtractionFacts.

Variable cfg : Config.
Variable media : Media.

(** X22: when [ffmpegSubtitles] hands a file over for translation, it has
    run [ffmpeg] once, on the first English stream among the text subtitle
    streams that are not forced, and written to the name of the media file
    with [.en.srt] for its extension; and none of these streams carries a
    language of the target list. *)
Theorem ffmpegSubtitles_extracts_first_english inputVideo s r s' f :
  ffmpegSubtitles cfg media inputVideo s = (Resolves r, s') ->
  file r = Some f ->
  exists streams pre st post,
    ffprobe media inputVideo = inr streams
    /\ List.filter eligible streams = pre ++ st :: post
    /\ Forall (fun x => isEnglish x = Some false) pre
    /\ isEnglish st = Some true
    /\ Forall (fun x => isTarget cfg x = Some false) (List.filter eligible streams)
    /\ f = replaceVideoExt inputVideo ".en.srt"
    /\ extractions s' = extractions s ++ [(inputVideo, streamIndex st, f)]
    /\ written s' = written s
    /\ translated r = Some false.
Proof.
  unfold ffmpegSubtitles. intros H Hf.
  destruct (ffprobe media inputVideo) as [err|streams]; [done|].
  destruct (List.filter eligible streams) as [|st0 sts] eqn:Hfilter; [now simplify_eq|].
  destruct (findM isEnglish (st0 :: sts)) as [englishSub|] eqn:Henglish; [|done].
  destruct (findM (isTarget cfg) (st0 :: sts)) as [[translation|]|] eqn:Htarget; [| |done].
  - destruct (ffmpeg_run _ _ _ _); [done|]. now simplify_eq.
  - destruct englishSub as [english|].
    + destruct (ffmpeg_run _ _ _ _); [done|]. simplify_eq. simpl in Hf. simplify_eq.
      destruct (findM_found _ _ _ Henglish) as (pre & post & Hl & Hpre & Hst).
      exists streams, pre, english, post.
      rewrite Hfilter.
      split; [reflexivity|]. split; [exact Hl|]. split; [exact Hpre|].
      split; [exact Hst|]. split; [now apply findM_none|]. done.
    + destruct (filterM _ _); [|done]. now simplify_eq.
Qed.

(** X23: a text subtitle stream without a language tag, when no English
    stream precedes it among the text subtitle streams that are not forced,
    keeps the promise from settling: the test of the language throws inside
    the callback of the probe, and nothing has been printed or extracted. *)
Theorem ffmpegSubtitles_untagged_stream inputVideo s streams pre st post :
  ffprobe media inputVideo = inr streams ->
  List.filter eligible streams = pre ++ st :: post ->
  Forall (fun x => isEnglish x = Some false) pre ->
  tags st = NoTags \/ tags st = NoLanguage ->
  ffmpegSubtitles cfg media inputVideo s = (Pending, s).
Proof.
  intros Hprobe Hfilter Hpre Htags. unfold ffmpegSubtitles. rewrite Hprobe, Hfilter.
  assert (Hst : isEnglish st = None).
  { unfold isEnglish. now destruct Htags as [-> | ->]. }
  pose proof (findM_throws isEnglish pre st post Hpre Hst) as Hthrows.
  destruct (pre ++ st :: post) as [|x xs] eqn:E; [now destruct pre|].
  now rewrite Hthrows.
Qed.

End ExtractionFacts.

(** ** From the subtitle file to the translated file *)

Section EchoFacts.

Variable cfg : Config.
Variable env : Env.
Hypothesis Hsync : batch cfg = false.
Hypothesis Hecho : echoing env.

Lemma getTranslation_echo text w :
  getTranslation cfg env text w = (Ret (Some text), send (ChatCompletion text) w).
Proof. unfold getTranslation. now rewrite Hsync, Hecho. Qed.

Lemma groupText_nonempty w m group : groupText w (m :: group) <> EmptyString.
Proof.
  unfold groupText, contents, Js.join. simpl.
  destruct (numbered 1 _); discriminate.
Qed.

Lemma translate_echo group w :
  NoDup group ->
  (forall m, m ∈ group -> lineFree (content (segments w m)) = true) ->
  exists r w',
    translate cfg env group 0 w = (Ret r, w') /\ echoedInto group w w'.
Proof.
  intros Hnd Hfree. destruct group as [|m0 group].
  - exists false, (send (ChatCompletion (groupText w [])) w). split.
    + apply translate_return. unfold attempt. now rewrite getTranslation_echo.
    + repeat split; try done. intros m Hm. now apply elem_of_nil in Hm.
  - pose proof (getTranslation_echo (groupText w (m0 :: group)) w) as Hget.
    pose proof (groupText_read_back w (m0 :: group) Hfree) as Hparse.
    assert (Hlen : length (parseTranslation (groupText w (m0 :: group)))
                   = length (m0 :: group))
      by now rewrite Hparse, length_echoes, length_contents.
    pose proof (attempt_matched cfg env _ 0 _ _ _ Hget (groupText_nonempty w m0 group) Hlen)
      as Ha.
    apply translate_return in Ha.
    set (wc := compared cfg (m0 :: group) 0 (groupText w (m0 :: group)) w
                 (send (ChatCompletion (groupText w (m0 :: group))) w)) in Ha.
    assert (Hwc : segments wc = segments w /\ subtitleFiles wc = subtitleFiles w).
    { subst wc. unfold compared.
      match goal with |- context [recordAttempt cfg ?t ?tr ?n ?os ?ss ?w0] =>
        destruct (recordAttempt_frame cfg t tr n os ss w0) as (Hs & _ & _ & _ & Hf) end.
      split; [exact Hs|exact Hf]. }
    destruct Hwc as [Hseg Hfiles]. clearbody wc.
    rewrite Hseg, Hparse in Ha. eexists true, _. split; [exact Ha|].
    unfold echoedInto. cbn [segments subtitleFiles setSegments].
    split; [intros m; apply assignFrom_keeps|].
    split; [intros m Hm; now apply assignFrom_other|].
    split; [|exact Hfiles].
    intros m Hm. apply list_elem_of_lookup in Hm as [i Hi]. exists i.
    rewrite (assignFrom_lookup _ _ 0 _ i m Hnd Hi).
    apply (lookup_echoes _ 0 i). unfold contents. now rewrite list_lookup_fmap, Hi.
Qed.

Lemma echoedInto_trans g1 g2 w w1 w2 :
  (forall m, m ∈ g1 -> m ∉ g2) ->
  echoedInto g1 w w1 -> echoedInto g2 w1 w2 -> echoedInto (g1 ++ g2) w w2.
Proof.
  intros Hdisj (Hk1 & Ho1 & Ht1 & Hf1) (Hk2 & Ho2 & Ht2 & Hf2). repeat split.
  - destruct (Hk1 m) as [H1 _], (Hk2 m) as [H2 _]. congruence.
  - destruct (Hk1 m) as [_ H1], (Hk2 m) as [_ H2]. congruence.
  - intros m Hm. apply not_elem_of_app in Hm as [Hm1 Hm2].
    now rewrite (Ho2 m Hm2), (Ho1 m Hm1).
  - intros m Hm. apply elem_of_app in Hm as [Hm|Hm].
    + destruct (Ht1 m Hm) as [k Hk]. exists k. now rewrite (Ho2 m (Hdisj m Hm)).
    + destruct (Ht2 m Hm) as [k Hk]. exists k. destruct (Hk1 m) as [_ Hc].
      now rewrite Hk, Hc.
  - congruence.
Qed.

Lemma echoedInto_refl w : echoedInto [] w w.
Proof. repeat split; try done. intros m Hm. now apply elem_of_nil in Hm. Qed.

Lemma runWindow_echo window : forall w,
  NoDup (concat window) ->
  (forall m, m ∈ concat window -> lineFree (content (segments w m)) = true) ->
  exists w', runWindow cfg env window w = (None, w') /\ echoedInto (concat window) w w'.
Proof.
  induction window as [|group rest IH]; intros w Hnd Hfree.
  - exists w. split; [reflexivity|apply echoedInto_refl].
  - simpl in Hnd, Hfree. apply NoDup_app in Hnd as (Hg & Hdisj & Hrest).
    destruct (translate_echo group w Hg) as (r & w1 & Ht & H1).
    { intros m Hm. apply Hfree, elem_of_app. now left. }
    destruct (IH w1 Hrest) as (w2 & Hr & H2).
    { intros m Hm. destruct H1 as (Hk & _). destruct (Hk m) as [_ ->].
      apply Hfree, elem_of_app. now right. }
    exists w2. split.
    + simpl. now rewrite Ht, Hr.
    + simpl. now apply (echoedInto_trans _ _ _ w1).
Qed.

Lemma runWindows_echo ws : forall w,
  NoDup (concat (concat ws)) ->
  (forall m, m ∈ concat (concat ws) -> lineFree (content (segments w m)) = true) ->
  exists w', runWindows cfg env ws w = (None, w')
             /\ echoedInto (concat (concat ws)) w w'.
Proof.
  induction ws as [|window rest IH]; intros w Hnd Hfree.
  - exists w. split; [reflexivity|apply echoedInto_refl].
  - simpl in Hnd, Hfree. rewrite concat_app in Hnd, Hfree.
    apply NoDup_app in Hnd as (Hg & Hdisj & Hrest).
    destruct (runWindow_echo window w Hg) as (w1 & Ht & H1).
    { intros m Hm. apply Hfree, elem_of_app. now left. }
    destruct (IH w1 Hrest) as (w2 & Hr & H2).
    { intros m Hm. destruct H1 as (Hk & _). destruct (Hk m) as [_ ->].
      apply Hfree, elem_of_app. now right. }
    exists w2. split.
    + simpl. now rewrite Ht, Hr.
    + simpl. rewrite concat_app. now apply (echoedInto_trans _ _ _ w1).
Qed.

Lemma windows_concat fuel : forall groups : list (list loc),
  (length groups <= fuel)%nat -> concat (windows fuel groups) = groups.
Proof.
  induction fuel as [|fuel IH]; intros groups Hlen.
  - destruct groups; [reflexivity|simpl in Hlen; lia].
  - destruct groups as [|g groups]; [reflexivity|].
    cbn [windows concat]. rewrite IH.
    + apply take_drop.
    + rewrite length_drop. simpl in *. lia.
Qed.

(** Lines 385 to 406 under such a model: every segment is translated and
    the file is written. *)
Lemma translatePathTail_echo fileName subtitlePath matches w :
  NoDup matches ->
  (forall m, m ∈ matches -> lineFree (content (segments w m)) = true) ->
  exists w1,
    translatePathTail cfg env fileName subtitlePath matches w
    = (Some false,
       print (Log ("Successfully translated: " +:+ fileName))
         (writeSubtitle {| sourcePath := subtitlePath;
                           languageAlias := head (TARGET_LANGUAGE_ALIAS cfg);
                           body := renderSubtitle w1 matches |} w1))
    /\ echoedInto matches w w1.
Proof.
  intros Hnd Hfree. unfold translatePathTail.
  set (groups := groupSegmentsByTokenLength _ _ matches _).
  assert (Hconcat : concat groups = matches).
  { subst groups. unfold groupSegmentsByTokenLength.
    now rewrite flushGroup_concat, groupLoop_concat. }
  pose proof (windows_concat (length groups) groups (le_n _)) as Hw.
  destruct (runWindows_echo (windows (length groups) groups) w) as (w1 & Hrun & Hinto).
  { now rewrite Hw, Hconcat. }
  { intros m Hm. rewrite Hw, Hconcat in Hm. now apply Hfree. }
  rewrite Hw, Hconcat in Hinto. exists w1. split; [|exact Hinto].
  rewrite Hrun.
  assert (Hevery : everyTranslated w1 matches = true).
  { apply everyTranslated_true. intros m Hm.
    destruct Hinto as (_ & _ & Ht & _). destruct (Ht m Hm) as [k Hk].
    pose proof (echoed_nonempty k (content (segments w m))) as Hne.
    rewrite Hk. destruct (echoed k _); [done|eauto]. }
  now rewrite Hevery.
Qed.

Lemma storeSegments_below segs : forall l heap m,
  (m < l)%nat -> storeSegments l segs heap m = heap m.
Proof.
  induction segs as [|seg segs IH]; intros l heap m Hm; [reflexivity|].
  simpl. rewrite IH by lia. apply update_ne. lia.
Qed.

Lemma storeSegments_lookup segs : forall l heap i seg,
  segs !! i = Some seg -> storeSegments l segs heap (l + i)%nat = seg.
Proof.
  induction segs as [|seg0 segs IH]; intros l heap i seg Hi; [done|].
  destruct i as [|i]; simpl in Hi |- *.
  - simplify_eq. rewrite Nat.add_0_r, storeSegments_below by lia. apply update_eq.
  - replace (l + S i)%nat with (S l + i)%nat by lia. now apply IH.
Qed.

Variable opts : Options.
Variable media : Media.

(** X24: from the subtitle file to the translated file. In synchronous
    mode, with a model that repeats each request, a media file that has an
    English subtitle file beside it, no translation yet and no entry in the
    cache is translated in one call: the call resolves with [false] and one
    file has been written, which holds, in the order of the source file,
    one line per entry matched there, made of the head of the entry
    followed by a text that is not empty and is the cleaned text of the
    entry, without its trailing blanks, whenever that is not blank. *)
Theorem translatePath_echo_writes_every_entry path index total s sub :
  existingTranslation cfg opts (glob_sync media (subtitlePattern path)) = false ->
  executionCache s !! path = None ->
  List.find (fun f => endsWith f ".en.srt") (glob_sync media (subtitlePattern path))
  = Some sub ->
  exists s' lines,
    translatePath cfg opts env media path index total s = (Resolves (Some false), s')
    /\ subtitleFiles (world s')
       = subtitleFiles (world s)
         ++ [ {| sourcePath := sub;
                 languageAlias := head (TARGET_LANGUAGE_ALIAS cfg);
                 body := Js.join (String newline (String newline EmptyString)) lines |} ]
    /\ length lines = length (SrtFile.entries (readFileSync media sub))
    /\ (forall i h b,
          SrtFile.entries (readFileSync media sub) !! i = Some (h, b) ->
          exists t,
            lines !! i = Some (h +:+ t)
            /\ t <> EmptyString
            /\ (Js.trimEnd (Srt.cleanContent b) <> EmptyString ->
                t = Js.trimEnd (Srt.cleanContent b))).
Proof.
  unfold subtitlePattern. intros Hex Hcache Hfind.
  unfold translatePath. rewrite Hex, Hsync.
  set (s0 := onWorld _ s).
  change (executionCache s0) with (executionCache s).
  rewrite Hcache, Hfind. unfold readAndTranslate, pushMatches.
  set (entries := SrtFile.entries (readFileSync media sub)).
  set (segs := map (fun '(head, body) => Srt.segmentOfMatch head body) entries).
  set (fileName := mapFileName (baseName path)).
  set (w := setSegments (storeSegments (allocated s0) segs (segments (world s0))) (world s0)).
  set (matches := seq (allocated s0) (length segs)).
  assert (Hseg : forall i h b, entries !! i = Some (h, b) ->
            matches !! i = Some (allocated s0 + i)%nat
            /\ segments w (allocated s0 + i)%nat = Srt.segmentOfMatch h b).
  { intros i h b Hi. split.
    - apply lookup_seq. split; [reflexivity|].
      subst segs. rewrite length_map. now apply lookup_lt_Some in Hi.
    - subst w. cbn [segments setSegments]. apply storeSegments_lookup.
      subst segs. now rewrite list_lookup_fmap, Hi. }
  destruct (translatePathTail_echo fileName sub matches w) as (w1 & Htail & Hinto).
  { apply NoDup_seq. }
  { intros m Hm. apply list_elem_of_lookup in Hm as [i Hi].
    apply lookup_seq in Hi as [-> Hi].
    destruct (lookup_lt_is_Some_2 entries i) as [[h b] Hhb].
    { subst segs. now rewrite length_map in Hi. }
    destruct (Hseg i h b Hhb) as [_ ->]. apply cleanContent_lineFree. }
  unfold translateMatches. cbn [world remember]. fold w. rewrite Htail.
  eexists _, (map (fun m => header (segments w1 m)
                            +:+ default EmptyString (translatedContent (segments w1 m)))
                  matches).
  split; [reflexivity|].
  destruct Hinto as (Hkeep & _ & Htr & Hfiles).
  split; [|split].
  - cbn [world onWorld subtitleFiles print writeSubtitle]. now rewrite Hfiles.
  - subst matches segs. now rewrite !length_map, length_seq.
  - intros i h b Hi. destruct (Hseg i h b Hi) as [Hm Hsegm].
    destruct (Htr (allocated s0 + i)%nat) as [k Hk].
    { now apply list_elem_of_lookup_2 in Hm. }
    exists (echoed k (Srt.cleanContent b)).
    rewrite (list_lookup_fmap _ matches i), Hm. cbn [fmap option_fmap option_map].
    destruct (Hkeep (allocated s0 + i)%nat) as [-> _].
    rewrite Hk, Hsegm. cbn [header content Srt.segmentOfMatch default].
    split; [reflexivity|]. split; [apply echoed_nonempty|].
    intros Hne. unfold echoed. now destruct (Js.trimEnd (Srt.cleanContent b)).
Qed.

End EchoFacts.

(** ** Entries with tags *)

Section TagFacts.

Lemma betweenTagsFrom_before before : forall r,
  without ">" before = true ->
  Srt.betweenTagsFrom None (before +:+ r) = Srt.betweenTagsFrom None r.
Proof.
  induction before as [|c before IH]; intros r H; [reflexivity|].
  simpl in H. apply andb_true_iff in H as [Hc H]. apply negb_true_iff in Hc.
  rewrite append_cons. cbn [Srt.betweenTagsFrom]. rewrite Hc. now apply IH.
Qed.

Lemma betweenTagsFrom_inside inside : forall run r,
  without "<" inside = true ->
  run +:+ inside <> EmptyString ->
  Srt.betweenTagsFrom (Some run) (inside +:+ String "<" r)
  = (run +:+ inside) :: Srt.betweenTagsFrom None r.
Proof.
  induction inside as [|c inside IH]; intros run r H Hne.
  - rewrite append_nil_l. rewrite append_nil_r in *. cbn [Srt.betweenTagsFrom].
    change (Ascii.eqb "<" "<") with true. cbv iota. now destruct run.
  - simpl in H. apply andb_true_iff in H as [Hc H]. apply negb_true_iff in Hc.
    rewrite append_cons. cbn [Srt.betweenTagsFrom]. rewrite Hc.
    rewrite IH; [|exact H|].
    + now rewrite <- (append_assoc run).
    + rewrite <- append_assoc. exact Hne.
Qed.

(** X25: in an entry that holds text between a [>] and the next [<], only
    the stretches so enclosed are kept: what precedes the first [>] of the
    entry, for instance a line without tags above a line in italics, does
    not reach the content of the segment. *)
Theorem text_outside_tags_is_dropped (body before inside after : string) :
  Js.trim body = before +:+ String ">" (inside +:+ String "<" after) ->
  without ">" before = true ->
  without "<" inside = true ->
  Js.trim inside <> EmptyString ->
  Srt.cleanContent body
  = Srt.removeBraces
      (Srt.newlinesToSpaces
         (Js.join " " (map Js.trim (inside :: Srt.betweenTags after)))).
Proof.
  intros Hbody Hbefore Hinside Hne.
  assert (Hin : inside <> EmptyString) by (intros ->; now apply Hne).
  assert (Hbt : Srt.betweenTags (before +:+ String ">" (inside +:+ String "<" after))
                = inside :: Srt.betweenTags after).
  { unfold Srt.betweenTags. rewrite (betweenTagsFrom_before before _ Hbefore).
    cbn [Srt.betweenTagsFrom]. change (Ascii.eqb ">" ">") with true. cbv iota.
    rewrite (betweenTagsFrom_inside inside EmptyString after Hinside)
      by now rewrite append_nil_l.
    now rewrite append_nil_l. }
  unfold Srt.cleanContent. rewrite Hbody, Hbt. cbv zeta.
  destruct (Js.join " " (map Js.trim (inside :: Srt.betweenTags after))) as [|c r] eqn:E;
    [|reflexivity].
  exfalso. unfold Js.join in E. cbn [map String.concat] in E.
  destruct (map Js.trim (Srt.betweenTags after)); [now apply Hne|].
  destruct (Js.trim inside); [now apply Hne|discriminate].
Qed.

End TagFacts.

(** ** Further runs of [translatePath] *)

Section PathFacts.

Variable cfg : Config.
Variable opts : Options.
Variable env : Env.
Variable media : Media.

(** X26: a subtitle file in which the expression finds no entry is
    reported as translated. Whatever the mode, the call sends and queues
    nothing, writes a translated file without content and resolves with
    [false]. *)
Theorem translatePath_without_entry path index total s sub :
  existingTranslation cfg opts (glob_sync media (subtitlePattern path)) = false ->
  executionCache s !! path = None ->
  List.find (fun f => endsWith f ".en.srt") (glob_sync media (subtitlePattern path))
  = Some sub ->
  SrtFile.entries (readFileSync media sub) = [] ->
  let res := translatePath cfg opts env media path index total s in
  fst res = Resolves (Some false)
  /\ subtitleFiles (world (snd res))
     = subtitleFiles (world s)
       ++ [ {| sourcePath := sub;
               languageAlias := head (TARGET_LANGUAGE_ALIAS cfg);
               body := EmptyString |} ]
  /\ network (world (snd res)) = network (world s)
  /\ toBatch (world (snd res)) = toBatch (world s).
Proof.
  unfold subtitlePattern. intros Hex Hcache Hfind Hentries.
  unfold translatePath. rewrite Hex.
  set (s0 := if batch cfg then s else _).
  assert (Hs0 : executionCache s0 = executionCache s
                /\ subtitleFiles (world s0) = subtitleFiles (world s)
                /\ network (world s0) = network (world s)
                /\ toBatch (world s0) = toBatch (world s))
    by (subst s0; now destruct (batch cfg)).
  destruct Hs0 as (Hc & Hf & Hn & Hb). rewrite Hc, Hcache, Hfind.
  unfold readAndTranslate, pushMatches. rewrite Hentries.
  cbn. now rewrite Hf, Hn, Hb.
Qed.

Hypothesis Hbatch : batch cfg = true.

Lemma translate_queues group w :
  jobs w = [] ->
  translate cfg env group 0 w
  = (Ret false,
     pushToBatch {| custom_id := random env (randomDraws w);
                    bodyText := groupText w group |} w).
Proof.
  intros Hjobs. apply translate_return. unfold attempt, getTranslation, findJob.
  now rewrite Hbatch, Hjobs.
Qed.

(** What queueing the groups of [window] does in batch mode with an empty
    job store. *)
Lemma runWindow_queues window : forall w,
  jobs w = [] ->
  exists w',
    runWindow cfg env window w = (None, w')
    /\ segments w' = segments w /\ jobs w' = []
    /\ map bodyText (toBatch w') = map bodyText (toBatch w) ++ map (groupText w) window
    /\ network w' = network w /\ subtitleFiles w' = subtitleFiles w.
Proof.
  induction window as [|group rest IH]; intros w Hjobs.
  - exists w. simpl. now rewrite app_nil_r.
  - destruct (IH (pushToBatch {| custom_id := random env (randomDraws w);
                                 bodyText := groupText w group |} w) Hjobs)
      as (w' & Hrun & Hseg & Hj & Hq & Hn & Hf).
    exists w'. cbn [runWindow]. rewrite (translate_queues group w Hjobs), Hrun.
    split; [reflexivity|]. split; [exact Hseg|]. split; [exact Hj|].
    split; [|split; [exact Hn|exact Hf]].
    rewrite Hq. cbn [toBatch pushToBatch map]. rewrite map_app, <- app_assoc.
    reflexivity.
Qed.

Lemma runWindows_queues ws : forall w,
  jobs w = [] ->
  exists w',
    runWindows cfg env ws w = (None, w')
    /\ segments w' = segments w /\ jobs w' = []
    /\ map bodyText (toBatch w') = map bodyText (toBatch w) ++ map (groupText w) (concat ws)
    /\ network w' = network w /\ subtitleFiles w' = subtitleFiles w.
Proof.
  induction ws as [|window rest IH]; intros w Hjobs.
  - exists w. simpl. now rewrite app_nil_r.
  - destruct (runWindow_queues window w Hjobs) as (w1 & Hrun1 & Hseg1 & Hj1 & Hq1 & Hn1 & Hf1).
    destruct (IH w1 Hj1) as (w' & Hrun & Hseg & Hj & Hq & Hn & Hf).
    exists w'. cbn [runWindows]. rewrite Hrun1, Hrun.
    split; [reflexivity|]. split; [congruence|]. split; [exact Hj|].
    split; [|split; congruence].
    rewrite Hq, Hq1, concat_cons, map_app, <- app_assoc. do 2 f_equal.
    apply map_ext. intros g. now apply groupText_ext.
Qed.

(** X27: the first visit of a media file in batch mode, with no job in the
    store. The entries of its subtitle file become segments, and the call
    queues the request text of each group of their grouping, in order,
    sends nothing, writes no file and resolves with [true]. *)
Theorem translatePath_batch_first_visit path index total s sub :
  existingTranslation cfg opts (glob_sync media (subtitlePattern path)) = false ->
  executionCache s !! path = None ->
  List.find (fun f => endsWith f ".en.srt") (glob_sync media (subtitlePattern path))
  = Some sub ->
  jobs (world s) = [] ->
  SrtFile.entries (readFileSync media sub) <> [] ->
  exists s',
    translatePath cfg opts env media path index total s = (Resolves (Some true), s')
    /\ (forall i h b,
          SrtFile.entries (readFileSync media sub) !! i = Some (h, b) ->
          segments (world s') (allocated s + i)%nat = Srt.segmentOfMatch h b)
    /\ map bodyText (toBatch (world s'))
       = map bodyText (toBatch (world s))
         ++ map (groupText (world s'))
              (groupSegmentsByTokenLength (fun m => content (segments (world s') m))
                 (numTokens env)
                 (seq (allocated s) (length (SrtFile.entries (readFileSync media sub))))
                 (MAX_TOKENS cfg))
    /\ network (world s') = network (world s)
    /\ subtitleFiles (world s') = subtitleFiles (world s).
Proof.
  unfold subtitlePattern. intros Hex Hcache Hfind Hjobs Hentries.
  unfold translatePath. rewrite Hex, Hbatch, Hcache, Hfind.
  unfold readAndTranslate, pushMatches.
  set (entries := SrtFile.entries (readFileSync media sub)) in *.
  set (segs := map (fun '(head, body) => Srt.segmentOfMatch head body) entries).
  set (fileName := mapFileName (baseName path)).
  set (w := setSegments (storeSegments (allocated s) segs (segments (world s))) (world s)).
  assert (Hlen : length segs = length entries) by (subst segs; apply length_map).
  rewrite Hlen.
  set (matches := seq (allocated s) (length entries)).
  assert (Hseg : forall i h b, entries !! i = Some (h, b) ->
            segments w (allocated s + i)%nat = Srt.segmentOfMatch h b).
  { intros i h b Hi. subst w. cbn [segments setSegments]. apply storeSegments_lookup.
    subst segs. now rewrite list_lookup_fmap, Hi. }
  unfold translateMatches, translatePathTail. cbn [world remember]. fold w.
  set (groups := groupSegmentsByTokenLength (fun m => content (segments w m))
                   (numTokens env) matches (MAX_TOKENS cfg)).
  destruct (runWindows_queues (windows (length groups) groups) w Hjobs)
    as (w1 & Hrun & Hs1 & _ & Hq & Hn & Hf).
  rewrite (windows_concat (length groups) groups (le_n _)) in Hq.
  rewrite Hrun.
  assert (Hevery : everyTranslated w1 matches = false).
  { destruct entries as [|[h b] rest] eqn:E; [done|].
    subst matches. cbn [length seq everyTranslated forallb].
    rewrite Hs1. rewrite <- (Nat.add_0_r (allocated s)) at 1.
    now rewrite (Hseg 0%nat h b eq_refl). }
  rewrite Hevery. eexists. split; [reflexivity|].
  cbn [world onWorld]. rewrite Hs1.
  split; [exact Hseg|]. split; [|split; [exact Hn|exact Hf]].
  transitivity (map bodyText (toBatch w) ++ map (groupText w) groups); [exact Hq|].
  f_equal. apply map_ext. intros g. symmetry. now apply groupText_ext.
Qed.

End PathFacts.

(** ** Media files that carry their translation *)

Section TargetFacts.



Variable cfg : Config.
Variable opts : Options.
Variable env : Env.
Variable media : Media.


End TargetFacts.

(** ** Media files that are skipped *)

Section SkipFacts.

Lemma substring_suffix a : forall b,
  substring (String.length a) (String.length b) (a +:+ b) = b.
Proof.
  induction a as [|c a IH]; intros b.
  - rewrite append_nil_l. simpl. rewrite <- (append_nil_r b) at 2.
    apply substring_prefix.
  - rewrite append_cons. simpl. apply IH.
Qed.

Lemma endsWith_app stem suffix : endsWith (stem +:+ suffix) suffix = true.
Proof.
  unfold endsWith. rewrite length_app_string. apply andb_true_iff. split.
  - apply Nat.leb_le. lia.
  - replace (String.length stem + String.length suffix - String.length suffix)%nat
      with (String.length stem) by lia.
    rewrite substring_suffix. apply String.eqb_refl.
Qed.


Variable cfg : Config.
Variable opts : Options.
Variable env : Env.
Variable media : Media.

(** X29: a media file that has a translation beside it is left alone.
    Unless [--ignore-existing-translation] is given, when one of the
    subtitle files found for the path carries the suffix of a language of
    the target list, or of the target language, the call resolves with
    [undefined]; but for one line printed in debug mode the process is as
    before, the cache included. *)
Theorem translatePath_skips_translated path index total s stem language :
  ignore_existing_translation opts = false ->
  stem +:+ "." +:+ language +:+ ".srt" ∈ glob_sync media (subtitlePattern path) ->
  language ∈ TARGET_LANGUAGE_ALIAS cfg \/ language = TARGET_LANGUAGE opts ->
  translatePath cfg opts env media path index total s
  = (Resolves None,
     if debug cfg
     then onWorld (print (Error "Skipping, existing translation: {{0}}"
                            [ArgStr (mapFileName (baseName path))])) s
     else s).
Proof.
  unfold subtitlePattern. intros Hflag Hfile Hlanguage. unfold translatePath.
  assert (Hex : existingTranslation cfg opts
                  (glob_sync media (escapeBrackets (replaceVideoExt path "*.srt"))) = true).
  { unfold existingTranslation. apply existsb_exists.
    exists (stem +:+ "." +:+ language +:+ ".srt"). split; [now apply list_elem_of_In|].
    rewrite Hflag. cbn [negb andb]. apply orb_true_iff.
    destruct Hlanguage as [Hin | ->].
    - left. apply existsb_exists. exists language. split; [now apply list_elem_of_In|].
      apply endsWith_app.
    - right. apply endsWith_app. }
  now rewrite Hex.
Qed.


End SkipFacts.

(** ** The further properties on the sample data *)

Import BatchSamples.

Lemma request_text_reads_back_witness :
  parseTranslation (groupText fresh [0; 1; 2]%nat)
  = echoes 0 (contents fresh [0; 1; 2]%nat)
  /\ length (parseTranslation (groupText fresh [0; 1; 2]%nat)) = 3%nat
  /\ (forall k c, contents fresh [0; 1; 2]%nat !! k = Some c ->
        Js.trimEnd c <> EmptyString ->
        parseTranslation (groupText fresh [0; 1; 2]%nat) !! k = Some (Js.trimEnd c)).
Proof.
  apply (request_text_reads_back fresh [0; 1; 2]%nat).
  intros m Hm. apply list_elem_of_In in Hm. simpl in Hm.
  destruct Hm as [<-|[<-|[<-|[]]]]; reflexivity.
Defined.

Lemma plain_entry_is_kept_witness :
  Srt.cleanContent ("Hello." +:+ line) = "Hello.".
Proof. apply (plain_entry_is_kept ("Hello." +:+ line)). reflexivity. Defined.


Lemma batchTranslations_rejected_keeps_pending_witness :
  exists e w' calls,
    batchTranslations refusing false queued = (Throw e, w', calls)
    /\ toBatch w' = toBatch queued
    /\ jobs w' = jobs queued /\ jobObjects w' = jobObjects queued
    /\ cacheFile w' = cacheFile queued.
Proof.
  apply (batchTranslations_rejected_keeps_pending refusing false queued).
  - vm_compute. discriminate.
  - left. reflexivity.
Defined.

Lemma submitted_text_is_not_queued_again_witness :
  getTranslation batched (answering threeLines) helloText sent = (Ret None, sent).
Proof.
  apply (submitted_text_is_not_queued_again batched (answering threeLines)
           accepting false queued sent
           [WriteJsonl (toBatch queued); FilesCreate (toBatch queued);
            BatchesCreate "file_in"]
           (mkBatchEntry 100 helloText)).
  - reflexivity.
  - reflexivity.
  - apply list_elem_of_here.
  - reflexivity.
Defined.

Lemma batch_round_trip_witness :
  getTranslation batched (answering twoLines) helloText polled
  = (Ret (Some threeLines), polled).
Proof.
  apply (batch_round_trip batched (answering twoLines) accepting false completed queued
           sent
           [WriteJsonl (toBatch queued); FilesCreate (toBatch queued);
            BatchesCreate "file_in"]
           polled "file_in" "batch_1"
           [Answer (Some threeLines); Answer (Some "1. Adios.")]
           0%nat (mkBatchEntry 100 helloText) (Some threeLines)).
  - reflexivity.
  - reflexivity.
  - reflexivity.
  - intros k' e' Hk. lia.
  - reflexivity.
  - reflexivity.
  - reflexivity.
  - exists (mkBatch "completed" (Some "file_1") None), "file_1".
    repeat split; reflexivity.
  - reflexivity.
  - reflexivity.
Defined.

Lemma checkBatchStatus_drops_lost_job_witness :
  let w' := snd (checkBatchStatus failing stored) in
  (forall x, x ∈ jobs w' -> jobId (jobObjects w' x) <> jobId (jobObjects stored 0%nat))
  /\ (0%nat ∉ jobs w')
  /\ (forall x, x ∈ jobs w' -> x ∈ jobs stored)
  /\ cacheFile w' = Some (map (jobObjects w') (jobs w')).
Proof.
  apply (checkBatchStatus_drops_lost_job failing stored
           (snd (checkBatchStatus failing stored)) 0%nat).
  - reflexivity.
  - apply list_elem_of_here.
  - reflexivity.
  - exists (mkBatch "failed" None None). split; [reflexivity|left; reflexivity].
Defined.

Lemma checkBatchStatus_leaves_running_job_witness :
  let w' := snd (checkBatchStatus running stored) in
  jobObjects w' 0%nat = jobObjects stored 0%nat
  /\ 0%nat ∈ jobs w'
  /\ 0%nat ∈ pendingJobs w'.
Proof.
  apply (checkBatchStatus_leaves_running_job running stored 0%nat).
  - apply list_elem_of_here.
  - reflexivity.
  - exists (mkBatch "in_progress" None None).
    split; [reflexivity|split; simpl; discriminate].
Defined.

Lemma template_placeholder_witness :
  template (fun text => text) "Hello {{0}}!" [Scalar "pepe"]
  = "Hello " +:+ "pepe" +:+ template (fun text => text) "!" [Scalar "pepe"].
Proof.
  apply (template_placeholder (fun text => text) "Hello " "!" 0 [Scalar "pepe"]).
  reflexivity.
Defined.

Import PathSamples.

Lemma entries_of_srtText_witness :
  SrtFile.entries (srtText LF twoBlocks)
  = map (fun b => (blockHead LF b, blockBody LF b)) twoBlocks.
Proof.
  apply (entries_of_srtText LF).
  - left. reflexivity.
  - reflexivity.
Defined.

Lemma mapFileName_keeps_up_to_year_witness :
  mapFileName "Movie (1999) 1080p.mkv" = "Movie (1999)".
Proof.
  apply (mapFileName_keeps_up_to_year "Movie" " 1080p.mkv" "1" "9" "9" "9");
    reflexivity.
Defined.

Lemma translatePath_works_once_witness :
  exists events,
    translatePath sync options echo emptyShelf movie 2 2 visited
    = (Resolves None, onWorld (printAll events) visited)
    /\ (length events <= 1)%nat.
Proof.
  apply (translatePath_works_once sync options echo shelf movie 1 1 start (Some false)
           visited).
  - vm_compute. reflexivity.
  - vm_compute. reflexivity.
Defined.

Lemma ffmpegSubtitles_extracts_first_english_witness :
  exists streams pre st post,
    ffprobe embedded movie = inr streams
    /\ List.filter eligible streams = pre ++ st :: post
    /\ Forall (fun x => isEnglish x = Some false) pre
    /\ isEnglish st = Some true
    /\ Forall (fun x => isTarget sync x = Some false) (List.filter eligible streams)
    /\ movieSub = replaceVideoExt movie ".en.srt"
    /\ extractions extracted = extractions start ++ [(movie, streamIndex st, movieSub)]
    /\ written extracted = written start
    /\ translated (mkExtraction (Some movieSub) (Some false)) = Some false.
Proof.
  apply (ffmpegSubtitles_extracts_first_english sync embedded movie start
           (mkExtraction (Some movieSub) (Some false)) extracted movieSub).
  - vm_compute. reflexivity.
  - reflexivity.
Defined.

Lemma ffmpegSubtitles_untagged_stream_witness :
  ffmpegSubtitles sync embeddedUntagged movie start = (Pending, start).
Proof.
  apply (ffmpegSubtitles_untagged_stream sync embeddedUntagged movie start
           [video; untagged; english] [] untagged [english]).
  - reflexivity.
  - reflexivity.
  - constructor.
  - left. reflexivity.
Defined.

Lemma translatePath_echo_writes_every_entry_witness :
  exists s' lines,
    translatePath sync options echo shelf movie 1 1 start = (Resolves (Some false), s')
    /\ subtitleFiles (world s')
       = subtitleFiles (world start)
         ++ [ {| sourcePath := movieSub;
                 languageAlias := head (TARGET_LANGUAGE_ALIAS sync);
                 body := Js.join (String newline (String newline EmptyString)) lines |} ]
    /\ length lines = length (SrtFile.entries (readFileSync shelf movieSub))
    /\ (forall i h b,
          SrtFile.entries (readFileSync shelf movieSub) !! i = Some (h, b) ->
          exists t,
            lines !! i = Some (h +:+ t)
            /\ t <> EmptyString
            /\ (Js.trimEnd (Srt.cleanContent b) <> EmptyString ->
                t = Js.trimEnd (Srt.cleanContent b))).
Proof.
  apply (translatePath_echo_writes_every_entry sync echo).
  - reflexivity.
  - intros n text. reflexivity.
  - vm_compute. reflexivity.
  - reflexivity.
  - vm_compute. reflexivity.
Defined.

Lemma text_outside_tags_is_dropped_witness :
  Srt.cleanContent ("How are you?" +:+ line +:+ "<i>Fine.</i>" +:+ line) = "Fine.".
Proof.
  apply (text_outside_tags_is_dropped
           ("How are you?" +:+ line +:+ "<i>Fine.</i>" +:+ line)
           ("How are you?" +:+ line +:+ "<i") "Fine." "/i>").
  - reflexivity.
  - reflexivity.
  - reflexivity.
  - vm_compute. discriminate.
Defined.

Lemma translatePath_without_entry_witness :
  let res := translatePath sync options echo emptyShelf movie 1 1 start in
  fst res = Resolves (Some false)
  /\ subtitleFiles (world (snd res))
     = subtitleFiles (world start)
       ++ [ {| sourcePath := movieSub;
               languageAlias := head (TARGET_LANGUAGE_ALIAS sync);
               body := EmptyString |} ]
  /\ network (world (snd res)) = network (world start)
  /\ toBatch (world (snd res)) = toBatch (world start).
Proof.
  apply (translatePath_without_entry sync options echo emptyShelf movie 1 1 start movieSub).
  - vm_compute. reflexivity.
  - reflexivity.
  - vm_compute. reflexivity.
  - vm_compute. reflexivity.
Defined.

Lemma translatePath_batch_first_visit_witness :
  exists s',
    translatePath batched options echo shelf movie 1 1 start = (Resolves (Some true), s')
    /\ (forall i h b,
          SrtFile.entries (readFileSync shelf movieSub) !! i = Some (h, b) ->
          segments (world s') (allocated start + i)%nat = Srt.segmentOfMatch h b)
    /\ map bodyText (toBatch (world s'))
       = map bodyText (toBatch (world start))
         ++ map (groupText (world s'))
              (groupSegmentsByTokenLength (fun m => content (segments (world s') m))
                 (numTokens echo)
                 (seq (allocated start)
                    (length (SrtFile.entries (readFileSync shelf movieSub))))
                 (MAX_TOKENS batched))
    /\ network (world s') = network (world start)
    /\ subtitleFiles (world s') = subtitleFiles (world start).
Proof.
  apply (translatePath_batch_first_visit batched options echo shelf).
  - reflexivity.
  - vm_compute. reflexivity.
  - reflexivity.
  - vm_compute. reflexivity.
  - reflexivity.
  - vm_compute. discriminate.
Defined.


Lemma translatePath_skips_translated_witness :
  translatePath sync options echo translatedShelf movie 1 1 start = (Resolves None, start).
Proof.
  apply (translatePath_skips_translated sync options echo translatedShelf movie 1 1 start
           "/films/Movie (1999) 1080p" "es").
  - reflexivity.
  - apply list_elem_of_further, list_elem_of_here.
  - left. apply list_elem_of_here.
Defined.

